(** * image-metadata-editor: the CSV sidecar codec and the scan/apply drivers

    A shallow embedding of [main.go].  Go strings are byte sequences and are
    modelled as [list ascii]; the program's own functions keep their names.
    Functions of Go's standard library whose result depends on Unicode tables
    or on the operating system ([strings.TrimSpace], [strings.EqualFold],
    [strings.ToLower], package [path/filepath]) and the JPEG/EXIF library are
    taken as parameters, bundled in type classes; byte-exact helpers
    ([strings.ContainsAny], [strings.ReplaceAll], [strings.HasSuffix], the
    line scanner, the buffered writer) are written out. *)

From Stdlib Require Import String Ascii List ZArith Bool Lia.
Import ListNotations.

Set Implicit Arguments.

(** ** Strings *)

Definition str : Type := list ascii.

(** A Go string literal without escapes. *)
Definition lit (s : string) : str := list_ascii_of_string s.

Definition dquote : ascii := "034"%char.
Definition comma : ascii := ","%char.
Definition LF : ascii := "010"%char.
Definition CR : ascii := "013"%char.

Fixpoint str_eqb (a b : str) : bool :=
  match a, b with
  | [], [] => true
  | x :: a', y :: b' => Ascii.eqb x y && str_eqb a' b'
  | _, _ => false
  end.

(** [strings.ContainsAny(s, chars)] for a [chars] made of ASCII bytes. *)
Definition strings_ContainsAny (s chars : str) : bool :=
  existsb (fun c => existsb (Ascii.eqb c) chars) s.

Fixpoint hasPrefix (p s : str) : bool :=
  match p, s with
  | [], _ => true
  | x :: p', y :: s' => Ascii.eqb x y && hasPrefix p' s'
  | _ :: _, [] => false
  end.

(** [strings.ReplaceAll(s, old, new)] for a non-empty [old]: the leftmost
    non-overlapping occurrences of [old] are replaced.  [skip] counts the
    bytes of a matched occurrence still to be passed over. *)
Fixpoint replaceFrom (old new s : str) (skip : nat) : str :=
  match s with
  | [] => []
  | c :: s' =>
      match skip with
      | S k => replaceFrom old new s' k
      | O =>
          if hasPrefix old s
          then new ++ replaceFrom old new s' (length old - 1)
          else c :: replaceFrom old new s' 0
      end
  end.

Definition strings_ReplaceAll (s old new : str) : str := replaceFrom old new s 0.

(** [strings.HasSuffix] and [strings.TrimSuffix]. *)
Definition strings_HasSuffix (s suffix : str) : bool :=
  hasPrefix (rev suffix) (rev s).

Definition strings_TrimSuffix (s suffix : str) : str :=
  if strings_HasSuffix s suffix
  then firstn (length s - length suffix) s
  else s.

(** ** Errors *)

Inductive error : Type :=
| io_EOF
| bufio_ErrTooLong
| errors_New (msg : string)
    (* fmt.Errorf(msg) *)
| Errorf_w (ctx : string) (cause : error)
    (* fmt.Errorf(ctx + ": %w", cause) *)
| Errorf_s_w (ctx : string) (arg : str) (cause : error)
    (* fmt.Errorf(ctx + " %s: %w", arg, cause) *)
| os_error (code : nat)
    (* an error reported by the operating system *)
| lib_error (code : nat).
    (* an error reported by the JPEG/EXIF library *)

Inductive result (A : Type) : Type :=
| Ok (a : A)
| Err (e : error).
Arguments Ok {A} a.
Arguments Err {A} e.

(** ** CSV writer *)

(** The [io.Writer] under a [bufio.Writer]: the file that [os.Create]
    opened.  [write_fault], given the bytes the device took so far and the
    chunk offered to it, says how the device's [Write] ends: [None] when it
    takes the whole chunk, [Some (n, err)] when it takes the first [n] bytes
    of the chunk only and returns [err]; a short count without an error,
    which [*os.File] never returns, is left out.  [isStringWriter] says
    whether the device has a [WriteString] method of its own, as [*os.File]
    has. *)
Record io_Writer : Type := {
  isStringWriter : bool;
  write_fault : str -> str -> option (nat * error)
}.

(** [defaultBufSize] of package bufio. *)
Definition bufSize : nat := 4096.

(** [bufio.Writer]: [sent] are the bytes the device took, [buf] the bytes
    that wait in the buffer ([b.buf[0:b.n]]), [werr] the sticky error. *)
Record bufio_Writer : Type := {
  wr : io_Writer;
  sent : str;
  buf : str;
  werr : option error
}.

(** The bytes handed to the writer that it still has or has passed on, in
    order.  Only [sent] is in the file. *)
Definition accepted (b : bufio_Writer) : str := sent b ++ buf b.

Definition bufio_NewWriter (w : io_Writer) : bufio_Writer :=
  {| wr := w; sent := []; buf := []; werr := None |}.

Definition bufio_Available (b : bufio_Writer) : nat := bufSize - length (buf b).

Definition bufio_Buffered (b : bufio_Writer) : nat := length (buf b).

(** [b.wr.Write(p)] (or [WriteString]) on a device that took [taken] so far:
    the bytes it took afterwards, the count it returns and its error. *)
Definition io_Write (w : io_Writer) (taken p : str) : str * nat * option error :=
  match write_fault w taken p with
  | None => (taken ++ p, length p, None)
  | Some (n, e) => (taken ++ firstn n p, Nat.min n (length p), Some e)
  end.

(** [Flush] of [bufio.Writer].  The device of this model returns a short count
    only together with an error, so [io.ErrShortWrite] does not arise. *)
Definition bufio_Flush (b : bufio_Writer) : bufio_Writer * option error :=
  match werr b with
  | Some e => (b, Some e)
  | None =>
      if (bufio_Buffered b =? 0)%nat then (b, None)
      else
        match io_Write (wr b) (sent b) (buf b) with
        | (sent', n, Some e) =>
            ({| wr := wr b; sent := sent'; buf := skipn n (buf b);
                werr := Some e |}, Some e)
        | (sent', _, None) =>
            ({| wr := wr b; sent := sent'; buf := []; werr := None |}, None)
        end
  end.

(** One pass of the loop of [WriteString] of [bufio.Writer], entered when
    [s] does not fit the free room of the buffer: [s] goes to the device
    directly when the buffer is empty and the device can take strings, and
    otherwise fills the buffer, which is then flushed.  The result is the
    writer and the rest of [s]. *)
Definition writeStringPass (b : bufio_Writer) (s : str) : bufio_Writer * str :=
  if (bufio_Buffered b =? 0)%nat && isStringWriter (wr b) then
    match io_Write (wr b) (sent b) s with
    | (sent', n, err) =>
        ({| wr := wr b; sent := sent'; buf := buf b; werr := err |}, skipn n s)
    end
  else
    let n := Nat.min (bufio_Available b) (length s) in
    let b1 := {| wr := wr b; sent := sent b;
                 buf := buf b ++ firstn n s; werr := werr b |} in
    (fst (bufio_Flush b1), skipn n s).

(** The [for len(s) > b.Available() && b.err == nil] loop.  A pass with an
    empty buffer takes bytes off [s] and every pass leaves the buffer empty,
    so [fuel] beyond the length of [s] plus one is never used up
    ([writeStringLoop_fits] below). *)
Fixpoint writeStringLoop (fuel : nat) (b : bufio_Writer) (s : str)
  : bufio_Writer * str :=
  match werr b with
  | Some _ => (b, s)
  | None =>
      if (bufio_Available b <? length s)%nat then
        match fuel with
        | O => (b, s)
        | S fuel' =>
            let (b', s') := writeStringPass b s in
            writeStringLoop fuel' b' s'
        end
      else (b, s)
  end.

Definition bufio_WriteString (b : bufio_Writer) (s : str)
  : bufio_Writer * option error :=
  let (b1, s1) := writeStringLoop (S (length s)) b s in
  match werr b1 with
  | Some e => (b1, Some e)
  | None =>
      let n := Nat.min (bufio_Available b1) (length s1) in
      ({| wr := wr b1; sent := sent b1; buf := buf b1 ++ firstn n s1;
          werr := None |}, None)
  end.

Record csvWriter : Type := { writer : bufio_Writer }.

Definition newCSVWriter (w : io_Writer) : csvWriter :=
  {| writer := bufio_NewWriter w |}.

Definition csvWriter_writeString (w : csvWriter) (value : str)
  : csvWriter * option error :=
  let (b, err) := bufio_WriteString (writer w) value in
  ({| writer := b |}, err).

Definition csvWriter_Flush (w : csvWriter) : csvWriter * option error :=
  let (b, err) := bufio_Flush (writer w) in
  ({| writer := b |}, err).

Definition encodeCSVField (field : str) : str :=
  let needsQuotes := strings_ContainsAny field [dquote; comma; LF; CR] in
  if negb needsQuotes then field
  else
    let escaped := strings_ReplaceAll field [dquote] [dquote; dquote] in
    [dquote] ++ escaped ++ [dquote].

(** The [for i, field := range record] loop of [csvWriter.Write]; [i] is the
    index of the head of [record]. *)
Fixpoint writeFields (w : csvWriter) (i : nat) (record : list str)
  : csvWriter * option error :=
  match record with
  | [] => (w, None)
  | field :: record' =>
      let (w1, err1) :=
        if (0 <? i)%nat then csvWriter_writeString w [comma] else (w, None) in
      match err1 with
      | Some e => (w1, Some e)
      | None =>
          let (w2, err2) := csvWriter_writeString w1 (encodeCSVField field) in
          match err2 with
          | Some e => (w2, Some e)
          | None => writeFields w2 (S i) record'
          end
      end
  end.

Definition csvWriter_Write (w : csvWriter) (record : list str)
  : csvWriter * option error :=
  let (w1, err) := writeFields w 0 record in
  match err with
  | Some e => (w1, Some e)
  | None => csvWriter_writeString w1 [LF]
  end.

(** ** CSV reader *)

(** The raw physical lines of an input, as [bufio.ScanLines] cuts them: each
    line ends at a line feed, which is dropped; a last line without a line
    feed counts when it is not empty. *)
Fixpoint physicalLines (input : str) : list str :=
  match input with
  | [] => []
  | c :: input' =>
      if Ascii.eqb c LF then [] :: physicalLines input'
      else
        match physicalLines input' with
        | [] => [[c]]
        | l :: ls => (c :: l) :: ls
        end
  end.

(** [dropCR] of package bufio. *)
Definition dropCR (data : str) : str :=
  strings_TrimSuffix data [CR].

(** [bufio.Scanner] with the [ScanLines] split function.  [pending] are the
    raw lines not yet delivered.  A raw line that does not fit the buffer
    with room for its line feed, that is one of [maxTokenSize] bytes or more,
    ends the scan with [bufio.ErrTooLong].  The scanner is followed up to
    the first [Scan] that returns [false]: after [bufio.ErrTooLong] Go's
    scanner would hand out the bytes in its buffer on a further [Scan],
    which [csvReader.Read]'s callers never ask for, and which this record
    does not keep. *)
Record bufio_Scanner : Type := {
  pending : list str;
  maxTokenSize : Z;
  token : str;
  scanErr : option error
}.

Definition bufio_NewScanner (input : str) : bufio_Scanner :=
  {| pending := physicalLines input;
     maxTokenSize := 64 * 1024;
     token := [];
     scanErr := None |}.

Definition Scanner_Buffer (s : bufio_Scanner) (max : Z) : bufio_Scanner :=
  {| pending := pending s; maxTokenSize := max;
     token := token s; scanErr := scanErr s |}.

Definition Scanner_Scan (s : bufio_Scanner) : bufio_Scanner * bool :=
  match scanErr s with
  | Some _ =>
      ({| pending := []; maxTokenSize := maxTokenSize s;
          token := []; scanErr := scanErr s |}, false)
  | None =>
      match pending s with
      | [] =>
          ({| pending := []; maxTokenSize := maxTokenSize s;
              token := []; scanErr := None |}, false)
      | raw :: rest =>
          if (maxTokenSize s <=? Z.of_nat (length raw))%Z
          then
            ({| pending := []; maxTokenSize := maxTokenSize s;
                token := []; scanErr := Some bufio_ErrTooLong |}, false)
          else
            ({| pending := rest; maxTokenSize := maxTokenSize s;
                token := dropCR raw; scanErr := None |}, true)
      end
  end.

Definition Scanner_Text (s : bufio_Scanner) : str := token s.
Definition Scanner_Err (s : bufio_Scanner) : option error := scanErr s.

Record csvReader : Type := { scanner : bufio_Scanner }.

Definition maxScanTokenSize : Z := 1024 * 1024.

Definition newCSVReader (input : str) : csvReader :=
  {| scanner := Scanner_Buffer (bufio_NewScanner input) maxScanTokenSize |}.

(** The [for i := 0; i < len(line); i++] loop of [parseCSVLine], on the part
    of the line from index [i] on. *)
Fixpoint scanLine (line : str) (fields : list str) (field : str)
    (inQuotes : bool) : list str * str * bool :=
  match line with
  | [] => (fields, field, inQuotes)
  | ch :: rest =>
      if Ascii.eqb ch dquote then
        match inQuotes, rest with
        | true, ch' :: rest' =>
            if Ascii.eqb ch' dquote
            then scanLine rest' fields (field ++ [dquote]) true
            else scanLine rest fields field false
        | _, _ => scanLine rest fields field (negb inQuotes)
        end
      else if Ascii.eqb ch comma then
        if inQuotes
        then scanLine rest fields (field ++ [ch]) inQuotes
        else scanLine rest (fields ++ [field]) [] inQuotes
      else scanLine rest fields (field ++ [ch]) inQuotes
  end.

Definition parseCSVLine (line : str) : result (list str) :=
  let '(fields, field, inQuotes) := scanLine line [] [] false in
  if inQuotes then Err (errors_New "unterminated quoted field")
  else Ok (fields ++ [field]).

Definition csvReader_Read (r : csvReader) : csvReader * result (list str) :=
  let (s, ok) := Scanner_Scan (scanner r) in
  let r' := {| scanner := s |} in
  if negb ok then
    match Scanner_Err s with
    | Some err => (r', Err err)
    | None => (r', Err io_EOF)
    end
  else
    let line := Scanner_Text s in
    let line :=
      if strings_HasSuffix line [CR] then strings_TrimSuffix line [CR]
      else line in
    match parseCSVLine line with
    | Err err => (r', Err err)
    | Ok record => (r', Ok record)
    end.

(** ** Library parameters *)

(** The Unicode-aware functions of package strings and the functions of
    package path/filepath that the program calls. *)
Class GoRuntime : Type := {
  strings_TrimSpace : str -> str;
  strings_EqualFold : str -> str -> bool;
  strings_ToLower : str -> str;
  filepath_Clean : str -> str;
  filepath_Join : str -> str -> str;
  filepath_IsAbs : str -> bool;
  filepath_Ext : str -> str;
  filepath_Abs : str -> result str
}.

(** [os.DirEntry], as far as [scanDirectory] looks at it. *)
Record DirEntry : Type := {
  Name : str;
  IsDir : bool;
  Type_IsRegular : bool
}.

(** The dynamic type of the [interface{}] that a tag's [Value()] returns. *)
Inductive TagValue : Type :=
| V_string (title : str)
| V_strings (title : list str)
| V_bytes (title : str)
| V_byteSlices (title : list str)
| V_other.

(** The file system and the go-jpeg-image-structure library.  [World] is the
    state of the files; operations that only read take it as an argument,
    operations that write return the next state.  [file_Close w path bytes]
    are the files once the handle that [os.Create] opened at [path] is
    closed, the device having taken [bytes] through it. *)
Class JpegEnv : Type := {
  World : Type;
  SegmentList : Type;
  Ifd : Type;
  IfdTagEntry : Type;
  IfdBuilder : Type;
  os_ReadDir : World -> str -> result (list DirEntry);
  os_Open : World -> str -> result str;
  os_Create : World -> str -> World * result io_Writer;
  file_Close : World -> str -> str -> World;
  mp_ParseFile : World -> str -> result SegmentList;
  sl_Exif : SegmentList -> result Ifd;
  ifd_FindTagWithName : Ifd -> str -> result (list IfdTagEntry);
  ite_Value : IfdTagEntry -> result TagValue;
  sl_ConstructExifBuilder : SegmentList -> result IfdBuilder;
  ib_SetStandardWithName : IfdBuilder -> str -> str -> IfdBuilder * option error;
  sl_SetExif : SegmentList -> IfdBuilder -> SegmentList * option error;
  sl_Write : World -> str -> SegmentList -> World * option error
}.

Definition csvFilename : str := lit "bilder.csv".

(** What [applyTitlesFromCSV] did: the [upsertTitle] calls it made, as
    (path, title) pairs in order, the files afterwards and the error it
    returned. *)
Record Outcome (W : Type) : Type := {
  calls : list (str * str);
  after : W;
  failure : option error
}.

Definition logCall {W : Type} (c : str * str) (o : Outcome W) : Outcome W :=
  {| calls := c :: calls o; after := after o; failure := failure o |}.

(** What [scanDirectory] did: the files afterwards, the sidecar's writer when
    the file was created, and the error returned.  The sidecar file holds
    the bytes its writer has [sent]; what is still in the writer's buffer
    when the function returns is lost. *)
Record ScanOutcome (W : Type) : Type := {
  scanned : W;
  sidecar : option csvWriter;
  scanFailure : option error
}.

Section Program.
Context {rt : GoRuntime} {env : JpegEnv}.

Fixpoint headerIndexFrom (i : Z) (header : list str) (name : str) : Z :=
  match header with
  | [] => -1
  | value :: header' =>
      if strings_EqualFold (strings_TrimSpace value) name then i
      else headerIndexFrom (i + 1) header' name
  end.

Definition headerIndex (header : list str) (name : str) : Z :=
  headerIndexFrom 0 header name.

Definition isJPEG (name : str) : bool :=
  let ext := strings_ToLower (filepath_Ext name) in
  str_eqb ext (lit ".jpg") || str_eqb ext (lit ".jpeg").

Definition readTitle (w : World) (path : str) : result str :=
  match mp_ParseFile w path with
  | Err err => Err (Errorf_w "parse JPEG" err)
  | Ok sl =>
      match sl_Exif sl with
      | Err err => Err (Errorf_w "parse EXIF" err)
      | Ok rootIfd =>
          match ifd_FindTagWithName rootIfd (lit "ImageDescription") with
          | Err _ => Ok []
          | Ok [] => Ok []
          | Ok (first :: _) =>
              match ite_Value first with
              | Err _ => Ok []
              | Ok (V_string title) => Ok title
              | Ok (V_strings (t0 :: _)) => Ok t0
              | Ok (V_bytes title) => Ok title
              | Ok (V_byteSlices (t0 :: _)) => Ok t0
              | Ok _ => Ok []
              end
          end
      end
  end.

Definition upsertTitle (w : World) (path title : str) : World * option error :=
  match mp_ParseFile w path with
  | Err err => (w, Some (Errorf_w "parse JPEG" err))
  | Ok sl =>
      match sl_ConstructExifBuilder sl with
      | Err err => (w, Some (Errorf_w "build EXIF" err))
      | Ok rootIb =>
          match ib_SetStandardWithName rootIb (lit "ImageDescription") title with
          | (_, Some err) => (w, Some (Errorf_w "set title" err))
          | (rootIb', None) =>
              match sl_SetExif sl rootIb' with
              | (_, Some err) =>
                  (w, Some (Errorf_w "write EXIF to JPEG structure" err))
              | (sl', None) =>
                  match os_Create w path with
                  | (w1, Err err) => (w1, Some (Errorf_w "open for write" err))
                  | (w1, Ok _) =>
                      match sl_Write w1 path sl' with
                      | (w2, Some err) => (w2, Some (Errorf_w "write JPEG" err))
                      | (w2, None) => (w2, None)
                      end
                  end
              end
          end
      end
  end.

(** The [for] loop of [applyTitlesFromCSV].  Every pass that does not leave
    the loop has taken a line from the reader, so [fuel] beyond the number of
    pending lines is never used up ([applyRows_unfold] below). *)
Fixpoint applyRowsFuel (fuel : nat) (dir : str) (filenameIdx titleIdx : Z)
    (reader : csvReader) (w : World) : Outcome World :=
  match fuel with
  | O => {| calls := []; after := w; failure := None |}
  | S fuel' =>
      match csvReader_Read reader with
      | (_, Err io_EOF) => {| calls := []; after := w; failure := None |}
      | (_, Err err) =>
          {| calls := []; after := w;
             failure := Some (Errorf_w "read record" err) |}
      | (reader', Ok record) =>
          if (filenameIdx >=? Z.of_nat (length record))%Z
          then applyRowsFuel fuel' dir filenameIdx titleIdx reader' w
          else
            let filename :=
              strings_TrimSpace (nth (Z.to_nat filenameIdx) record []) in
            if str_eqb filename []
            then applyRowsFuel fuel' dir filenameIdx titleIdx reader' w
            else
              let title :=
                if (titleIdx <? Z.of_nat (length record))%Z
                then nth (Z.to_nat titleIdx) record []
                else [] in
              let path :=
                if negb (filepath_IsAbs filename)
                then filepath_Join dir filename
                else filename in
              match upsertTitle w path title with
              | (w', Some err) =>
                  {| calls := [(path, title)]; after := w';
                     failure := Some (Errorf_s_w "apply title for" filename err) |}
              | (w', None) =>
                  logCall (path, title)
                    (applyRowsFuel fuel' dir filenameIdx titleIdx reader' w')
              end
      end
  end.

Definition applyRows (dir : str) (filenameIdx titleIdx : Z)
    (reader : csvReader) (w : World) : Outcome World :=
  applyRowsFuel (S (length (pending (scanner reader))))
    dir filenameIdx titleIdx reader w.

(** [applyTitlesFromCSV] from the point where the sidecar file is open;
    [file] is its contents and [dir] the cleaned directory. *)
Definition applyTable (w : World) (dir : str) (file : str) : Outcome World :=
  let reader := newCSVReader file in
  match csvReader_Read reader with
  | (_, Err err) =>
      {| calls := []; after := w; failure := Some (Errorf_w "read header" err) |}
  | (reader, Ok header) =>
      let filenameIdx := headerIndex header (lit "filename") in
      let titleIdx := headerIndex header (lit "title") in
      if (filenameIdx =? -1)%Z || (titleIdx =? -1)%Z
      then {| calls := []; after := w;
              failure :=
                Some (errors_New "csv must include filename and title columns") |}
      else applyRows dir filenameIdx titleIdx reader w
  end.

Definition applyTitlesFromCSV (w : World) (dir : str) : Outcome World :=
  let dir := filepath_Clean dir in
  let csvPath := filepath_Join dir csvFilename in
  match os_Open w csvPath with
  | Err err =>
      {| calls := []; after := w; failure := Some (Errorf_w "open csv" err) |}
  | Ok file => applyTable w dir file
  end.

(** The deferred [file.Close()] of [scanDirectory]: it runs on every return
    after the file was created, with or without a [Flush] before it. *)
Definition closeFile (w : World) (csvPath : str) (cw : csvWriter) : World :=
  file_Close w csvPath (sent (writer cw)).

(** The [for _, entry := range entries] loop of [scanDirectory]. *)
Fixpoint scanEntries (w : World) (absDir : str) (writer : csvWriter)
    (entries : list DirEntry) : csvWriter * option error :=
  match entries with
  | [] => (writer, None)
  | entry :: entries' =>
      if IsDir entry || negb (Type_IsRegular entry)
      then scanEntries w absDir writer entries'
      else
        let name := Name entry in
        if strings_EqualFold name csvFilename || negb (isJPEG name)
        then scanEntries w absDir writer entries'
        else
          match readTitle w (filepath_Join absDir (Name entry)) with
          | Err err => (writer, Some err)
          | Ok title =>
              match csvWriter_Write writer [name; title] with
              | (writer', Some err) =>
                  (writer', Some (Errorf_s_w "write row for" name err))
              | (writer', None) => scanEntries w absDir writer' entries'
              end
          end
  end.

Definition scanDirectory (w : World) (dir : str) : ScanOutcome World :=
  let dir := filepath_Clean dir in
  match os_ReadDir w dir with
  | Err err =>
      {| scanned := w; sidecar := None;
         scanFailure := Some (Errorf_w "read directory" err) |}
  | Ok entries =>
      let csvPath := filepath_Join dir csvFilename in
      match os_Create w csvPath with
      | (w1, Err err) =>
          {| scanned := w1; sidecar := None;
             scanFailure := Some (Errorf_w "create csv" err) |}
      | (w1, Ok file) =>
          let writer := newCSVWriter file in
          match csvWriter_Write writer [lit "filename"; lit "title"] with
          | (writer, Some err) =>
              {| scanned := closeFile w1 csvPath writer; sidecar := Some writer;
                 scanFailure := Some (Errorf_w "write header" err) |}
          | (writer, None) =>
              match filepath_Abs dir with
              | Err err =>
                  {| scanned := closeFile w1 csvPath writer; sidecar := Some writer;
                     scanFailure := Some err |}
              | Ok absDir =>
                  match scanEntries w1 absDir writer entries with
                  | (writer, Some err) =>
                      {| scanned := closeFile w1 csvPath writer; sidecar := Some writer;
                         scanFailure := Some err |}
                  | (writer, None) =>
                      match csvWriter_Flush writer with
                      | (writer, Some err) =>
                          {| scanned := closeFile w1 csvPath writer; sidecar := Some writer;
                             scanFailure := Some (Errorf_w "flush csv" err) |}
                      | (writer, None) =>
                          {| scanned := closeFile w1 csvPath writer; sidecar := Some writer;
                             scanFailure := None |}
                      end
                  end
              end
          end
      end
  end.

End Program.

(** ** A small environment to run the program in

    Stand-ins for the parameters above.  [asciiRuntime] agrees with Go's
    library on ASCII text and on paths that are already clean; [toyEnv] keeps
    images as lists of named EXIF tags. *)

Module Toy.

Definition isSpace (c : ascii) : bool :=
  existsb (Ascii.eqb c)
    ["009"%char; "010"%char; "011"%char; "012"%char; "013"%char; " "%char].

Fixpoint trimLeft (s : str) : str :=
  match s with
  | [] => []
  | c :: s' => if isSpace c then trimLeft s' else s
  end.

Definition trimSpace (s : str) : str := rev (trimLeft (rev (trimLeft s))).

Definition lower (c : ascii) : ascii :=
  let n := nat_of_ascii c in
  if ((65 <=? n) && (n <=? 90))%nat then ascii_of_nat (n + 32) else c.

Definition toLower (s : str) : str := map lower s.

Definition equalFold (a b : str) : bool := str_eqb (toLower a) (toLower b).

(** [acc] holds the bytes already passed, walking from the end. *)
Fixpoint extRev (r acc : str) : str :=
  match r with
  | [] => []
  | c :: r' =>
      if Ascii.eqb c "/"%char then []
      else if Ascii.eqb c "."%char then c :: acc
      else extRev r' (c :: acc)
  end.

Definition ext (path : str) : str := extRev (rev path) [].

Definition isAbs (path : str) : bool := hasPrefix (lit "/") path.

Definition join (dir name : str) : str := dir ++ lit "/" ++ name.

Definition absPath (path : str) : result str :=
  Ok (if isAbs path then path else lit "/cwd/" ++ path).

Definition noFault : io_Writer :=
  {| isStringWriter := true; write_fault := fun _ _ => None |}.

Fixpoint assoc {A : Type} (k : str) (l : list (str * A)) : option A :=
  match l with
  | [] => None
  | (k', a) :: l' => if str_eqb k k' then Some a else assoc k l'
  end.

Fixpoint put {A : Type} (k : str) (a : A) (l : list (str * A)) : list (str * A) :=
  match l with
  | [] => [(k, a)]
  | (k', a') :: l' =>
      if str_eqb k k' then (k, a) :: l' else (k', a') :: put k a l'
  end.

(** An image: its EXIF tags by name, or [None] when it has no EXIF block. *)
Record Jpeg : Type := { exifTags : option (list (str * TagValue)) }.

Record Files : Type := {
  listings : list (str * list DirEntry);
  texts : list (str * str);
  images : list (str * Jpeg)
}.

Definition findTags (ifd : list (str * TagValue)) (name : str)
  : result (list TagValue) :=
  match filter (fun kv => str_eqb (fst kv) name) ifd with
  | [] => Err (lib_error 3)
  | found => Ok (map snd found)
  end.

Definition setTag (ib : list (str * TagValue)) (name value : str)
  : list (str * TagValue) * option error :=
  (put name (V_string value) ib, None).

Definition writeImage (w : Files) (path : str) (j : Jpeg) : Files * option error :=
  ({| listings := listings w; texts := texts w;
      images := put path j (images w) |}, None).

End Toy.

#[local] Instance asciiRuntime : GoRuntime := {
  strings_TrimSpace := Toy.trimSpace;
  strings_EqualFold := Toy.equalFold;
  strings_ToLower := Toy.toLower;
  filepath_Clean := fun path => path;
  filepath_Join := Toy.join;
  filepath_IsAbs := Toy.isAbs;
  filepath_Ext := Toy.ext;
  filepath_Abs := Toy.absPath
}.

#[local] Instance toyEnv : JpegEnv := {
  World := Toy.Files;
  SegmentList := Toy.Jpeg;
  Ifd := list (str * TagValue);
  IfdTagEntry := TagValue;
  IfdBuilder := list (str * TagValue);
  os_ReadDir := fun w dir =>
    match Toy.assoc dir (Toy.listings w) with
    | Some entries => Ok entries
    | None => Err (os_error 2)
    end;
  os_Open := fun w path =>
    match Toy.assoc path (Toy.texts w) with
    | Some file => Ok file
    | None => Err (os_error 2)
    end;
  os_Create := fun w _ => (w, Ok Toy.noFault);
  file_Close := fun w path bytes =>
    {| Toy.listings := Toy.listings w;
       Toy.texts := Toy.put path bytes (Toy.texts w);
       Toy.images := Toy.images w |};
  mp_ParseFile := fun w path =>
    match Toy.assoc path (Toy.images w) with
    | Some j => Ok j
    | None => Err (lib_error 1)
    end;
  sl_Exif := fun j =>
    match Toy.exifTags j with
    | Some tags => Ok tags
    | None => Err (lib_error 2)
    end;
  ifd_FindTagWithName := Toy.findTags;
  ite_Value := fun v => Ok v;
  sl_ConstructExifBuilder := fun j =>
    Ok (match Toy.exifTags j with Some tags => tags | None => [] end);
  ib_SetStandardWithName := Toy.setTag;
  sl_SetExif := fun _ ib => ({| Toy.exifTags := Some ib |}, None);
  sl_Write := Toy.writeImage
}.

(** ** Sample files for the toy environment *)

Module Sample.

Definition image (title : string) : Toy.Jpeg :=
  {| Toy.exifTags := Some [(lit "ImageDescription", V_string (lit title))] |}.

(** A JPEG without an EXIF block. *)
Definition bare : Toy.Jpeg := {| Toy.exifTags := None |}.

Definition file (name : string) : DirEntry :=
  {| Name := lit name; IsDir := false; Type_IsRegular := true |}.

Definition folder (name : string) : DirEntry :=
  {| Name := lit name; IsDir := true; Type_IsRegular := false |}.

Definition files : Toy.Files :=
  {| Toy.listings :=
       [(lit "/d", [file "a.jpg"; file "notes.txt"; file "B.JPEG";
                    folder "sub.jpg"; file "bilder.csv"])];
     Toy.texts := [];
     Toy.images := [(lit "/d/a.jpg", image "Sunset");
                    (lit "/d/B.JPEG", image "x, y");
                    (lit "/d/c.jpg", bare)] |}.

(** The same files with a sidecar whose only row has one field, under a
    header whose title column is the third. *)
Definition shortRowFiles : Toy.Files :=
  {| Toy.listings := Toy.listings files;
     Toy.texts :=
       [(lit "/d/bilder.csv",
         lit "filename,x,title" ++ [LF] ++ lit "a.jpg" ++ [LF])];
     Toy.images := Toy.images files |}.

(** A directory that holds only an image without EXIF data. *)
Definition bareFiles : Toy.Files :=
  {| Toy.listings := [(lit "/e", [file "c.jpg"])];
     Toy.texts := [];
     Toy.images := [(lit "/e/c.jpg", bare)] |}.

End Sample.

(** ** Definitions used to state the properties *)

(** Every double quote of a field written twice. *)
Definition doubleQuotes (field : str) : str :=
  flat_map (fun c => if Ascii.eqb c dquote then [dquote; dquote] else [c]) field.

Definition quotedForm (field : str) : str :=
  [dquote] ++ doubleQuotes field ++ [dquote].

Definition needsQuoting (field : str) : Prop :=
  exists c, In c field /\ In c [dquote; comma; LF; CR].

(** Fields joined with commas. *)
Fixpoint joinFields (fields : list str) : str :=
  match fields with
  | [] => []
  | [f] => f
  | f :: rest => f ++ [comma] ++ joinFields rest
  end.

(** The text of one record as the writer lays it out. *)
Definition encodedLine (record : list str) : str :=
  joinFields (map encodeCSVField record) ++ [LF].

(** The inside-quotes flag when the scan of [line] reaches its end. *)
Definition endsInsideQuotes (line : str) : bool :=
  snd (scanLine line [] [] false).

(** A reader over the given raw lines, as [newCSVReader] sets it up. *)
Definition readerOver (lines : list str) (tok : str) : csvReader :=
  {| scanner := {| pending := lines; maxTokenSize := maxScanTokenSize;
                   token := tok; scanErr := None |} |}.

(** What [csvReader.Read] makes of one raw line. *)
Definition decodeRaw (raw : str) : result (list str) :=
  if (maxScanTokenSize <=? Z.of_nat (length raw))%Z then Err bufio_ErrTooLong
  else parseCSVLine (dropCR (dropCR raw)).

(** The reader after its scanner gave up on a line that is too long. *)
Definition stoppedReader : csvReader :=
  {| scanner := {| pending := []; maxTokenSize := maxScanTokenSize;
                   token := []; scanErr := Some bufio_ErrTooLong |} |}.

Definition unterminated : error := errors_New "unterminated quoted field".

(** The outcome of an apply loop that ended at the end of the input. *)
Definition finished {W : Type} (w : W) : Outcome W :=
  {| calls := []; after := w; failure := None |}.

(** The outcome of an apply that stopped on [err] before any call. *)
Definition stopped {W : Type} (w : W) (err : error) : Outcome W :=
  {| calls := []; after := w; failure := Some err |}.

(** The sidecar text of a table: the header line, then one line per row. *)
Definition tableFile (header : list str) (rows : list (list str)) : str :=
  encodedLine header ++ concat (map encodedLine rows).

(** A (filename, title) row laid out filename first, and title first. *)
Definition filenameFirst (row : str * str) : list str := [fst row; snd row].
Definition titleFirst (row : str * str) : list str := [snd row; fst row].

(** A row can be written and read back: no line feed in its fields, and a
    line that fits the scanner's buffer. *)
Definition readableRow (row : str * str) : Prop :=
  ~ In LF (fst row) /\ ~ In LF (snd row)
  /\ (Z.of_nat (length (encodeCSVField (fst row)) + 1
                + length (encodeCSVField (snd row))) < maxScanTokenSize)%Z.

(** The caption cannot be taken from the EXIF directory: the tag lookup
    fails or finds nothing, the first entry's value cannot be decoded, or
    the value is an empty list or of a type that [readTitle] does not
    handle. *)
Definition captionAbsent {env : JpegEnv} (rootIfd : Ifd) : Prop :=
  match ifd_FindTagWithName rootIfd (lit "ImageDescription") with
  | Err _ => True
  | Ok [] => True
  | Ok (first :: _) =>
      match ite_Value first with
      | Err _ => True
      | Ok (V_strings []) => True
      | Ok (V_byteSlices []) => True
      | Ok V_other => True
      | Ok _ => False
      end
  end.

(** The directory entries that get a row: regular files with a JPEG
    extension whose name is not the sidecar's. *)
Definition qualifies {rt : GoRuntime} (entry : DirEntry) : bool :=
  negb (IsDir entry) && Type_IsRegular entry
  && isJPEG (Name entry)
  && negb (strings_EqualFold (Name entry) csvFilename).

(** The rows for the given entries and their captions. *)
Definition scanRows (entries : list DirEntry) (titles : list str) : list (list str) :=
  map (fun et => [Name (fst et); snd et]) (combine entries titles).

(** Two runs of apply that made the same calls, left the same files, and
    both failed or both succeeded. *)
Definition sameRun {W : Type} (a b : Outcome W) : Prop :=
  calls a = calls b /\ after a = after b
  /\ (failure a = None <-> failure b = None).

(** The encoded fields of [pre], each followed by a comma. *)
Definition fieldsPrefix (pre : list str) : str :=
  concat (map (fun g => encodeCSVField g ++ [comma]) pre).

(** ** Further notions used to state properties *)

(** [n] calls of [csvReader.Read] in a row: their results, in order. *)
Fixpoint readMany (n : nat) (r : csvReader) : list (result (list str)) :=
  match n with
  | O => []
  | S n' => let (r', res) := csvReader_Read r in res :: readMany n' r'
  end.

(** [csvWriter.Write] for each record in turn, up to the first error, as
    [scanDirectory] writes its rows. *)
Fixpoint writeRecords (w : csvWriter) (records : list (list str))
  : csvWriter * option error :=
  match records with
  | [] => (w, None)
  | record :: records' =>
      match csvWriter_Write w record with
      | (w', Some err) => (w', Some err)
      | (w', None) => writeRecords w' records'
      end
  end.

(** The number of double quotes, and of commas, in a line. *)
Definition countQuotes (line : str) : nat := count_occ ascii_dec line dquote.
Definition countCommas (line : str) : nat := count_occ ascii_dec line comma.

(** A record that [csvWriter.Write] and [csvReader.Read] carry over: it has
    a field, no field holds a line feed, and its line fits the scanner's
    buffer. *)
Definition readableRecord (record : list str) : Prop :=
  record <> []
  /\ (forall f, In f record -> ~ In LF f)
  /\ (Z.of_nat (length (joinFields (map encodeCSVField record)))
      < maxScanTokenSize)%Z.

(** The first outcome, followed by what [next] does from its files when it
    did not fail. *)
Definition andThen {W : Type} (first : Outcome W) (next : W -> Outcome W)
  : Outcome W :=
  match failure first with
  | Some _ => first
  | None =>
      let second := next (after first) in
      {| calls := calls first ++ calls second;
         after := after second;
         failure := failure second |}
  end.

(** The exit of the process: usage text and status 2, [log.Fatal] and
    status 1, or a plain return from [main]. *)
Inductive Exit (W : Type) : Type :=
| ExitUsage
| ExitFatal (w : W) (err : error)
| ExitOk (w : W).
Arguments ExitUsage {W}.
Arguments ExitFatal {W} w err.
Arguments ExitOk {W} w.

Definition exitStatus {W : Type} (e : Exit W) : Z :=
  match e with
  | ExitUsage => 2
  | ExitFatal _ _ => 1
  | ExitOk _ => 0
  end.

Section Drivers.
Context {rt : GoRuntime} {env : JpegEnv}.

(** [main], from the parsed flags and the first positional argument
    ([flag.Arg(0)], empty when there is none). *)
Definition main (scanLong scanShort applyLong applyShort : bool) (arg0 : str)
    (w : World) : Exit World :=
  let doScan := scanLong || scanShort in
  let doApply := applyLong || applyShort in
  if Bool.eqb doScan doApply then ExitUsage
  else
    let dir := arg0 in
    if str_eqb dir [] then ExitUsage
    else
      let (w', err) :=
        if doScan
        then (scanned (scanDirectory w dir), scanFailure (scanDirectory w dir))
        else (after (applyTitlesFromCSV w dir),
              failure (applyTitlesFromCSV w dir)) in
      match err with
      | Some e => ExitFatal w' e
      | None => ExitOk w'
      end.

(** The files after the given [upsertTitle] calls, made in order. *)
Definition replay (w : World) (cs : list (str * str)) : World :=
  fold_left (fun w' c => fst (upsertTitle w' (fst c) (snd c))) cs w.

(** Every call of the list, made in order from [w], returns no error. *)
Fixpoint allSucceed (w : World) (cs : list (str * str)) : Prop :=
  match cs with
  | [] => True
  | c :: cs' =>
      snd (upsertTitle w (fst c) (snd c)) = None
      /\ allSucceed (fst (upsertTitle w (fst c) (snd c))) cs'
  end.

(** The body of the apply loop run on decoded records, one after the other,
    without a reader. *)
Fixpoint applyRecords (dir : str) (filenameIdx titleIdx : Z)
    (records : list (list str)) (w : World) : Outcome World :=
  match records with
  | [] => finished w
  | record :: records' =>
      if (filenameIdx >=? Z.of_nat (length record))%Z
      then applyRecords dir filenameIdx titleIdx records' w
      else
        let filename :=
          strings_TrimSpace (nth (Z.to_nat filenameIdx) record []) in
        if str_eqb filename []
        then applyRecords dir filenameIdx titleIdx records' w
        else
          let title :=
            if (titleIdx <? Z.of_nat (length record))%Z
            then nth (Z.to_nat titleIdx) record []
            else [] in
          let path :=
            if negb (filepath_IsAbs filename)
            then filepath_Join dir filename
            else filename in
          match upsertTitle w path title with
          | (w', Some err) =>
              {| calls := [(path, title)]; after := w';
                 failure := Some (Errorf_s_w "apply title for" filename err) |}
          | (w', None) =>
              logCall (path, title)
                (applyRecords dir filenameIdx titleIdx records' w')
          end
  end.

End Drivers.

(** A writer that has passed nothing on as long as what it was handed fits
    the buffer. *)
Definition unflushed (b : bufio_Writer) : Prop :=
  werr b = None -> (length (accepted b) <= bufSize)%nat -> sent b = [].

(** A device that takes every chunk offered to it. *)
Definition reliable (io : io_Writer) : Prop :=
  forall taken p : str, write_fault io taken p = None.

(** A device with room for [n] bytes: a write that goes beyond takes what
    fits and fails. *)
Definition fullAfter (n : nat) : io_Writer :=
  {| isStringWriter := true;
     write_fault := fun taken p =>
       if (length taken + length p <=? n)%nat then None
       else Some (n - length taken, os_error 28) |}.

(** ** Strings: basic facts *)

Lemma str_eqb_eq (a b : str) : str_eqb a b = true <-> a = b.
Proof.
  revert b; induction a as [|x a IH]; intros [|y b]; simpl;
    try (split; [discriminate | discriminate]); try tauto.
  rewrite andb_true_iff, Ascii.eqb_eq, IH.
  split; [intros [-> ->]; reflexivity | intros H; inversion H; auto].
Qed.

Lemma str_eqb_refl (a : str) : str_eqb a a = true.
Proof. apply str_eqb_eq; reflexivity. Qed.

Lemma ContainsAny_spec (s chars : str) :
  strings_ContainsAny s chars = true <-> exists c, In c s /\ In c chars.
Proof.
  unfold strings_ContainsAny. rewrite existsb_exists.
  split; intros [c [Hc H]]; exists c; split; auto.
  - apply existsb_exists in H. destruct H as [d [Hd E]].
    apply Ascii.eqb_eq in E. subst; assumption.
  - apply existsb_exists. exists c. split; [assumption | apply Ascii.eqb_refl].
Qed.

Lemma ContainsAny_needsQuoting (field : str) :
  strings_ContainsAny field [dquote; comma; LF; CR] = true <-> needsQuoting field.
Proof. apply ContainsAny_spec. Qed.

Lemma replaceFrom_dquote (new s : str) :
  replaceFrom [dquote] new s 0 =
  flat_map (fun c => if Ascii.eqb c dquote then new else [c]) s.
Proof.
  induction s as [|c s IH]; [reflexivity|].
  cbn [replaceFrom hasPrefix flat_map length Nat.sub].
  rewrite (Ascii.eqb_sym dquote c), andb_true_r, IH.
  destruct (Ascii.eqb c dquote); reflexivity.
Qed.

Lemma ReplaceAll_doubleQuotes (field : str) :
  strings_ReplaceAll field [dquote] [dquote; dquote] = doubleQuotes field.
Proof. apply replaceFrom_dquote. Qed.

Lemma encodeCSVField_plain (field : str) :
  ~ needsQuoting field -> encodeCSVField field = field.
Proof.
  intros H. unfold encodeCSVField.
  destruct (strings_ContainsAny field [dquote; comma; LF; CR]) eqn:E; simpl.
  - exfalso. apply H, ContainsAny_needsQuoting, E.
  - reflexivity.
Qed.

Lemma encodeCSVField_quoted (field : str) :
  needsQuoting field -> encodeCSVField field = quotedForm field.
Proof.
  intros H. unfold encodeCSVField.
  apply ContainsAny_needsQuoting in H. rewrite H. simpl.
  rewrite ReplaceAll_doubleQuotes. reflexivity.
Qed.

Lemma needsQuoting_dec (field : str) : {needsQuoting field} + {~ needsQuoting field}.
Proof.
  destruct (strings_ContainsAny field [dquote; comma; LF; CR]) eqn:E.
  - left. apply ContainsAny_needsQuoting, E.
  - right. intros H. apply ContainsAny_needsQuoting in H. congruence.
Qed.

Lemma doubleQuotes_length (field : str) :
  (length field <= length (doubleQuotes field))%nat.
Proof.
  induction field as [|c s IH]; simpl; [lia|].
  destruct (Ascii.eqb c dquote); simpl; lia.
Qed.

Lemma quotedForm_neq (field : str) : quotedForm field <> field.
Proof.
  intros E. apply (f_equal (@length ascii)) in E.
  unfold quotedForm in E. simpl in E. rewrite length_app in E. simpl in E.
  pose proof (doubleQuotes_length field). lia.
Qed.

(** ** The buffered writer *)

Lemma bufSize_pos : (0 < bufSize)%nat.
Proof. unfold bufSize. apply Nat.lt_0_succ. Qed.

Lemma firstn_min_length {A : Type} (n : nat) (l : list A) :
  firstn (Nat.min n (length l)) l = firstn n l.
Proof.
  destruct (Nat.le_ge_cases n (length l)) as [H|H].
  - rewrite Nat.min_l by assumption. reflexivity.
  - rewrite Nat.min_r by assumption.
    rewrite firstn_all, firstn_all2 by assumption. reflexivity.
Qed.

Lemma io_Write_spec (w : io_Writer) (taken p taken' : str) (n : nat)
    (err : option error) :
  io_Write w taken p = (taken', n, err) ->
  taken' = taken ++ firstn n p
  /\ (n <= length p)%nat
  /\ (err = None -> n = length p).
Proof.
  unfold io_Write.
  destruct (write_fault w taken p) as [[k e]|]; intros H; inversion H; subst.
  - rewrite firstn_min_length.
    split; [reflexivity|]. split; [apply Nat.le_min_r | discriminate].
  - rewrite firstn_all. auto.
Qed.

Lemma bufio_Flush_spec (b b' : bufio_Writer) (r : option error) :
  bufio_Flush b = (b', r) ->
  wr b' = wr b
  /\ accepted b' = accepted b
  /\ werr b' = r
  /\ (werr b = None -> r = None -> buf b' = [] /\ sent b' = accepted b).
Proof.
  unfold bufio_Flush. destruct (werr b) as [e|] eqn:E.
  - intros H; inversion H; subst.
    split; [reflexivity|]. split; [reflexivity|]. split; [assumption|].
    congruence.
  - destruct (bufio_Buffered b =? 0)%nat eqn:Z.
    + intros H; inversion H; subst. apply Nat.eqb_eq in Z.
      apply length_zero_iff_nil in Z.
      split; [reflexivity|]. split; [reflexivity|]. split; [assumption|].
      intros _ _. split; [exact Z|].
      unfold accepted. rewrite Z, app_nil_r. reflexivity.
    + destruct (io_Write (wr b) (sent b) (buf b)) as [[sent' n] [e|]] eqn:W;
        apply io_Write_spec in W; destruct W as [W1 [W2 W3]];
        intros H; inversion H; subst; unfold accepted; cbn [wr sent buf werr].
      * split; [reflexivity|]. split; [|split; [reflexivity | discriminate]].
        rewrite <- app_assoc, firstn_skipn. reflexivity.
      * rewrite (W3 eq_refl), firstn_all, app_nil_r.
        split; [reflexivity|]. split; [reflexivity|]. split; [reflexivity|].
        intros _ _. split; reflexivity.
Qed.

Lemma writeStringPass_spec (b b' : bufio_Writer) (s s' : str) :
  werr b = None ->
  writeStringPass b s = (b', s') ->
  wr b' = wr b
  /\ (exists p, accepted b' = accepted b ++ p /\ s = p ++ s')
  /\ (werr b' = None -> buf b' = [])
  /\ (buf b = [] -> (bufio_Available b < length s)%nat -> werr b' = None ->
      (length s' < length s)%nat)
  /\ (length s' <= length s)%nat.
Proof.
  intros E. unfold writeStringPass.
  destruct ((bufio_Buffered b =? 0)%nat && isStringWriter (wr b)) eqn:D.
  - apply andb_true_iff in D. destruct D as [D _].
    apply Nat.eqb_eq in D. apply length_zero_iff_nil in D.
    destruct (io_Write (wr b) (sent b) s) as [[sent' n] err] eqn:W.
    apply io_Write_spec in W. destruct W as [W1 [W2 W3]].
    intros H; inversion H; subst b' s'. cbn [wr sent buf werr].
    split; [reflexivity|]. split; [|split; [|split]].
    + exists (firstn n s). unfold accepted. cbn [sent buf].
      rewrite D, !app_nil_r, firstn_skipn. auto.
    + intros _. exact D.
    + intros _ L Hn. rewrite (W3 Hn), skipn_all. simpl. lia.
    + rewrite length_skipn. lia.
  - set (n := Nat.min (bufio_Available b) (length s)).
    destruct (bufio_Flush {| wr := wr b; sent := sent b;
                             buf := buf b ++ firstn n s; werr := werr b |})
      as [b2 r] eqn:F.
    apply bufio_Flush_spec in F. cbn [wr sent buf werr] in F.
    destruct F as [F1 [F2 [F3 F4]]].
    cbn [fst]. intros H; inversion H; subst b' s'.
    split; [exact F1|]. split; [|split; [|split]].
    + exists (firstn n s). rewrite F2. unfold accepted. cbn [sent buf].
      rewrite app_assoc, firstn_skipn. auto.
    + intros Hn. rewrite F3 in Hn. apply (F4 E Hn).
    + intros B L _. rewrite length_skipn.
      assert (n = bufSize).
      { subst n. unfold bufio_Available in *. rewrite B in *.
        cbn [length] in *. lia. }
      pose proof bufSize_pos. unfold bufio_Available in L. rewrite B in L.
      cbn [length] in L. lia.
    + rewrite length_skipn. lia.
Qed.

Lemma writeStringLoop_failed (fuel : nat) (b : bufio_Writer) (s : str)
    (e : error) :
  werr b = Some e -> writeStringLoop fuel b s = (b, s).
Proof. intros E. destruct fuel; cbn [writeStringLoop]; rewrite E; reflexivity. Qed.

Lemma writeStringLoop_spec (fuel : nat) :
  forall (b b1 : bufio_Writer) (s s1 : str),
    writeStringLoop fuel b s = (b1, s1) ->
    wr b1 = wr b
    /\ exists p, accepted b1 = accepted b ++ p /\ s = p ++ s1.
Proof.
  assert (Same : forall (b : bufio_Writer) (s : str),
             wr b = wr b /\ exists p, accepted b = accepted b ++ p /\ s = p ++ s).
  { intros b s. split; [reflexivity|]. exists []. rewrite app_nil_r. auto. }
  induction fuel as [|fuel IH]; intros b b1 s s1 H; cbn [writeStringLoop] in H;
    destruct (werr b) as [e|] eqn:E; try (inversion H; subst; apply Same);
    destruct (bufio_Available b <? length s)%nat;
    try (inversion H; subst; apply Same).
  destruct (writeStringPass b s) as [b' s'] eqn:P.
  destruct (@writeStringPass_spec b b' s s' E P) as [P1 [[p [P2 P3]] _]].
  destruct (IH b' b1 s' s1 H) as [I1 [q [I2 I3]]].
  split; [congruence|]. exists (p ++ q).
  rewrite I2, P2, P3, I3, <- !app_assoc. auto.
Qed.

Lemma writeStringLoop_fits_from_empty (fuel : nat) :
  forall (b b1 : bufio_Writer) (s s1 : str),
    (werr b = None -> buf b = []) ->
    (length s <= fuel)%nat ->
    writeStringLoop fuel b s = (b1, s1) ->
    werr b1 = None ->
    (length s1 <= bufio_Available b1)%nat.
Proof.
  induction fuel as [|fuel IH]; intros b b1 s s1 Hb Hl H He;
    cbn [writeStringLoop] in H; destruct (werr b) as [e|] eqn:E;
    try (inversion H; subst; congruence);
    destruct (bufio_Available b <? length s)%nat eqn:C;
    try (inversion H; subst; apply Nat.ltb_ge in C; exact C).
  - apply Nat.ltb_lt in C. lia.
  - apply Nat.ltb_lt in C.
    destruct (writeStringPass b s) as [b' s'] eqn:P.
    destruct (@writeStringPass_spec b b' s s' E P) as [_ [_ [P3 [P4 _]]]].
    destruct (werr b') as [e'|] eqn:E'.
    + rewrite (@writeStringLoop_failed fuel b' s' e' E') in H.
      inversion H; subst. congruence.
    + specialize (P4 (Hb eq_refl) C eq_refl).
      apply (IH b' b1 s' s1); [intros _; apply P3; reflexivity | lia | | ];
        assumption.
Qed.

(** The loop of [WriteString] never runs out of fuel: when it ends without
    an error, the rest of the string fits the buffer. *)
Lemma writeStringLoop_fits (b b1 : bufio_Writer) (s s1 : str) :
  writeStringLoop (S (length s)) b s = (b1, s1) ->
  werr b1 = None ->
  (length s1 <= bufio_Available b1)%nat.
Proof.
  cbn [writeStringLoop]. destruct (werr b) as [e|] eqn:E.
  - intros H He. inversion H; subst. congruence.
  - destruct (bufio_Available b <? length s)%nat eqn:C.
    + destruct (writeStringPass b s) as [b' s'] eqn:P.
      destruct (@writeStringPass_spec b b' s s' E P) as [_ [_ [P3 [_ P5]]]].
      intros H He.
      apply (@writeStringLoop_fits_from_empty (length s) b' b1 s' s1);
        assumption.
    + intros H _. inversion H; subst. apply Nat.ltb_ge in C. exact C.
Qed.

Lemma bufio_WriteString_spec (b b' : bufio_Writer) (s : str) (r : option error) :
  bufio_WriteString b s = (b', r) ->
  wr b' = wr b
  /\ werr b' = r
  /\ exists p q,
       accepted b' = accepted b ++ p /\ s = p ++ q /\ (r = None -> q = []).
Proof.
  unfold bufio_WriteString.
  destruct (writeStringLoop (S (length s)) b s) as [b1 s1] eqn:L.
  pose proof (@writeStringLoop_fits b b1 s s1 L) as Fits.
  destruct (@writeStringLoop_spec _ b b1 s s1 L) as [L1 [p [L2 L3]]].
  destruct (werr b1) as [e|] eqn:E; intros H; inversion H; subst b' r.
  - split; [exact L1|]. split; [exact E|].
    exists p, s1. split; [exact L2|]. split; [exact L3 | discriminate].
  - cbn [wr werr]. split; [exact L1|]. split; [reflexivity|].
    exists (p ++ s1), []. rewrite app_nil_r.
    split; [|split; [exact L3 | reflexivity]].
    rewrite Nat.min_r by (apply Fits; reflexivity).
    rewrite firstn_all. unfold accepted in *. cbn [sent buf].
    rewrite !app_assoc. rewrite <- L2. reflexivity.
Qed.

(** A string that fits the free room of the buffer stays in the buffer: the
    device is not asked. *)
Lemma bufio_WriteString_buffered (b : bufio_Writer) (s : str) :
  werr b = None ->
  (length (buf b) + length s <= bufSize)%nat ->
  bufio_WriteString b s =
  ({| wr := wr b; sent := sent b; buf := buf b ++ s; werr := None |}, None).
Proof.
  intros E L. unfold bufio_WriteString. cbn [writeStringLoop]. rewrite E.
  assert (C : (bufio_Available b <? length s)%nat = false)
    by (apply Nat.ltb_ge; unfold bufio_Available; lia).
  rewrite C, E. rewrite Nat.min_r by (unfold bufio_Available; lia).
  rewrite firstn_all. reflexivity.
Qed.

Lemma bufio_WriteString_sticky (b : bufio_Writer) (s : str) (e : error) :
  werr b = Some e -> bufio_WriteString b s = (b, Some e).
Proof.
  intros E. unfold bufio_WriteString.
  rewrite (@writeStringLoop_failed (S (length s)) b s e E), E. reflexivity.
Qed.

(** ** The writer *)

Lemma writeString_any (w w' : csvWriter) (value : str) (r : option error) :
  csvWriter_writeString w value = (w', r) ->
  wr (writer w') = wr (writer w)
  /\ werr (writer w') = r
  /\ exists p q,
       accepted (writer w') = accepted (writer w) ++ p
       /\ value = p ++ q
       /\ (r = None -> q = []).
Proof.
  unfold csvWriter_writeString.
  destruct (bufio_WriteString (writer w) value) as [b r'] eqn:E.
  intros H; inversion H; subst. cbn [writer].
  eapply bufio_WriteString_spec; eassumption.
Qed.

Lemma writeString_ok (w w' : csvWriter) (value : str) :
  csvWriter_writeString w value = (w', None) ->
  accepted (writer w') = accepted (writer w) ++ value.
Proof.
  intros H. destruct (@writeString_any w w' value None H) as [_ [_ [p [q [A [B C]]]]]].
  rewrite (C eq_refl), app_nil_r in B. subst p. exact A.
Qed.

Lemma writeFields_ok (record : list str) :
  forall (w w' : csvWriter) (i : nat),
    writeFields w i record = (w', None) ->
    accepted (writer w') =
    accepted (writer w) ++
    (match record, i with
     | _ :: _, S _ => [comma]
     | _, _ => []
     end) ++ joinFields (map encodeCSVField record).
Proof.
  induction record as [|field rest IH]; intros w w' i H; simpl in H.
  - inversion H. simpl. rewrite app_nil_r. reflexivity.
  - destruct (if (0 <? i)%nat then csvWriter_writeString w [comma] else (w, None))
      as [w1 [e1|]] eqn:E1; [inversion H|].
    destruct (csvWriter_writeString w1 (encodeCSVField field)) as [w2 [e2|]] eqn:E2;
      [inversion H|].
    apply writeString_ok in E2. apply IH in H. rewrite H, E2.
    assert (A1 : accepted (writer w1) =
                 accepted (writer w) ++ match i with S _ => [comma] | O => [] end).
    { destruct i; simpl in E1.
      - inversion E1. rewrite app_nil_r. reflexivity.
      - apply writeString_ok in E1. exact E1. }
    rewrite A1. destruct rest as [|g rest]; simpl.
    + rewrite !app_nil_r. rewrite <- !app_assoc. reflexivity.
    + rewrite <- !app_assoc. reflexivity.
Qed.

Lemma csvWriter_Write_ok (w w' : csvWriter) (record : list str) :
  csvWriter_Write w record = (w', None) ->
  accepted (writer w') = accepted (writer w) ++ encodedLine record.
Proof.
  unfold csvWriter_Write, encodedLine.
  destruct (writeFields w 0 record) as [w1 [e|]] eqn:E; [intros H; inversion H|].
  intros H. apply writeString_ok in H. apply writeFields_ok in E.
  rewrite H, E. destruct record; simpl; rewrite <- ?app_assoc; reflexivity.
Qed.

(** C5: [encodeCSVField] puts a field between double quotes, its own double
    quotes doubled, exactly when the field holds a double quote, a comma, a
    line feed or a carriage return, and leaves it as it is otherwise;
    [csvWriter.Write] joins the encoded fields with commas and ends the line
    with one line feed. *)
Theorem C5_encode_quotes_iff_special (w w' : csvWriter) (record : list str) :
  csvWriter_Write w record = (w', None) ->
  accepted (writer w') =
    accepted (writer w) ++ joinFields (map encodeCSVField record) ++ [LF]
  /\ forall field : str,
       (encodeCSVField field = quotedForm field <-> needsQuoting field)
       /\ (~ needsQuoting field -> encodeCSVField field = field).
Proof.
  intros H. split.
  - apply csvWriter_Write_ok in H. exact H.
  - intros field. split; [split|].
    + intros E. destruct (needsQuoting_dec field) as [Y|N]; [exact Y|].
      rewrite (encodeCSVField_plain N) in E. symmetry in E.
      exfalso. exact (quotedForm_neq E).
    + apply encodeCSVField_quoted.
    + apply encodeCSVField_plain.
Qed.

Lemma C5_witness :
  let w := newCSVWriter Toy.noFault in
  let record := [lit "a,b"; lit "c"] in
  accepted (writer (fst (csvWriter_Write w record))) =
    [dquote] ++ lit "a,b" ++ [dquote] ++ lit ",c" ++ [LF].
Proof.
  intros w record.
  destruct (csvWriter_Write w record) as [w' e] eqn:E.
  assert (e = None) by (vm_compute in E; inversion E; reflexivity).
  subst e.
  destruct (@C5_encode_quotes_iff_special w w' record E) as [A _].
  simpl fst. rewrite A. reflexivity.
Defined.

(** ** The line scan, one character at a time *)

Lemma scanLine_plain (c : ascii) (rest : str) fs f q :
  c <> dquote -> c <> comma ->
  scanLine (c :: rest) fs f q = scanLine rest fs (f ++ [c]) q.
Proof.
  intros Hd Hc. apply Ascii.eqb_neq in Hd, Hc.
  cbn [scanLine]. rewrite Hd, Hc. reflexivity.
Qed.

Lemma scanLine_comma_outside (rest : str) fs f :
  scanLine (comma :: rest) fs f false = scanLine rest (fs ++ [f]) [] false.
Proof. reflexivity. Qed.

Lemma scanLine_comma_inside (rest : str) fs f :
  scanLine (comma :: rest) fs f true = scanLine rest fs (f ++ [comma]) true.
Proof. reflexivity. Qed.

Lemma scanLine_open (rest : str) fs f :
  scanLine (dquote :: rest) fs f false = scanLine rest fs f true.
Proof. destruct rest; reflexivity. Qed.

Lemma scanLine_escaped (rest : str) fs f :
  scanLine (dquote :: dquote :: rest) fs f true =
  scanLine rest fs (f ++ [dquote]) true.
Proof. reflexivity. Qed.

Lemma scanLine_close (rest : str) fs f :
  hd_error rest <> Some dquote ->
  scanLine (dquote :: rest) fs f true = scanLine rest fs f false.
Proof.
  destruct rest as [|c rest]; intros H; [reflexivity|].
  cbn [scanLine]. change (Ascii.eqb dquote dquote) with true. cbv iota.
  destruct (Ascii.eqb_spec c dquote) as [->|N]; [exfalso; apply H; reflexivity|].
  reflexivity.
Qed.

(** A case split on the first character that follows the branches of the
    [switch]. *)
Lemma ascii_cases (c : ascii) :
  c = dquote \/ c = comma \/ (c <> dquote /\ c <> comma).
Proof.
  destruct (Ascii.eqb_spec c dquote); [left; assumption|].
  destruct (Ascii.eqb_spec c comma); [right; left; assumption|].
  right; right; split; assumption.
Qed.

(** The scan of a line cut in two, when the second part does not begin with
    a double quote (which could pair up with one ending the first part). *)
Lemma scanLine_app (l1 l2 : str) :
  hd_error l2 <> Some dquote ->
  forall fs f q,
    scanLine (l1 ++ l2) fs f q =
    let '(fs', f', q') := scanLine l1 fs f q in scanLine l2 fs' f' q'.
Proof.
  intros Hl2.
  assert (G : forall n l1, (length l1 <= n)%nat -> forall fs f q,
             scanLine (l1 ++ l2) fs f q =
             let '(fs', f', q') := scanLine l1 fs f q in scanLine l2 fs' f' q').
  { induction n as [|n IH]; intros [|ch rest] Hlen fs f q;
      try reflexivity; simpl in Hlen; [lia|].
    assert (IHrest : forall fs f q,
               scanLine (rest ++ l2) fs f q =
               let '(fs', f', q') := scanLine rest fs f q in scanLine l2 fs' f' q')
      by (apply IH; lia).
    destruct (ascii_cases ch) as [-> | [-> | [Hd Hc]]].
    - destruct q.
      + destruct rest as [|ch' rest'].
        * simpl app. rewrite scanLine_close by assumption. reflexivity.
        * destruct (Ascii.eqb_spec ch' dquote) as [-> | N].
          -- simpl app. rewrite !scanLine_escaped. apply IH. simpl in Hlen. lia.
          -- rewrite (@scanLine_close (ch' :: rest'))
               by (simpl; intros E; inversion E; contradiction).
             change ((dquote :: ch' :: rest') ++ l2)
               with (dquote :: (ch' :: rest') ++ l2).
             rewrite scanLine_close
               by (simpl; intros E; inversion E; contradiction).
             apply IHrest.
      + simpl app. rewrite !scanLine_open. apply IHrest.
    - simpl app. destruct q.
      + rewrite !scanLine_comma_inside. apply IHrest.
      + rewrite !scanLine_comma_outside. apply IHrest.
    - simpl app. rewrite !scanLine_plain by assumption. apply IHrest. }
  intros fs f q. apply (G (length l1)). lia.
Qed.

Lemma scanLine_plain_run (t rest : str) fs f q :
  (forall c, In c t -> c <> dquote /\ c <> comma) ->
  scanLine (t ++ rest) fs f q = scanLine rest fs (f ++ t) q.
Proof.
  revert f. induction t as [|c t IH]; intros f H; simpl app.
  - rewrite app_nil_r. reflexivity.
  - destruct (H c (or_introl eq_refl)) as [Hd Hc].
    rewrite scanLine_plain by assumption.
    rewrite IH by (intros; apply H; right; assumption).
    rewrite <- app_assoc. reflexivity.
Qed.

Lemma scanLine_doubleQuotes (t rest : str) fs f :
  scanLine (doubleQuotes t ++ rest) fs f true = scanLine rest fs (f ++ t) true.
Proof.
  revert f. induction t as [|c t IH]; intros f.
  - simpl. rewrite app_nil_r. reflexivity.
  - change (doubleQuotes (c :: t))
      with ((if Ascii.eqb c dquote then [dquote; dquote] else [c]) ++ doubleQuotes t).
    destruct (ascii_cases c) as [-> | [-> | [Hd Hc]]].
    + change (Ascii.eqb dquote dquote) with true. cbv iota. simpl app.
      rewrite scanLine_escaped, IH, <- app_assoc. reflexivity.
    + change (Ascii.eqb comma dquote) with false. cbv iota. simpl app.
      rewrite scanLine_comma_inside, IH, <- app_assoc. reflexivity.
    + apply Ascii.eqb_neq in Hd. rewrite Hd. apply Ascii.eqb_neq in Hd.
      simpl app. rewrite scanLine_plain by assumption.
      rewrite IH, <- app_assoc. reflexivity.
Qed.

Lemma not_needsQuoting_chars (t : str) :
  ~ needsQuoting t ->
  forall c, In c t -> c <> dquote /\ c <> comma /\ c <> LF /\ c <> CR.
Proof.
  intros H c Hc.
  repeat split; intros ->; apply H; eexists; (split; [eassumption | simpl; auto]).
Qed.

Lemma scanLine_encoded (t tail : str) fs f :
  hd_error tail <> Some dquote ->
  scanLine (encodeCSVField t ++ tail) fs f false = scanLine tail fs (f ++ t) false.
Proof.
  intros Htail. destruct (needsQuoting_dec t) as [Y|N].
  - rewrite (encodeCSVField_quoted Y). unfold quotedForm.
    rewrite <- !app_assoc. simpl app.
    rewrite scanLine_open, scanLine_doubleQuotes.
    apply scanLine_close. assumption.
  - rewrite (encodeCSVField_plain N). apply scanLine_plain_run.
    intros c Hc. destruct (not_needsQuoting_chars N c Hc) as [? [? _]]. auto.
Qed.

Lemma scanLine_joined (rest : list str) :
  forall (r : str) fs,
    scanLine (joinFields (map encodeCSVField (r :: rest))) fs [] false =
    (fs ++ removelast (r :: rest), last (r :: rest) [], false).
Proof.
  induction rest as [|g rest IH]; intros r fs.
  - cbn [map joinFields removelast last].
    rewrite <- (app_nil_r (encodeCSVField r)).
    rewrite scanLine_encoded by (simpl; discriminate).
    rewrite app_nil_r. reflexivity.
  - change (joinFields (map encodeCSVField (r :: g :: rest)))
      with (encodeCSVField r ++ comma :: joinFields (map encodeCSVField (g :: rest))).
    rewrite scanLine_encoded by (simpl; intros E; inversion E).
    rewrite scanLine_comma_outside, IH.
    change (removelast (r :: g :: rest)) with (r :: removelast (g :: rest)).
    change (last (r :: g :: rest) []) with (last (g :: rest) []).
    rewrite <- app_assoc. reflexivity.
Qed.

(** Parsing undoes the writer's layout of a record that has a field. *)
Lemma parseCSVLine_joined (record : list str) :
  record <> [] ->
  parseCSVLine (joinFields (map encodeCSVField record)) = Ok record.
Proof.
  destruct record as [|r rest]; [congruence | intros _].
  unfold parseCSVLine. rewrite scanLine_joined. cbv beta iota.
  rewrite app_nil_l.
  rewrite <- (@app_removelast_last _ (r :: rest) []) by discriminate.
  reflexivity.
Qed.

(** ** Physical lines and trailing carriage returns *)

Lemma physicalLines_line (l rest : str) :
  ~ In LF l -> physicalLines (l ++ LF :: rest) = l :: physicalLines rest.
Proof.
  induction l as [|c l IH]; intros H.
  - reflexivity.
  - simpl app. cbn [physicalLines].
    assert (N : c <> LF) by (intros ->; apply H; left; reflexivity).
    apply Ascii.eqb_neq in N. rewrite N.
    rewrite IH by (intros I; apply H; right; assumption). reflexivity.
Qed.

Lemma HasSuffix_snoc (l : str) (c d : ascii) :
  strings_HasSuffix (l ++ [c]) [d] = Ascii.eqb d c.
Proof.
  unfold strings_HasSuffix. rewrite rev_app_distr. simpl. apply andb_true_r.
Qed.

Lemma HasSuffix_app (a b : str) (d : ascii) :
  b <> [] -> strings_HasSuffix (a ++ b) [d] = strings_HasSuffix b [d].
Proof.
  intros H. destruct (exists_last H) as [b' [c ->]].
  rewrite app_assoc, !HasSuffix_snoc. reflexivity.
Qed.

Lemma dropCR_snoc (l : str) : dropCR (l ++ [CR]) = l.
Proof.
  unfold dropCR, strings_TrimSuffix. rewrite HasSuffix_snoc.
  change (Ascii.eqb CR CR) with true. cbv iota.
  rewrite length_app. simpl length.
  replace (length l + 1 - 1)%nat with (length l) by lia.
  rewrite firstn_app, firstn_all, Nat.sub_diag. simpl. apply app_nil_r.
Qed.

Lemma dropCR_keep (l : str) : strings_HasSuffix l [CR] = false -> dropCR l = l.
Proof. intros H. unfold dropCR, strings_TrimSuffix. rewrite H. reflexivity. Qed.

Lemma dropCR_cases (l : str) :
  (strings_HasSuffix l [CR] = false /\ dropCR l = l) \/ l = dropCR l ++ [CR].
Proof.
  destruct l as [|c l] using rev_ind.
  - left. split; reflexivity.
  - rewrite HasSuffix_snoc. destruct (Ascii.eqb_spec CR c) as [<-|N].
    + right. rewrite dropCR_snoc. reflexivity.
    + left. split; [reflexivity|]. apply dropCR_keep.
      rewrite HasSuffix_snoc. apply Ascii.eqb_neq. assumption.
Qed.

Lemma endsInsideQuotes_snoc_CR (l : str) :
  endsInsideQuotes (l ++ [CR]) = endsInsideQuotes l.
Proof.
  unfold endsInsideQuotes.
  rewrite scanLine_app by (simpl; intros E; inversion E).
  destruct (scanLine l [] [] false) as [[fs f] q]. reflexivity.
Qed.

Lemma endsInsideQuotes_dropCR (l : str) :
  endsInsideQuotes (dropCR l) = endsInsideQuotes l.
Proof.
  destruct (dropCR_cases l) as [[_ E] | E].
  - rewrite E. reflexivity.
  - rewrite E at 2. symmetry. apply endsInsideQuotes_snoc_CR.
Qed.

Lemma encodeCSVField_no_trailing_CR (t : str) :
  strings_HasSuffix (encodeCSVField t) [CR] = false.
Proof.
  destruct (needsQuoting_dec t) as [Y|N].
  - rewrite (encodeCSVField_quoted Y). unfold quotedForm.
    rewrite app_assoc, HasSuffix_snoc. reflexivity.
  - rewrite (encodeCSVField_plain N).
    destruct t as [|c t] using rev_ind; [reflexivity|].
    rewrite HasSuffix_snoc. apply Ascii.eqb_neq. intros E.
    assert (I : In c (t ++ [c])) by (apply in_or_app; right; left; reflexivity).
    destruct (not_needsQuoting_chars N c I) as [_ [_ [_ H]]]. congruence.
Qed.

Lemma joinFields_no_trailing_CR (record : list str) :
  strings_HasSuffix (joinFields (map encodeCSVField record)) [CR] = false.
Proof.
  induction record as [|f [|g rest] IH].
  - reflexivity.
  - apply encodeCSVField_no_trailing_CR.
  - change (joinFields (map encodeCSVField (f :: g :: rest)))
      with (encodeCSVField f ++ [comma] ++ joinFields (map encodeCSVField (g :: rest))).
    destruct (joinFields (map encodeCSVField (g :: rest))) as [|c J] eqn:E.
    + rewrite app_nil_r, HasSuffix_snoc. reflexivity.
    + rewrite app_assoc, HasSuffix_app by discriminate. exact IH.
Qed.

Lemma doubleQuotes_no_LF (t : str) : ~ In LF t -> ~ In LF (doubleQuotes t).
Proof.
  intros H I. unfold doubleQuotes in I. apply in_flat_map in I.
  destruct I as [x [Hx I]].
  destruct (Ascii.eqb x dquote); simpl in I.
  - destruct I as [E | [E | []]]; discriminate.
  - destruct I as [E | []]. subst x. contradiction.
Qed.

Lemma encodeCSVField_no_LF (t : str) : ~ In LF t -> ~ In LF (encodeCSVField t).
Proof.
  intros H. destruct (needsQuoting_dec t) as [Y|N].
  - rewrite (encodeCSVField_quoted Y). unfold quotedForm. simpl.
    intros [E | I]; [discriminate|].
    apply in_app_or in I. destruct I as [I | [E | []]]; [|discriminate].
    revert I. apply doubleQuotes_no_LF. assumption.
  - rewrite (encodeCSVField_plain N). assumption.
Qed.

Lemma joinFields_no_LF (record : list str) :
  (forall f, In f record -> ~ In LF f) ->
  ~ In LF (joinFields (map encodeCSVField record)).
Proof.
  induction record as [|f [|g rest] IH]; intros H.
  - simpl. tauto.
  - apply encodeCSVField_no_LF, H. left; reflexivity.
  - change (joinFields (map encodeCSVField (f :: g :: rest)))
      with (encodeCSVField f ++ comma :: joinFields (map encodeCSVField (g :: rest))).
    intros I. apply in_app_or in I. destruct I as [I | [E | I]].
    + revert I. apply encodeCSVField_no_LF, H. left; reflexivity.
    + discriminate.
    + revert I. apply IH. intros f' Hf'. apply H. right; assumption.
Qed.

(** ** The reader, one line at a time *)

Lemma newCSVReader_readerOver (input : str) :
  newCSVReader input = readerOver (physicalLines input) [].
Proof. reflexivity. Qed.

Lemma Read_eof (tok : str) :
  csvReader_Read (readerOver [] tok) = (readerOver [] [], Err io_EOF).
Proof. reflexivity. Qed.

Lemma Read_too_long (raw : str) (rest : list str) (tok : str) :
  (maxScanTokenSize <= Z.of_nat (length raw))%Z ->
  csvReader_Read (readerOver (raw :: rest) tok) =
  (stoppedReader, Err bufio_ErrTooLong).
Proof.
  intros H. apply Z.leb_le in H.
  unfold csvReader_Read, readerOver, Scanner_Scan, stoppedReader.
  cbn [scanner scanErr pending maxTokenSize]. rewrite H. reflexivity.
Qed.

Lemma Read_next (raw : str) (rest : list str) (tok : str) :
  (Z.of_nat (length raw) < maxScanTokenSize)%Z ->
  csvReader_Read (readerOver (raw :: rest) tok) =
  (readerOver rest (dropCR raw), parseCSVLine (dropCR (dropCR raw))).
Proof.
  intros H. apply Z.leb_gt in H.
  unfold csvReader_Read, readerOver, Scanner_Scan.
  cbn [scanner scanErr pending maxTokenSize]. rewrite H.
  cbn [negb Scanner_Text token].
  replace (if strings_HasSuffix (dropCR raw) [CR]
           then strings_TrimSuffix (dropCR raw) [CR] else dropCR raw)
    with (dropCR (dropCR raw)).
  - destruct (parseCSVLine (dropCR (dropCR raw))); reflexivity.
  - unfold dropCR at 1. unfold strings_TrimSuffix.
    destruct (strings_HasSuffix (dropCR raw) [CR]); reflexivity.
Qed.

Lemma Read_decodeRaw (raw : str) (rest : list str) (tok : str) :
  snd (csvReader_Read (readerOver (raw :: rest) tok)) = decodeRaw raw.
Proof.
  unfold decodeRaw.
  destruct (maxScanTokenSize <=? Z.of_nat (length raw))%Z eqn:E.
  - apply Z.leb_le in E. rewrite Read_too_long by assumption. reflexivity.
  - apply Z.leb_gt in E. rewrite Read_next by assumption. reflexivity.
Qed.

Lemma parseCSVLine_unterminated (line : str) :
  endsInsideQuotes line = true -> parseCSVLine line = Err unterminated.
Proof.
  unfold endsInsideQuotes, parseCSVLine.
  destruct (scanLine line [] [] false) as [[fs f] q]. simpl.
  intros ->. reflexivity.
Qed.

Lemma parseCSVLine_Ok_inv (line : str) (record : list str) :
  parseCSVLine line = Ok record ->
  exists fs f, scanLine line [] [] false = (fs, f, false) /\ record = fs ++ [f].
Proof.
  unfold parseCSVLine.
  destruct (scanLine line [] [] false) as [[fs f] [|]]; intros H; inversion H.
  exists fs, f. split; reflexivity.
Qed.

(** The writer's line for a record, followed by anything, reads back as that
    record, provided no field holds a line feed and the line fits the
    scanner's buffer. *)
Lemma Read_encodedLine (record : list str) (body tok : str) :
  record <> [] ->
  (forall f, In f record -> ~ In LF f) ->
  (Z.of_nat (length (joinFields (map encodeCSVField record))) < maxScanTokenSize)%Z ->
  csvReader_Read (readerOver (physicalLines (encodedLine record ++ body)) tok) =
  (readerOver (physicalLines body) (joinFields (map encodeCSVField record)),
   Ok record).
Proof.
  intros Hne Hlf Hlen. unfold encodedLine. rewrite <- app_assoc. simpl app.
  rewrite physicalLines_line by (apply joinFields_no_LF; assumption).
  rewrite Read_next by assumption.
  rewrite !(dropCR_keep _ (joinFields_no_trailing_CR record)).
  rewrite parseCSVLine_joined by assumption. reflexivity.
Qed.

(** C9: a line that decodes yields at least one field, and the empty line
    decodes to exactly one empty field; no decode returns an empty record,
    whether through [parseCSVLine] or through [csvReader.Read]. *)
Theorem C9_decoded_record_nonempty :
  parseCSVLine [] = Ok [[]]
  /\ (forall (line : str) (record : list str),
        parseCSVLine line = Ok record -> (1 <= length record)%nat)
  /\ (forall (r r' : csvReader) (record : list str),
        csvReader_Read r = (r', Ok record) -> (1 <= length record)%nat).
Proof.
  assert (P : forall line record,
             parseCSVLine line = Ok record -> (1 <= length record)%nat).
  { intros line record H. apply parseCSVLine_Ok_inv in H.
    destruct H as [fs [f [_ ->]]]. rewrite length_app. simpl. lia. }
  split; [reflexivity | split; [exact P|]].
  intros r r' record. unfold csvReader_Read.
  destruct (Scanner_Scan (scanner r)) as [s ok]. destruct ok; simpl.
  - match goal with |- context [parseCSVLine ?l] =>
      destruct (parseCSVLine l) as [rec|e] eqn:E end.
    + intros H. inversion H. subst. exact (P _ _ E).
    + intros H. inversion H.
  - destruct (Scanner_Err s); intros H; inversion H.
Qed.

Lemma C9_witness :
  (1 <= length [lit "a"; lit "b,c"])%nat.
Proof.
  apply (proj1 (proj2 C9_decoded_record_nonempty)
           (lit "a," ++ [dquote] ++ lit "b,c" ++ [dquote])).
  reflexivity.
Defined.

(** C6: when the scan of a line ends inside quotes, [parseCSVLine] fails with
    the unterminated-quote error and returns no record; [csvReader.Read]
    fails likewise on a physical line that ends inside quotes, whatever the
    lines after it hold, so a quoted field is never continued on the next
    line. *)
Theorem C6_unterminated_quote_fails (line : str) :
  endsInsideQuotes line = true ->
  parseCSVLine line = Err (errors_New "unterminated quoted field")
  /\ forall rest : str,
       ~ In LF line ->
       (Z.of_nat (length line) < maxScanTokenSize)%Z ->
       snd (csvReader_Read (newCSVReader (line ++ LF :: rest))) =
       Err (errors_New "unterminated quoted field").
Proof.
  intros H. split.
  - apply parseCSVLine_unterminated. assumption.
  - intros rest Hlf Hlen.
    rewrite newCSVReader_readerOver, physicalLines_line by assumption.
    rewrite Read_next by assumption. cbn [snd].
    apply parseCSVLine_unterminated.
    rewrite !endsInsideQuotes_dropCR. assumption.
Qed.

Lemma C6_witness :
  parseCSVLine (lit "a," ++ [dquote] ++ lit "b") =
    Err (errors_New "unterminated quoted field")
  /\ snd (csvReader_Read
            (newCSVReader ((lit "a," ++ [dquote] ++ lit "b") ++ LF :: lit "c"))) =
     Err (errors_New "unterminated quoted field").
Proof.
  destruct (@C6_unterminated_quote_fails (lit "a," ++ [dquote] ++ lit "b") eq_refl)
    as [A B].
  split; [exact A|].
  apply B.
  - vm_compute. intuition discriminate.
  - vm_compute. reflexivity.
Defined.

(** ** A device that takes everything *)

Lemma bufio_Flush_reliable (b : bufio_Writer) :
  reliable (wr b) -> werr b = None -> snd (bufio_Flush b) = None.
Proof.
  intros R E. unfold bufio_Flush. rewrite E.
  destruct (bufio_Buffered b =? 0)%nat; [reflexivity|].
  unfold io_Write. rewrite R. reflexivity.
Qed.

Lemma writeStringPass_reliable (b : bufio_Writer) (s : str) :
  reliable (wr b) -> werr b = None ->
  werr (fst (writeStringPass b s)) = None.
Proof.
  intros R E. unfold writeStringPass.
  destruct ((bufio_Buffered b =? 0)%nat && isStringWriter (wr b)).
  - unfold io_Write. rewrite R. reflexivity.
  - cbn [fst].
    match goal with |- werr (fst (bufio_Flush ?b1)) = None =>
      pose proof (@bufio_Flush_reliable b1 R E) as F;
      destruct (bufio_Flush b1) as [b2 r] eqn:G
    end.
    apply bufio_Flush_spec in G. cbn [fst snd] in *.
    destruct G as [_ [_ [G _]]]. congruence.
Qed.

Lemma writeStringLoop_reliable (fuel : nat) :
  forall (b : bufio_Writer) (s : str),
    reliable (wr b) -> werr b = None ->
    werr (fst (writeStringLoop fuel b s)) = None.
Proof.
  induction fuel as [|fuel IH]; intros b s R E; cbn [writeStringLoop];
    rewrite E; destruct (bufio_Available b <? length s)%nat; try exact E.
  pose proof (@writeStringPass_reliable b s R E) as Q.
  destruct (writeStringPass b s) as [b' s'] eqn:P.
  destruct (@writeStringPass_spec b b' s s' E P) as [P1 _].
  cbn [fst] in Q. apply IH; [rewrite P1; exact R | exact Q].
Qed.

Lemma bufio_WriteString_reliable (b : bufio_Writer) (s : str) :
  reliable (wr b) -> werr b = None -> snd (bufio_WriteString b s) = None.
Proof.
  intros R E. unfold bufio_WriteString.
  pose proof (@writeStringLoop_reliable (S (length s)) b s R E) as Q.
  destruct (writeStringLoop (S (length s)) b s) as [b1 s1].
  cbn [fst] in Q. rewrite Q. reflexivity.
Qed.

Lemma writeString_reliable (w : csvWriter) (value : str) :
  reliable (wr (writer w)) -> werr (writer w) = None ->
  exists w',
    csvWriter_writeString w value = (w', None)
    /\ reliable (wr (writer w')) /\ werr (writer w') = None.
Proof.
  intros R E.
  destruct (csvWriter_writeString w value) as [w' r] eqn:H.
  destruct (@writeString_any w w' value r H) as [A [B _]].
  assert (Hr : r = None).
  { unfold csvWriter_writeString in H.
    pose proof (@bufio_WriteString_reliable (writer w) value R E) as Q.
    destruct (bufio_WriteString (writer w) value) as [b r'].
    inversion H; subst. exact Q. }
  rewrite Hr in B |- *. exists w'.
  split; [reflexivity|]. split; [rewrite A; exact R | exact B].
Qed.

Lemma writeFields_reliable (record : list str) :
  forall (w : csvWriter) (i : nat),
    reliable (wr (writer w)) -> werr (writer w) = None ->
    exists w',
      writeFields w i record = (w', None)
      /\ reliable (wr (writer w')) /\ werr (writer w') = None.
Proof.
  induction record as [|field rest IH]; intros w i R E; cbn [writeFields].
  - exists w. split; [reflexivity|]. split; assumption.
  - assert (S1 : exists w1,
               (if (0 <? i)%nat then csvWriter_writeString w [comma]
                else (w, None)) = (w1, None)
               /\ reliable (wr (writer w1)) /\ werr (writer w1) = None).
    { destruct (0 <? i)%nat; [apply writeString_reliable; assumption|].
      exists w. split; [reflexivity|]. split; assumption. }
    destruct S1 as [w1 [E1 [R1 N1]]]. rewrite E1.
    destruct (@writeString_reliable w1 (encodeCSVField field) R1 N1)
      as [w2 [E2 [R2 N2]]].
    rewrite E2. apply IH; assumption.
Qed.

Lemma csvWriter_Write_reliable (w : csvWriter) (record : list str) :
  reliable (wr (writer w)) -> werr (writer w) = None ->
  exists w',
    csvWriter_Write w record = (w', None)
    /\ reliable (wr (writer w')) /\ werr (writer w') = None.
Proof.
  intros R E. unfold csvWriter_Write.
  destruct (@writeFields_reliable record w 0 R E) as [w1 [E1 [R1 N1]]].
  rewrite E1. apply writeString_reliable; assumption.
Qed.

Lemma noFault_reliable : reliable Toy.noFault.
Proof. intros taken p. reflexivity. Qed.

(** ** Writing one field and reading it back *)

Lemma Write_single_noFault (t : str) :
  exists w',
    csvWriter_Write (newCSVWriter Toy.noFault) [t] = (w', None)
    /\ accepted (writer w') = encodeCSVField t ++ [LF].
Proof.
  destruct (@csvWriter_Write_reliable (newCSVWriter Toy.noFault) [t]
              noFault_reliable eq_refl) as [w' [W _]].
  exists w'. split; [exact W|].
  apply csvWriter_Write_ok in W. exact W.
Qed.

Lemma repeat_a_plain (n : nat) : ~ needsQuoting (repeat "a"%char n).
Proof.
  intros [c [Hc Hs]]. apply repeat_spec in Hc. subst c.
  simpl in Hs. intuition discriminate.
Qed.

Lemma long_line_too_long (n : nat) :
  (maxScanTokenSize <= Z.of_nat n)%Z ->
  snd (csvReader_Read
         (newCSVReader (encodeCSVField (repeat "a"%char n) ++ [LF]))) =
  Err bufio_ErrTooLong.
Proof.
  intros H. rewrite (encodeCSVField_plain (@repeat_a_plain n)).
  rewrite newCSVReader_readerOver, physicalLines_line.
  - rewrite Read_too_long; [reflexivity|]. rewrite repeat_length. assumption.
  - intros I. apply repeat_spec in I. discriminate.
Qed.

(** C1 (as amended): a single field that holds no line feed, and whose
    encoding fits the scanner's buffer, is read back unchanged from the line
    that [csvWriter.Write] produced for it; commas, double quotes and
    carriage returns in the field are all allowed. *)
Theorem C1_roundtrip_single_field (io : io_Writer) (t : str) (w' : csvWriter) :
  csvWriter_Write (newCSVWriter io) [t] = (w', None) ->
  ~ In LF t ->
  (Z.of_nat (length (encodeCSVField t)) < maxScanTokenSize)%Z ->
  snd (csvReader_Read (newCSVReader (accepted (writer w')))) = Ok [t].
Proof.
  intros Hw Hlf Hlen. apply csvWriter_Write_ok in Hw.
  change (accepted (writer (newCSVWriter io))) with (@nil ascii) in Hw.
  rewrite Hw, app_nil_l, <- (app_nil_r (encodedLine [t])).
  rewrite newCSVReader_readerOver, Read_encodedLine.
  - reflexivity.
  - discriminate.
  - intros f [<- | []]. assumption.
  - exact Hlen.
Qed.

Lemma C1_witness :
  let t := lit "x, " ++ [dquote] ++ lit "y" ++ [dquote; CR] in
  snd (csvReader_Read
         (newCSVReader
            (accepted (writer (fst (csvWriter_Write (newCSVWriter Toy.noFault) [t]))))))
  = Ok [t].
Proof.
  intros t.
  apply (@C1_roundtrip_single_field Toy.noFault t
           (fst (csvWriter_Write (newCSVWriter Toy.noFault) [t]))).
  - vm_compute. reflexivity.
  - vm_compute. intuition discriminate.
  - vm_compute. reflexivity.
Defined.

(** C1 as stated fails: a field with a line feed is written over two physical
    lines and the first one ends inside quotes; a field of [maxScanTokenSize]
    bytes makes a line that the scanner refuses. *)
Lemma C1_counterexample :
  (let t := lit "a" ++ [LF] ++ lit "b" in
   exists w',
     csvWriter_Write (newCSVWriter Toy.noFault) [t] = (w', None)
     /\ snd (csvReader_Read (newCSVReader (accepted (writer w')))) =
        Err (errors_New "unterminated quoted field"))
  /\ (let t := repeat "a"%char (Z.to_nat maxScanTokenSize) in
      exists w',
        csvWriter_Write (newCSVWriter Toy.noFault) [t] = (w', None)
        /\ snd (csvReader_Read (newCSVReader (accepted (writer w')))) =
           Err bufio_ErrTooLong).
Proof.
  split.
  - intros t. destruct (Write_single_noFault t) as [w' [W A]].
    exists w'. split; [exact W|]. rewrite A. reflexivity.
  - intros t. destruct (Write_single_noFault t) as [w' [W A]].
    exists w'. split; [exact W|]. rewrite A. apply long_line_too_long.
    rewrite Z2Nat.id; unfold maxScanTokenSize; lia.
Qed.

(** ** The apply loop *)

Lemma Read_shrinks (r r' : csvReader) (record : list str) :
  csvReader_Read r = (r', Ok record) ->
  (length (pending (scanner r')) < length (pending (scanner r)))%nat.
Proof.
  unfold csvReader_Read, Scanner_Scan.
  destruct (scanErr (scanner r)) as [e|]; [simpl; intros H; inversion H|].
  destruct (pending (scanner r)) as [|raw rest]; [simpl; intros H; inversion H|].
  destruct (maxTokenSize (scanner r) <=? Z.of_nat (length raw))%Z;
    [simpl; intros H; inversion H|].
  cbn [negb Scanner_Text token].
  match goal with |- context [parseCSVLine ?l] => destruct (parseCSVLine l) end;
    intros H; inversion H; simpl; lia.
Qed.

Section ApplyLoop.
Context {rt : GoRuntime} {env : JpegEnv}.
Variables (dir : str) (filenameIdx titleIdx : Z).

Lemma applyRowsFuel_enough (n : nat) :
  forall (fuel1 fuel2 : nat) (reader : csvReader) (w : World),
    (length (pending (scanner reader)) <= n)%nat ->
    (n < fuel1)%nat -> (n < fuel2)%nat ->
    applyRowsFuel fuel1 dir filenameIdx titleIdx reader w =
    applyRowsFuel fuel2 dir filenameIdx titleIdx reader w.
Proof.
  induction n as [|n IH]; intros [|f1] [|f2] reader w Hlen H1 H2; try lia;
    cbn [applyRowsFuel];
    destruct (csvReader_Read reader) as [r' [record|e]] eqn:E; try reflexivity;
    pose proof (Read_shrinks _ E) as Hs; try lia.
  assert (R : forall w', applyRowsFuel f1 dir filenameIdx titleIdx r' w' =
                         applyRowsFuel f2 dir filenameIdx titleIdx r' w')
    by (intros w'; apply IH; lia).
  destruct (filenameIdx >=? Z.of_nat (length record))%Z; [apply R|].
  cbv zeta.
  destruct (str_eqb (strings_TrimSpace (nth (Z.to_nat filenameIdx) record [])) []);
    [apply R|].
  match goal with |- context [upsertTitle ?a ?b ?c] =>
    destruct (upsertTitle a b c) as [w' [err|]] end; [reflexivity|].
  rewrite R. reflexivity.
Qed.

Lemma applyRowsFuel_applyRows (fuel : nat) (reader : csvReader) (w : World) :
  (length (pending (scanner reader)) < fuel)%nat ->
  applyRowsFuel fuel dir filenameIdx titleIdx reader w =
  applyRows dir filenameIdx titleIdx reader w.
Proof.
  intros H. unfold applyRows.
  apply (@applyRowsFuel_enough (length (pending (scanner reader)))); lia.
Qed.

(** The loop satisfies the equation of the Go [for] statement: the fuel of
    [applyRowsFuel] never runs out. *)
Lemma applyRows_unfold (reader : csvReader) (w : World) :
  applyRows dir filenameIdx titleIdx reader w =
  match csvReader_Read reader with
  | (_, Err io_EOF) => finished w
  | (_, Err err) => stopped w (Errorf_w "read record" err)
  | (reader', Ok record) =>
      if (filenameIdx >=? Z.of_nat (length record))%Z
      then applyRows dir filenameIdx titleIdx reader' w
      else
        let filename :=
          strings_TrimSpace (nth (Z.to_nat filenameIdx) record []) in
        if str_eqb filename []
        then applyRows dir filenameIdx titleIdx reader' w
        else
          let title :=
            if (titleIdx <? Z.of_nat (length record))%Z
            then nth (Z.to_nat titleIdx) record []
            else [] in
          let path :=
            if negb (filepath_IsAbs filename)
            then filepath_Join dir filename
            else filename in
          match upsertTitle w path title with
          | (w', Some err) =>
              {| calls := [(path, title)]; after := w';
                 failure := Some (Errorf_s_w "apply title for" filename err) |}
          | (w', None) =>
              logCall (path, title)
                (applyRows dir filenameIdx titleIdx reader' w')
          end
  end.
Proof.
  unfold applyRows at 1. cbn [applyRowsFuel].
  destruct (csvReader_Read reader) as [r' [record|e]] eqn:E; [|reflexivity].
  pose proof (Read_shrinks _ E) as Hs.
  rewrite !applyRowsFuel_applyRows by lia.
  destruct (filenameIdx >=? Z.of_nat (length record))%Z; [reflexivity|].
  cbv zeta.
  destruct (str_eqb (strings_TrimSpace (nth (Z.to_nat filenameIdx) record [])) []);
    [reflexivity|].
  match goal with |- context [upsertTitle ?a ?b ?c] =>
    destruct (upsertTitle a b c) as [w' [err|]] end; [reflexivity|].
  rewrite applyRowsFuel_applyRows by lia. reflexivity.
Qed.

Lemma applyRows_eof (reader reader' : csvReader) (w : World) :
  csvReader_Read reader = (reader', Err io_EOF) ->
  applyRows dir filenameIdx titleIdx reader w = finished w.
Proof. intros H. rewrite applyRows_unfold, H. reflexivity. Qed.

Lemma applyRows_short (reader reader' : csvReader) (record : list str) (w : World) :
  csvReader_Read reader = (reader', Ok record) ->
  (Z.of_nat (length record) <= filenameIdx)%Z ->
  applyRows dir filenameIdx titleIdx reader w =
  applyRows dir filenameIdx titleIdx reader' w.
Proof.
  intros H Hlen. rewrite applyRows_unfold, H.
  apply Z.geb_le in Hlen. rewrite Hlen. reflexivity.
Qed.

Lemma applyRows_blank (reader reader' : csvReader) (record : list str) (w : World) :
  csvReader_Read reader = (reader', Ok record) ->
  strings_TrimSpace (nth (Z.to_nat filenameIdx) record []) = [] ->
  applyRows dir filenameIdx titleIdx reader w =
  applyRows dir filenameIdx titleIdx reader' w.
Proof.
  intros H Hblank. rewrite applyRows_unfold, H.
  destruct (filenameIdx >=? Z.of_nat (length record))%Z; [reflexivity|].
  cbv zeta. rewrite Hblank. reflexivity.
Qed.

Lemma applyRows_processed (reader reader' : csvReader) (record : list str)
    (w : World) :
  csvReader_Read reader = (reader', Ok record) ->
  (filenameIdx < Z.of_nat (length record))%Z ->
  strings_TrimSpace (nth (Z.to_nat filenameIdx) record []) <> [] ->
  let filename := strings_TrimSpace (nth (Z.to_nat filenameIdx) record []) in
  let title :=
    if (titleIdx <? Z.of_nat (length record))%Z
    then nth (Z.to_nat titleIdx) record [] else [] in
  let path :=
    if filepath_IsAbs filename then filename else filepath_Join dir filename in
  applyRows dir filenameIdx titleIdx reader w =
  match upsertTitle w path title with
  | (w', Some err) =>
      {| calls := [(path, title)]; after := w';
         failure := Some (Errorf_s_w "apply title for" filename err) |}
  | (w', None) =>
      logCall (path, title) (applyRows dir filenameIdx titleIdx reader' w')
  end.
Proof.
  intros H Hlen Hname filename title path. rewrite applyRows_unfold, H.
  assert (G : (filenameIdx >=? Z.of_nat (length record))%Z = false).
  { destruct (filenameIdx >=? Z.of_nat (length record))%Z eqn:E; [|reflexivity].
    apply Z.geb_le in E. lia. }
  rewrite G. cbv zeta.
  assert (N : str_eqb (strings_TrimSpace (nth (Z.to_nat filenameIdx) record [])) []
              = false).
  { destruct (str_eqb _ _) eqn:E; [|reflexivity].
    apply str_eqb_eq in E. contradiction. }
  rewrite N. subst path filename.
  destruct (filepath_IsAbs (strings_TrimSpace (nth (Z.to_nat filenameIdx) record [])));
    reflexivity.
Qed.

(** [applyTitlesFromCSV] runs the loop on the lines after the header, with
    the cleaned directory and the header's two column positions. *)
Lemma applyTitlesFromCSV_rows (w : World) (file : str)
    (reader' : csvReader) (header : list str) :
  os_Open w (filepath_Join (filepath_Clean dir) csvFilename) = Ok file ->
  csvReader_Read (newCSVReader file) = (reader', Ok header) ->
  headerIndex header (lit "filename") <> (-1)%Z ->
  headerIndex header (lit "title") <> (-1)%Z ->
  applyTitlesFromCSV w dir =
  applyRows (filepath_Clean dir)
    (headerIndex header (lit "filename")) (headerIndex header (lit "title"))
    reader' w.
Proof.
  intros Ho Hr Hf Ht. unfold applyTitlesFromCSV, applyTable. rewrite Ho, Hr.
  apply Z.eqb_neq in Hf, Ht. rewrite Hf, Ht. reflexivity.
Qed.

End ApplyLoop.

(** ** Rows of the apply loop *)

Section ApplyRowsFacts.
Context {rt : GoRuntime} {env : JpegEnv}.

(** C8: a row whose filename field is empty once trimmed is passed over:
    the loop goes on with the rest of the input exactly as if the row were
    not there, so the row causes no error and no [upsertTitle] call. *)
Theorem C8_blank_filename_skipped (dir : str) (filenameIdx titleIdx : Z)
    (reader reader' : csvReader) (record : list str) (w : World) :
  csvReader_Read reader = (reader', Ok record) ->
  strings_TrimSpace (nth (Z.to_nat filenameIdx) record []) = [] ->
  applyRows dir filenameIdx titleIdx reader w =
  applyRows dir filenameIdx titleIdx reader' w.
Proof. apply applyRows_blank. Qed.

(** C10: for a row that is processed, [upsertTitle] receives the title field
    as decoded (empty when the row has no such field), without trimming,
    and the path made from the trimmed filename field: the field itself
    when it is absolute, else joined to the directory.  An error of
    [upsertTitle] ends the loop, otherwise the loop goes on. *)
Theorem C10_title_verbatim_filename_trimmed (dir : str) (filenameIdx titleIdx : Z)
    (reader reader' : csvReader) (record : list str) (w : World) :
  csvReader_Read reader = (reader', Ok record) ->
  (filenameIdx < Z.of_nat (length record))%Z ->
  strings_TrimSpace (nth (Z.to_nat filenameIdx) record []) <> [] ->
  let filename := strings_TrimSpace (nth (Z.to_nat filenameIdx) record []) in
  let title :=
    if (titleIdx <? Z.of_nat (length record))%Z
    then nth (Z.to_nat titleIdx) record [] else [] in
  let path :=
    if filepath_IsAbs filename then filename else filepath_Join dir filename in
  applyRows dir filenameIdx titleIdx reader w =
  match upsertTitle w path title with
  | (w', Some err) =>
      {| calls := [(path, title)]; after := w';
         failure := Some (Errorf_s_w "apply title for" filename err) |}
  | (w', None) =>
      logCall (path, title) (applyRows dir filenameIdx titleIdx reader' w')
  end.
Proof. apply applyRows_processed. Qed.

(** C2 (as amended): a row with no field at the filename column is passed
    over without error and without an [upsertTitle] call, and the loop goes
    on; a row that has a filename but no field at the title column is not
    passed over: [upsertTitle] is called for it with the empty title. *)
Theorem C2_short_row (dir : str) (filenameIdx titleIdx : Z)
    (reader reader' : csvReader) (record : list str) (w : World) :
  csvReader_Read reader = (reader', Ok record) ->
  ((Z.of_nat (length record) <= filenameIdx)%Z ->
   applyRows dir filenameIdx titleIdx reader w =
   applyRows dir filenameIdx titleIdx reader' w)
  /\ ((filenameIdx < Z.of_nat (length record) <= titleIdx)%Z ->
      strings_TrimSpace (nth (Z.to_nat filenameIdx) record []) <> [] ->
      let filename := strings_TrimSpace (nth (Z.to_nat filenameIdx) record []) in
      let path :=
        if filepath_IsAbs filename then filename else filepath_Join dir filename in
      applyRows dir filenameIdx titleIdx reader w =
      match upsertTitle w path [] with
      | (w', Some err) =>
          {| calls := [(path, [])]; after := w';
             failure := Some (Errorf_s_w "apply title for" filename err) |}
      | (w', None) =>
          logCall (path, []) (applyRows dir filenameIdx titleIdx reader' w')
      end).
Proof.
  intros H. split.
  - intros Hlen. eapply applyRows_short; eassumption.
  - intros [Hf Ht] Hname filename path.
    erewrite applyRows_processed by eassumption.
    assert (E : (titleIdx <? Z.of_nat (length record))%Z = false)
      by (apply Z.ltb_ge; assumption).
    rewrite E. reflexivity.
Qed.

End ApplyRowsFacts.

Lemma C8_witness :
  let row := lit "," ++ [dquote] ++ lit "some title" ++ [dquote] in
  applyRows (lit "/d") 0 1 (readerOver [row] []) Sample.files =
  applyRows (lit "/d") 0 1 (readerOver [] row) Sample.files.
Proof.
  intros row.
  apply (@C8_blank_filename_skipped asciiRuntime toyEnv (lit "/d") 0%Z 1%Z
           (readerOver [row] []) (readerOver [] row) [[]; lit "some title"]
           Sample.files).
  - reflexivity.
  - reflexivity.
Defined.

Lemma C10_witness :
  calls (applyRows (lit "/d") 0 1
           (readerOver [lit " a.jpg ,  Dusk "; lit "/d/B.JPEG,"] []) Sample.files) =
  [(lit "/d/a.jpg", lit "  Dusk "); (lit "/d/B.JPEG", [])].
Proof.
  rewrite (@C10_title_verbatim_filename_trimmed asciiRuntime toyEnv (lit "/d") 0%Z 1%Z
             (readerOver [lit " a.jpg ,  Dusk "; lit "/d/B.JPEG,"] [])
             (readerOver [lit "/d/B.JPEG,"] (lit " a.jpg ,  Dusk "))
             [lit " a.jpg "; lit "  Dusk "] Sample.files eq_refl).
  - vm_compute. reflexivity.
  - vm_compute. reflexivity.
  - vm_compute. discriminate.
Defined.

Lemma C2_witness :
  let reader := readerOver [lit "x"; lit "a.jpg"] [] in
  let reader' := readerOver [lit "a.jpg"] (lit "x") in
  applyRows (lit "/d") 1 2 reader Sample.files =
  applyRows (lit "/d") 1 2 reader' Sample.files.
Proof.
  intros reader reader'.
  apply (proj1 (@C2_short_row asciiRuntime toyEnv (lit "/d") 1%Z 2%Z
                  reader reader' [lit "x"] Sample.files eq_refl)).
  vm_compute. discriminate.
Defined.

(** C2 as stated fails: under the header [filename,x,title] the row [a.jpg]
    has one field, fewer than the title column's index 2, and yet
    [upsertTitle] is called for it, with the empty title. *)
Lemma C2_counterexample :
  let header := [lit "filename"; lit "x"; lit "title"] in
  os_Open Sample.shortRowFiles (lit "/d/bilder.csv") =
    Ok (lit "filename,x,title" ++ [LF] ++ lit "a.jpg" ++ [LF])
  /\ decodeRaw (lit "filename,x,title") = Ok header
  /\ decodeRaw (lit "a.jpg") = Ok [lit "a.jpg"]
  /\ (Z.of_nat (length [lit "a.jpg"]) < headerIndex header (lit "title"))%Z
  /\ applyTitlesFromCSV Sample.shortRowFiles (lit "/d") =
     logCall (lit "/d/a.jpg", [])
       (finished
          (fst (Toy.writeImage Sample.shortRowFiles (lit "/d/a.jpg")
                  (Sample.image "")))).
Proof.
  repeat split.
Qed.

(** One pass of the loop on both layouts of a row (f, t) that reads back:
    the title-first line under columns (1, 0) and the filename-first line
    under columns (0, 1) leave the same filename and title to work on. *)
Ltac read_both_rows dir f t :=
  rewrite (applyRows_unfold dir 1 0), (applyRows_unfold dir 0 1);
  rewrite !Read_encodedLine;
    try discriminate;
    try (intros ? [<- | [<- | []]]; assumption);
    try (cbn [map joinFields]; rewrite !length_app; cbn [length]; lia);
  change (Z.of_nat (length [t; f])) with 2%Z;
  change (Z.of_nat (length [f; t])) with 2%Z;
  change (1 >=? 2)%Z with false; change (0 >=? 2)%Z with false;
  change (1 <? 2)%Z with true; change (0 <? 2)%Z with true;
  change (nth (Z.to_nat 1) [t; f] []) with f;
  change (nth (Z.to_nat 0) [t; f] []) with t;
  change (nth (Z.to_nat 1) [f; t] []) with t;
  change (nth (Z.to_nat 0) [f; t] []) with f;
  cbv zeta iota.

(** ** The header *)

Section Header.
Context {rt : GoRuntime} {env : JpegEnv}.

Lemma headerIndexFrom_cases (name : str) (header : list str) :
  forall k : Z,
    (headerIndexFrom k header name = (-1)%Z
     /\ forall v, In v header ->
          strings_EqualFold (strings_TrimSpace v) name = false)
    \/ (exists i : nat,
          (i < length header)%nat
          /\ headerIndexFrom k header name = (k + Z.of_nat i)%Z
          /\ strings_EqualFold (strings_TrimSpace (nth i header [])) name = true
          /\ forall j, (j < i)%nat ->
               strings_EqualFold (strings_TrimSpace (nth j header [])) name = false).
Proof.
  induction header as [|value header IH]; intros k.
  - left. split; [reflexivity | intros v []].
  - cbn [headerIndexFrom].
    destruct (strings_EqualFold (strings_TrimSpace value) name) eqn:E.
    + right. exists 0%nat. simpl. repeat split; try lia. assumption.
    + destruct (IH (k + 1)%Z) as [[A B] | [i [A [B [C D]]]]].
      * left. split; [assumption|]. intros v [<- | I]; auto.
      * right. exists (S i). simpl. repeat split; try lia; try assumption.
        intros [|j] Hj; [assumption | apply D; lia].
Qed.

Lemma headerIndex_absent (header : list str) (name : str) :
  headerIndex header name = (-1)%Z <->
  forall v, In v header -> strings_EqualFold (strings_TrimSpace v) name = false.
Proof.
  unfold headerIndex.
  destruct (headerIndexFrom_cases name header 0) as [[A B] | [i [A [B [C D]]]]].
  - tauto.
  - split; [lia|]. intros H.
    rewrite (H (nth i header [])) in C by (apply nth_In; assumption).
    discriminate.
Qed.

Lemma headerIndex_first (header : list str) (name : str) (i : nat) :
  headerIndex header name = Z.of_nat i <->
  (i < length header)%nat
  /\ strings_EqualFold (strings_TrimSpace (nth i header [])) name = true
  /\ forall j, (j < i)%nat ->
       strings_EqualFold (strings_TrimSpace (nth j header [])) name = false.
Proof.
  unfold headerIndex.
  destruct (headerIndexFrom_cases name header 0) as [[A B] | [i' [A [B [C D]]]]].
  - split; [lia|]. intros [Hi [Ht _]].
    rewrite (B (nth i header [])) in Ht by (apply nth_In; assumption).
    discriminate.
  - split.
    + intros E. assert (i' = i) by lia. subst i'. auto.
    + intros [Hi [Ht Hj]].
      destruct (Nat.lt_trichotomy i i') as [L | [-> | L]].
      * rewrite (D i L) in Ht. discriminate.
      * rewrite B. lia.
      * rewrite (Hj i' L) in C. discriminate.
Qed.

Lemma applyTable_missing_column (w : World) (dir file : str)
    (reader' : csvReader) (header : list str) :
  csvReader_Read (newCSVReader file) = (reader', Ok header) ->
  headerIndex header (lit "filename") = (-1)%Z
  \/ headerIndex header (lit "title") = (-1)%Z ->
  applyTable w dir file =
  stopped w (errors_New "csv must include filename and title columns").
Proof.
  intros H Hmiss. unfold applyTable. rewrite H.
  destruct Hmiss as [-> | ->]; [reflexivity|].
  rewrite orb_true_r. reflexivity.
Qed.

(** What the library gives on the two column names themselves. *)
Hypothesis fold_filename :
  strings_EqualFold (strings_TrimSpace (lit "filename")) (lit "filename") = true.
Hypothesis fold_title :
  strings_EqualFold (strings_TrimSpace (lit "title")) (lit "title") = true.
Hypothesis fold_title_filename :
  strings_EqualFold (strings_TrimSpace (lit "title")) (lit "filename") = false.
Hypothesis fold_filename_title :
  strings_EqualFold (strings_TrimSpace (lit "filename")) (lit "title") = false.

Lemma headerIndex_filename_title :
  headerIndex [lit "filename"; lit "title"] (lit "filename") = 0%Z
  /\ headerIndex [lit "filename"; lit "title"] (lit "title") = 1%Z.
Proof.
  unfold headerIndex. cbn [headerIndexFrom].
  rewrite fold_filename, fold_filename_title, fold_title. split; reflexivity.
Qed.

Lemma headerIndex_title_filename :
  headerIndex [lit "title"; lit "filename"] (lit "filename") = 1%Z
  /\ headerIndex [lit "title"; lit "filename"] (lit "title") = 0%Z.
Proof.
  unfold headerIndex. cbn [headerIndexFrom].
  rewrite fold_title_filename, fold_filename, fold_title. split; reflexivity.
Qed.

Lemma applyRows_swapped (dir : str) (rows : list (str * str)) :
  (forall row, In row rows -> readableRow row) ->
  forall (w : World) (tok1 tok2 : str),
    applyRows dir 1 0
      (readerOver (physicalLines (concat (map encodedLine (map titleFirst rows)))) tok1) w =
    applyRows dir 0 1
      (readerOver (physicalLines (concat (map encodedLine (map filenameFirst rows)))) tok2) w.
Proof.
  induction rows as [|[f t] rows IH]; intros Hrows w tok1 tok2.
  - cbn [map concat physicalLines]. rewrite !applyRows_unfold, !Read_eof.
    reflexivity.
  - destruct (Hrows (f, t) (or_introl eq_refl)) as [Hf [Ht Hlen]].
    cbn [fst snd] in Hf, Ht, Hlen.
    pose proof (IH (fun row I => Hrows row (or_intror I))) as IH'.
    change (map titleFirst ((f, t) :: rows)) with ([t; f] :: map titleFirst rows).
    change (map filenameFirst ((f, t) :: rows))
      with ([f; t] :: map filenameFirst rows).
    cbn [map concat].
    read_both_rows dir f t.
    destruct (str_eqb (strings_TrimSpace f) []); [apply IH'|].
    match goal with |- context [upsertTitle ?a ?b ?c] =>
      destruct (upsertTitle a b c) as [w' [err|]] end; [reflexivity|].
    rewrite (IH' w' _ (joinFields (map encodeCSVField [f; t]))). reflexivity.
Qed.

Lemma applyTable_swapped (w : World) (dir : str) (rows : list (str * str)) :
  (forall row, In row rows -> readableRow row) ->
  applyTable w dir (tableFile [lit "title"; lit "filename"] (map titleFirst rows)) =
  applyTable w dir (tableFile [lit "filename"; lit "title"] (map filenameFirst rows)).
Proof.
  intros Hrows. unfold applyTable, tableFile.
  rewrite !newCSVReader_readerOver.
  rewrite !Read_encodedLine;
    try discriminate;
    try (intros x [<- | [<- | []]]; vm_compute; intuition discriminate);
    try (vm_compute; reflexivity).
  destruct headerIndex_filename_title as [-> ->].
  destruct headerIndex_title_filename as [-> ->].
  cbn [Z.eqb orb]. apply applyRows_swapped. assumption.
Qed.

End Header.

(** ** Records with a line feed in a field *)

Lemma doubleQuotes_app (a b : str) :
  doubleQuotes (a ++ b) = doubleQuotes a ++ doubleQuotes b.
Proof. apply flat_map_app. Qed.

Lemma first_LF (f : str) :
  In LF f -> exists f1 f2, f = f1 ++ LF :: f2 /\ ~ In LF f1.
Proof.
  induction f as [|c f IH]; intros H; [destruct H|].
  destruct (ascii_dec c LF) as [-> | N].
  - exists [], f. split; [reflexivity | intros []].
  - destruct H as [E | I]; [contradiction|].
    destruct (IH I) as [f1 [f2 [-> H1]]].
    exists (c :: f1), f2. split; [reflexivity|].
    intros [E | I']; [contradiction | auto].
Qed.

Lemma first_broken_field (record : list str) :
  (exists f, In f record /\ In LF f) ->
  exists pre f post,
    record = pre ++ f :: post
    /\ (forall g, In g pre -> ~ In LF g)
    /\ In LF f.
Proof.
  induction record as [|g record IH]; intros [f [Hf Hlf]]; [destruct Hf|].
  destruct (in_dec ascii_dec LF g) as [Y | N].
  - exists [], g, record. split; [reflexivity | split; [intros ? [] | exact Y]].
  - destruct Hf as [-> | Hf]; [contradiction|].
    destruct (IH (ex_intro _ f (conj Hf Hlf))) as [pre [f' [post [-> [Hpre Hf']]]]].
    exists (g :: pre), f', post.
    split; [reflexivity | split; [|exact Hf']].
    intros x [<- | Hx]; auto.
Qed.

Lemma joinFields_split (pre : list str) (f : str) (post : list str) :
  joinFields (map encodeCSVField (pre ++ f :: post)) =
  fieldsPrefix pre ++ encodeCSVField f ++
  match post with
  | [] => []
  | _ :: _ => comma :: joinFields (map encodeCSVField post)
  end.
Proof.
  induction pre as [|g pre IH].
  - destruct post as [|h post]; [symmetry; apply app_nil_r | reflexivity].
  - unfold fieldsPrefix. cbn [map concat]. fold (fieldsPrefix pre).
    rewrite <- !app_assoc, <- IH.
    destruct pre as [|g' pre]; reflexivity.
Qed.

Lemma fieldsPrefix_no_LF (pre : list str) :
  (forall g, In g pre -> ~ In LF g) -> ~ In LF (fieldsPrefix pre).
Proof.
  induction pre as [|g pre IH]; intros H; [intros []|].
  unfold fieldsPrefix. cbn [map concat]. fold (fieldsPrefix pre).
  intros I. apply in_app_or in I. destruct I as [I | I].
  - apply in_app_or in I. destruct I as [I | [E | []]]; [|discriminate].
    revert I. apply encodeCSVField_no_LF, H. left; reflexivity.
  - revert I. apply IH. intros x Hx. apply H. right; assumption.
Qed.

Lemma scanLine_fieldsPrefix (pre : list str) (tail : str) :
  forall fs, scanLine (fieldsPrefix pre ++ tail) fs [] false =
             scanLine tail (fs ++ pre) [] false.
Proof.
  induction pre as [|g pre IH]; intros fs.
  - simpl. rewrite app_nil_r. reflexivity.
  - unfold fieldsPrefix. cbn [map concat]. fold (fieldsPrefix pre).
    rewrite <- !app_assoc. simpl app.
    rewrite scanLine_encoded by (simpl; intros E; inversion E).
    rewrite scanLine_comma_outside, IH, <- app_assoc. reflexivity.
Qed.

(** The line of a record with a line feed in some field breaks inside
    quotes at the first such line feed. *)
Lemma broken_first_line (record : list str) (body : str) :
  (exists f, In f record /\ In LF f) ->
  exists p rest,
    encodedLine record ++ body = p ++ LF :: rest
    /\ ~ In LF p
    /\ endsInsideQuotes p = true.
Proof.
  intros H.
  destruct (first_broken_field _ H) as [pre [f [post [-> [Hpre Hf]]]]].
  destruct (first_LF _ Hf) as [f1 [f2 [-> Hf1]]].
  assert (Q : needsQuoting (f1 ++ LF :: f2)).
  { exists LF. split; [apply in_or_app; right; left; reflexivity | simpl; auto]. }
  exists (fieldsPrefix pre ++ dquote :: doubleQuotes f1).
  eexists. split; [|split].
  - unfold encodedLine. rewrite joinFields_split, (encodeCSVField_quoted Q).
    unfold quotedForm. rewrite doubleQuotes_app.
    change (doubleQuotes (LF :: f2)) with (LF :: doubleQuotes f2).
    repeat (rewrite <- app_assoc; simpl app).
    reflexivity.
  - intros I. apply in_app_or in I. destruct I as [I | [E | I]].
    + revert I. apply fieldsPrefix_no_LF. assumption.
    + discriminate.
    + revert I. apply doubleQuotes_no_LF. assumption.
  - unfold endsInsideQuotes.
    rewrite scanLine_fieldsPrefix, scanLine_open.
    rewrite <- (app_nil_r (doubleQuotes f1)), scanLine_doubleQuotes.
    reflexivity.
Qed.

Lemma Read_broken_line (record : list str) (body tok : str) :
  (exists f, In f record /\ In LF f) ->
  exists r' e,
    csvReader_Read (readerOver (physicalLines (encodedLine record ++ body)) tok) =
    (r', Err e)
    /\ e <> io_EOF.
Proof.
  intros H. destruct (broken_first_line _ body H) as [p [rest [-> [Hp Hq]]]].
  rewrite physicalLines_line by assumption.
  destruct (Z_lt_le_dec (Z.of_nat (length p)) maxScanTokenSize) as [L | G].
  - rewrite Read_next by assumption.
    rewrite parseCSVLine_unterminated
      by (rewrite !endsInsideQuotes_dropCR; assumption).
    do 2 eexists. split; [reflexivity | discriminate].
  - rewrite Read_too_long by assumption.
    do 2 eexists. split; [reflexivity | discriminate].
Qed.

Lemma Read_long_encodedLine (record : list str) (body tok : str) :
  (forall f, In f record -> ~ In LF f) ->
  (maxScanTokenSize <=
   Z.of_nat (length (joinFields (map encodeCSVField record))))%Z ->
  csvReader_Read (readerOver (physicalLines (encodedLine record ++ body)) tok) =
  (stoppedReader, Err bufio_ErrTooLong).
Proof.
  intros Hlf Hlen. unfold encodedLine. rewrite <- app_assoc. simpl app.
  rewrite physicalLines_line by (apply joinFields_no_LF; assumption).
  apply Read_too_long. assumption.
Qed.

Lemma sameRun_refl {W : Type} (o : Outcome W) : sameRun o o.
Proof. unfold sameRun. tauto. Qed.

Lemma sameRun_logCall {W : Type} (c : str * str) (a b : Outcome W) :
  sameRun a b -> sameRun (logCall c a) (logCall c b).
Proof.
  unfold sameRun, logCall. simpl. intros [-> [-> H]]. tauto.
Qed.

Lemma sameRun_stopped {W : Type} (w : W) (e1 e2 : error) :
  sameRun (stopped w e1) (stopped w e2).
Proof.
  unfold sameRun, stopped. simpl.
  repeat split; discriminate.
Qed.

Section SwappedAnyRows.
Context {rt : GoRuntime} {env : JpegEnv}.

Lemma applyRows_read_error (dir : str) (filenameIdx titleIdx : Z)
    (reader reader' : csvReader) (e : error) (w : World) :
  csvReader_Read reader = (reader', Err e) ->
  e <> io_EOF ->
  applyRows dir filenameIdx titleIdx reader w =
  stopped w (Errorf_w "read record" e).
Proof.
  intros H N. rewrite applyRows_unfold, H.
  destruct e; try reflexivity. contradiction.
Qed.

Lemma applyRows_swapped_any (dir : str) (rows : list (str * str)) :
  forall (w : World) (tok1 tok2 : str),
    sameRun
      (applyRows dir 1 0
         (readerOver
            (physicalLines (concat (map encodedLine (map titleFirst rows)))) tok1) w)
      (applyRows dir 0 1
         (readerOver
            (physicalLines (concat (map encodedLine (map filenameFirst rows)))) tok2) w).
Proof.
  induction rows as [|[f t] rows IH]; intros w tok1 tok2.
  - cbn [map concat physicalLines]. rewrite !applyRows_unfold, !Read_eof.
    apply sameRun_refl.
  - change (map titleFirst ((f, t) :: rows)) with ([t; f] :: map titleFirst rows).
    change (map filenameFirst ((f, t) :: rows))
      with ([f; t] :: map filenameFirst rows).
    cbn [map concat].
    destruct (in_dec ascii_dec LF f) as [Bf | Hf];
      [|destruct (in_dec ascii_dec LF t) as [Bt | Ht]].
    + destruct (@Read_broken_line [t; f]
                  (concat (map encodedLine (map titleFirst rows))) tok1)
        as [r1 [e1 [R1 N1]]];
        [exists f; split; [right; left; reflexivity | assumption]|].
      destruct (@Read_broken_line [f; t]
                  (concat (map encodedLine (map filenameFirst rows))) tok2)
        as [r2 [e2 [R2 N2]]];
        [exists f; split; [left; reflexivity | assumption]|].
      rewrite (@applyRows_read_error dir 1 0 _ _ _ w R1 N1).
      rewrite (@applyRows_read_error dir 0 1 _ _ _ w R2 N2).
      apply sameRun_stopped.
    + destruct (@Read_broken_line [t; f]
                  (concat (map encodedLine (map titleFirst rows))) tok1)
        as [r1 [e1 [R1 N1]]];
        [exists t; split; [left; reflexivity | assumption]|].
      destruct (@Read_broken_line [f; t]
                  (concat (map encodedLine (map filenameFirst rows))) tok2)
        as [r2 [e2 [R2 N2]]];
        [exists t; split; [right; left; reflexivity | assumption]|].
      rewrite (@applyRows_read_error dir 1 0 _ _ _ w R1 N1).
      rewrite (@applyRows_read_error dir 0 1 _ _ _ w R2 N2).
      apply sameRun_stopped.
    + destruct (Z_lt_le_dec
                  (Z.of_nat (length (encodeCSVField f) + 1
                             + length (encodeCSVField t)))
                  maxScanTokenSize) as [L | G].
      * read_both_rows dir f t.
        destruct (str_eqb (strings_TrimSpace f) []); [apply IH|].
        match goal with |- context [upsertTitle ?a ?b ?c] =>
          destruct (upsertTitle a b c) as [w' [err|]] end;
          [apply sameRun_refl|].
        apply sameRun_logCall, IH.
      * rewrite (applyRows_unfold dir 1 0), (applyRows_unfold dir 0 1).
        rewrite !Read_long_encodedLine;
          try (intros x [<- | [<- | []]]; assumption);
          try (cbn [map joinFields]; rewrite !length_app; cbn [length]; lia).
        apply sameRun_refl.
Qed.

Lemma applyTable_swapped_any (w : World) (dir : str) (rows : list (str * str)) :
  strings_EqualFold (strings_TrimSpace (lit "filename")) (lit "filename") = true ->
  strings_EqualFold (strings_TrimSpace (lit "title")) (lit "title") = true ->
  strings_EqualFold (strings_TrimSpace (lit "title")) (lit "filename") = false ->
  strings_EqualFold (strings_TrimSpace (lit "filename")) (lit "title") = false ->
  sameRun
    (applyTable w dir (tableFile [lit "title"; lit "filename"] (map titleFirst rows)))
    (applyTable w dir (tableFile [lit "filename"; lit "title"] (map filenameFirst rows))).
Proof.
  intros H1 H2 H3 H4. unfold applyTable, tableFile.
  rewrite !newCSVReader_readerOver.
  rewrite !Read_encodedLine;
    try discriminate;
    try (intros x [<- | [<- | []]]; vm_compute; intuition discriminate);
    try (vm_compute; reflexivity).
  destruct (headerIndex_filename_title H1 H2 H4) as [-> ->].
  destruct (headerIndex_title_filename H1 H2 H3) as [-> ->].
  cbn [Z.eqb orb]. apply applyRows_swapped_any.
Qed.

End SwappedAnyRows.

(** C7: [headerIndex] gives the position of the first header cell that,
    trimmed, equals the column name under case folding, and -1 when there is
    none, so the position of a column in the file does not matter: a table
    written title first under the header [title,filename] is applied as the
    same table written filename first under [filename,title], with the same
    [upsertTitle] calls in the same order, the same files afterwards, and an
    error in both or in neither; the two outcomes are equal when every row
    can be read back.  When either column is missing, apply fails with the
    missing-columns error before it makes any call. *)
Theorem C7_header_independence {rt : GoRuntime} {env : JpegEnv} :
  (forall (header : list str) (name : str),
     (headerIndex header name = (-1)%Z <->
      forall v, In v header ->
        strings_EqualFold (strings_TrimSpace v) name = false)
     /\ forall i : nat,
          headerIndex header name = Z.of_nat i <->
          (i < length header)%nat
          /\ strings_EqualFold (strings_TrimSpace (nth i header [])) name = true
          /\ forall j, (j < i)%nat ->
               strings_EqualFold (strings_TrimSpace (nth j header [])) name = false)
  /\ (strings_EqualFold (strings_TrimSpace (lit "filename")) (lit "filename") = true ->
      strings_EqualFold (strings_TrimSpace (lit "title")) (lit "title") = true ->
      strings_EqualFold (strings_TrimSpace (lit "title")) (lit "filename") = false ->
      strings_EqualFold (strings_TrimSpace (lit "filename")) (lit "title") = false ->
      forall (w : World) (dir : str) (rows : list (str * str)),
        sameRun
          (applyTable w dir
             (tableFile [lit "title"; lit "filename"] (map titleFirst rows)))
          (applyTable w dir
             (tableFile [lit "filename"; lit "title"] (map filenameFirst rows)))
        /\ ((forall row, In row rows -> readableRow row) ->
            applyTable w dir
              (tableFile [lit "title"; lit "filename"] (map titleFirst rows)) =
            applyTable w dir
              (tableFile [lit "filename"; lit "title"] (map filenameFirst rows))))
  /\ (forall (w : World) (dir file : str) (reader' : csvReader)
        (header : list str),
        csvReader_Read (newCSVReader file) = (reader', Ok header) ->
        headerIndex header (lit "filename") = (-1)%Z
        \/ headerIndex header (lit "title") = (-1)%Z ->
        applyTable w dir file =
        {| calls := []; after := w;
           failure :=
             Some (errors_New "csv must include filename and title columns") |}).
Proof.
  split; [|split].
  - intros header name. split.
    + apply headerIndex_absent.
    + intros i. apply headerIndex_first.
  - intros H1 H2 H3 H4 w dir rows. split.
    + apply applyTable_swapped_any; assumption.
    + intros Hrows. apply applyTable_swapped; assumption.
  - intros w dir file reader' header H Hmiss.
    eapply applyTable_missing_column; eassumption.
Qed.

Lemma C7_witness :
  let rows := [(lit "a.jpg", lit "Sunset, 2024"); (lit " ", lit "x")] in
  applyTable Sample.files (lit "/d")
    (tableFile [lit "title"; lit "filename"] (map titleFirst rows)) =
  applyTable Sample.files (lit "/d")
    (tableFile [lit "filename"; lit "title"] (map filenameFirst rows)).
Proof.
  intros rows.
  apply (proj2 (proj1 (proj2 (@C7_header_independence asciiRuntime toyEnv))
                  eq_refl eq_refl eq_refl eq_refl Sample.files (lit "/d") rows)).
  intros row [<- | [<- | []]]; vm_compute; intuition discriminate.
Defined.

(** ** Reading a caption *)

Section ReadTitle.
Context {rt : GoRuntime} {env : JpegEnv}.

Lemma readTitle_with_ifd (w : World) (path : str) (sl : SegmentList) (rootIfd : Ifd) :
  mp_ParseFile w path = Ok sl ->
  sl_Exif sl = Ok rootIfd ->
  (exists title, readTitle w path = Ok title)
  /\ (captionAbsent rootIfd -> readTitle w path = Ok []).
Proof.
  intros Hp He. unfold readTitle, captionAbsent. rewrite Hp, He.
  destruct (ifd_FindTagWithName rootIfd (lit "ImageDescription"))
    as [[|first rest]|e]; try (split; [eexists|]; reflexivity).
  destruct (ite_Value first) as [[t|[|t ts]|t|[|t ts]|]|e];
    (split; [eexists; reflexivity | intros A; try reflexivity; destruct A]).
Qed.

(** C3: what [readTitle] returns, step by step.  An error of
    [mp.ParseFile] is returned as ["parse JPEG"].  An error of [sl.Exif()] on
    a container that parsed is returned as ["parse EXIF"]: here [readTitle]
    departs from the claim, which promises the empty text and no error for a
    file without caption.  Once [sl.Exif()] has returned a directory,
    [readTitle] never fails, and it returns the empty text whenever the
    caption cannot be taken from the directory (tag lookup failed or found
    nothing, value not decodable, empty list or unhandled type). *)
Theorem C3_readTitle_outcomes (w : World) (path : str) :
  (forall err, mp_ParseFile w path = Err err ->
     readTitle w path = Err (Errorf_w "parse JPEG" err))
  /\ (forall sl err, mp_ParseFile w path = Ok sl -> sl_Exif sl = Err err ->
        readTitle w path = Err (Errorf_w "parse EXIF" err))
  /\ (forall sl rootIfd, mp_ParseFile w path = Ok sl -> sl_Exif sl = Ok rootIfd ->
        (exists title, readTitle w path = Ok title)
        /\ (captionAbsent rootIfd -> readTitle w path = Ok [])).
Proof.
  split; [|split].
  - intros err H. unfold readTitle. rewrite H. reflexivity.
  - intros sl err H1 H2. unfold readTitle. rewrite H1, H2. reflexivity.
  - intros sl rootIfd. apply readTitle_with_ifd.
Qed.

Lemma isJPEG_spec (name : str) :
  isJPEG name = true <->
  strings_ToLower (filepath_Ext name) = lit ".jpg"
  \/ strings_ToLower (filepath_Ext name) = lit ".jpeg".
Proof.
  unfold isJPEG. rewrite orb_true_iff, !str_eqb_eq. reflexivity.
Qed.

Lemma scanEntries_skip (w : World) (absDir : str) (writer : csvWriter)
    (entry : DirEntry) (entries : list DirEntry) :
  qualifies entry = false ->
  scanEntries w absDir writer (entry :: entries) =
  scanEntries w absDir writer entries.
Proof.
  unfold qualifies. cbn [scanEntries].
  destruct (IsDir entry), (Type_IsRegular entry); try reflexivity.
  cbn [negb andb orb].
  destruct (isJPEG (Name entry)), (strings_EqualFold (Name entry) csvFilename);
    try reflexivity.
  discriminate.
Qed.

Lemma scanEntries_row (w : World) (absDir : str) (writer : csvWriter)
    (entry : DirEntry) (entries : list DirEntry) :
  qualifies entry = true ->
  scanEntries w absDir writer (entry :: entries) =
  match readTitle w (filepath_Join absDir (Name entry)) with
  | Err err => (writer, Some err)
  | Ok title =>
      match csvWriter_Write writer [Name entry; title] with
      | (writer', Some err) =>
          (writer', Some (Errorf_s_w "write row for" (Name entry) err))
      | (writer', None) => scanEntries w absDir writer' entries
      end
  end.
Proof.
  unfold qualifies. cbn [scanEntries].
  destruct (IsDir entry), (Type_IsRegular entry); try discriminate.
  cbn [negb andb orb].
  destruct (isJPEG (Name entry)), (strings_EqualFold (Name entry) csvFilename);
    try discriminate.
  reflexivity.
Qed.

Lemma scanEntries_ok (w : World) (absDir : str) (entries : list DirEntry) :
  forall cw cw' : csvWriter,
    scanEntries w absDir cw entries = (cw', None) ->
    exists titles : list str,
      Forall2 (fun entry title =>
                 readTitle w (filepath_Join absDir (Name entry)) = Ok title)
              (filter qualifies entries) titles
      /\ accepted (writer cw') =
         accepted (writer cw) ++
         concat (map encodedLine (scanRows (filter qualifies entries) titles)).
Proof.
  induction entries as [|entry entries IH]; intros cw cw' H.
  - inversion H. exists []. split; [constructor|].
    simpl. rewrite app_nil_r. reflexivity.
  - cbn [filter]. destruct (qualifies entry) eqn:Q.
    + rewrite scanEntries_row in H by assumption.
      destruct (readTitle w (filepath_Join absDir (Name entry))) as [title|e] eqn:R;
        [|inversion H].
      destruct (csvWriter_Write cw [Name entry; title]) as [w1 [e|]] eqn:W;
        [inversion H|].
      apply csvWriter_Write_ok in W.
      destruct (IH _ _ H) as [titles [F A]].
      exists (title :: titles). split; [constructor; assumption|].
      rewrite A, W. unfold scanRows. cbn [combine map concat fst snd].
      rewrite <- app_assoc. reflexivity.
    + rewrite scanEntries_skip in H by assumption. apply IH. assumption.
Qed.

Lemma bufio_Flush_ok (b b' : bufio_Writer) :
  bufio_Flush b = (b', None) ->
  sent b' = accepted b /\ buf b' = [] /\ werr b' = None.
Proof.
  intros H. destruct (werr b) as [e|] eqn:E.
  - unfold bufio_Flush in H. rewrite E in H. inversion H.
  - destruct (@bufio_Flush_spec b b' None H) as [_ [_ [F3 F4]]].
    destruct (F4 E eq_refl). auto.
Qed.

Lemma csvWriter_Flush_ok (w w' : csvWriter) :
  csvWriter_Flush w = (w', None) ->
  sent (writer w') = accepted (writer w)
  /\ buf (writer w') = []
  /\ werr (writer w') = None.
Proof.
  unfold csvWriter_Flush.
  destruct (bufio_Flush (writer w)) as [b r] eqn:F.
  intros H; inversion H; subst. cbn [writer]. apply bufio_Flush_ok. exact F.
Qed.

(** C4: when [scanDirectory] returns no error, the file [bilder.csv] in
    the directory holds the header line [filename,title] and then, in
    listing order, one line (name, caption) for each entry that is a regular
    file with a JPEG extension and a name other than the sidecar's; no other
    entry gets a line.  The file system is asked for one thing: the file
    that was created and closed reads back as the bytes the device took. *)
Theorem C4_scan_writes_qualifying_rows (w : World) (dir : str) :
  (forall bytes : str,
     os_Open
       (file_Close
          (fst (os_Create w (filepath_Join (filepath_Clean dir) csvFilename)))
          (filepath_Join (filepath_Clean dir) csvFilename) bytes)
       (filepath_Join (filepath_Clean dir) csvFilename) = Ok bytes) ->
  scanFailure (scanDirectory w dir) = None ->
  exists (entries : list DirEntry) (absDir : str) (titles : list str),
    os_ReadDir w (filepath_Clean dir) = Ok entries
    /\ filepath_Abs (filepath_Clean dir) = Ok absDir
    /\ Forall2 (fun entry title =>
                  readTitle
                    (fst (os_Create w
                            (filepath_Join (filepath_Clean dir) csvFilename)))
                    (filepath_Join absDir (Name entry)) = Ok title)
               (filter qualifies entries) titles
    /\ os_Open (scanned (scanDirectory w dir))
         (filepath_Join (filepath_Clean dir) csvFilename) =
       Ok (tableFile [lit "filename"; lit "title"]
             (scanRows (filter qualifies entries) titles))
    /\ forall entry, In entry (filter qualifies entries) <->
         In entry entries
         /\ IsDir entry = false /\ Type_IsRegular entry = true
         /\ (strings_ToLower (filepath_Ext (Name entry)) = lit ".jpg"
             \/ strings_ToLower (filepath_Ext (Name entry)) = lit ".jpeg")
         /\ strings_EqualFold (Name entry) csvFilename = false.
Proof.
  unfold scanDirectory.
  destruct (os_ReadDir w (filepath_Clean dir)) as [entries|e] eqn:RD;
    [|intros _ H; inversion H].
  destruct (os_Create w (filepath_Join (filepath_Clean dir) csvFilename))
    as [w1 [file|e]] eqn:CR; [|intros _ H; inversion H].
  destruct (csvWriter_Write (newCSVWriter file) [lit "filename"; lit "title"])
    as [wh [e|]] eqn:WH; [intros _ H; inversion H|].
  destruct (filepath_Abs (filepath_Clean dir)) as [absDir|e] eqn:AB;
    [|intros _ H; inversion H].
  destruct (scanEntries w1 absDir wh entries) as [ws [e|]] eqn:SE;
    [intros _ H; inversion H|].
  destruct (csvWriter_Flush ws) as [wf [e|]] eqn:FL; [intros _ H; inversion H|].
  intros Law _. cbn [scanned fst] in *.
  apply csvWriter_Write_ok in WH.
  destruct (scanEntries_ok _ _ _ _ SE) as [titles [F A]].
  destruct (csvWriter_Flush_ok _ FL) as [FA _].
  exists entries, absDir, titles.
  split; [reflexivity|]. split; [reflexivity|]. split; [exact F|]. split.
  - unfold closeFile. rewrite Law, FA, A, WH. reflexivity.
  - intros entry. rewrite filter_In. unfold qualifies.
    rewrite !andb_true_iff, !negb_true_iff, isJPEG_spec. tauto.
Qed.

End ReadTitle.

(** C3 at the failing input [/e/c.jpg], a JPEG without EXIF block: its
    container parses and [readTitle] returns an error, with which a scan of
    the directory fails; [upsertTitle] takes the same file and writes the
    caption, after which [readTitle] returns it. *)
Lemma C3_failing_input :
  mp_ParseFile Sample.bareFiles (lit "/e/c.jpg") = Ok Sample.bare
  /\ readTitle Sample.bareFiles (lit "/e/c.jpg") =
     Err (Errorf_w "parse EXIF" (lib_error 2))
  /\ scanFailure (scanDirectory Sample.bareFiles (lit "/e")) =
     Some (Errorf_w "parse EXIF" (lib_error 2))
  /\ snd (upsertTitle Sample.bareFiles (lit "/e/c.jpg") (lit "New")) = None
  /\ readTitle (fst (upsertTitle Sample.bareFiles (lit "/e/c.jpg") (lit "New")))
       (lit "/e/c.jpg") = Ok (lit "New").
Proof. repeat split. Qed.

Lemma C3_witness :
  readTitle Sample.files (lit "/d/c.jpg") =
    Err (Errorf_w "parse EXIF" (lib_error 2))
  /\ exists title, readTitle Sample.files (lit "/d/a.jpg") = Ok title.
Proof.
  split.
  - apply (proj1 (proj2 (@C3_readTitle_outcomes toyEnv Sample.files
                           (lit "/d/c.jpg"))) Sample.bare (lib_error 2));
      reflexivity.
  - apply (proj2 (proj2 (@C3_readTitle_outcomes toyEnv Sample.files
                           (lit "/d/a.jpg")))
             (Sample.image "Sunset")
             [(lit "ImageDescription", V_string (lit "Sunset"))]);
      reflexivity.
Defined.

Lemma C4_witness :
  exists (entries : list DirEntry) (titles : list str),
    os_ReadDir Sample.files (lit "/d") = Ok entries
    /\ os_Open (scanned (scanDirectory Sample.files (lit "/d")))
         (lit "/d/bilder.csv") =
       Ok (tableFile [lit "filename"; lit "title"]
             (scanRows (filter qualifies entries) titles))
    /\ tableFile [lit "filename"; lit "title"]
         (scanRows (filter qualifies entries) titles) =
       lit "filename,title" ++ [LF] ++
       lit "a.jpg,Sunset" ++ [LF] ++
       lit "B.JPEG," ++ [dquote] ++ lit "x, y" ++ [dquote; LF].
Proof.
  assert (Law : forall bytes : str,
             os_Open
               (file_Close
                  (fst (os_Create Sample.files
                          (filepath_Join (filepath_Clean (lit "/d")) csvFilename)))
                  (filepath_Join (filepath_Clean (lit "/d")) csvFilename) bytes)
               (filepath_Join (filepath_Clean (lit "/d")) csvFilename) = Ok bytes)
    by (intros bytes; vm_compute; reflexivity).
  destruct (@C4_scan_writes_qualifying_rows asciiRuntime toyEnv Sample.files
              (lit "/d") Law eq_refl)
    as [entries [absDir [titles [RD [_ [_ [O _]]]]]]].
  exists entries, titles. split; [exact RD|]. split; [exact O|].
  assert (L : os_Open (scanned (scanDirectory Sample.files (lit "/d")))
                (lit "/d/bilder.csv") =
              Ok (lit "filename,title" ++ [LF] ++
                  lit "a.jpg,Sunset" ++ [LF] ++
                  lit "B.JPEG," ++ [dquote] ++ lit "x, y" ++ [dquote; LF]))
    by (vm_compute; reflexivity).
  change (filepath_Join (filepath_Clean (lit "/d")) csvFilename)
    with (lit "/d/bilder.csv") in O.
  rewrite O in L.
  exact (f_equal (fun r => match r with Ok file => file | Err _ => [] end) L).
Defined.

(** ** More on the codec *)

Lemma writeRecords_ok (records : list (list str)) :
  forall w w' : csvWriter,
    writeRecords w records = (w', None) ->
    accepted (writer w') = accepted (writer w) ++ concat (map encodedLine records).
Proof.
  induction records as [|record records IH]; intros w w' H; simpl in H.
  - inversion H. simpl. rewrite app_nil_r. reflexivity.
  - destruct (csvWriter_Write w record) as [w1 [e|]] eqn:E; [inversion H|].
    apply csvWriter_Write_ok in E. apply IH in H. rewrite H, E.
    simpl. rewrite <- app_assoc. reflexivity.
Qed.

Lemma readMany_eof (n : nat) :
  forall tok, readMany n (readerOver [] tok) = repeat (Err io_EOF) n.
Proof.
  induction n as [|n IH]; intros tok; [reflexivity|].
  cbn [readMany]. rewrite Read_eof. cbn [repeat]. rewrite IH. reflexivity.
Qed.

Lemma readMany_encoded (records : list (list str)) (n : nat) :
  (forall record, In record records -> readableRecord record) ->
  forall tok,
    readMany (length records + n)
      (readerOver (physicalLines (concat (map encodedLine records))) tok) =
    map Ok records ++ repeat (Err io_EOF) n.
Proof.
  induction records as [|record records IH]; intros H tok.
  - apply readMany_eof.
  - destruct (H record (or_introl eq_refl)) as [Hne [Hlf Hlen]].
    cbn [map concat length Nat.add readMany].
    rewrite Read_encodedLine by assumption.
    rewrite IH by (intros r Hr; apply H; right; assumption).
    reflexivity.
Qed.

(** X1: a record with at least one field, without line feeds and with a
    line that fits the buffer, is read back as it was written, whatever
    follows its line in the input; the reader is left at the lines after
    it. *)
Theorem X1_record_roundtrip (io : io_Writer) (record : list str)
    (w' : csvWriter) (body : str) :
  csvWriter_Write (newCSVWriter io) record = (w', None) ->
  readableRecord record ->
  snd (csvReader_Read (newCSVReader (accepted (writer w') ++ body))) = Ok record
  /\ pending (scanner (fst (csvReader_Read
                              (newCSVReader (accepted (writer w') ++ body))))) =
     physicalLines body.
Proof.
  intros Hw [Hne [Hlf Hlen]]. apply csvWriter_Write_ok in Hw.
  change (accepted (writer (newCSVWriter io))) with (@nil ascii) in Hw.
  rewrite Hw, app_nil_l, newCSVReader_readerOver.
  rewrite Read_encodedLine by assumption. split; reflexivity.
Qed.

Lemma X1_witness :
  let record := [lit "a.jpg"; lit "Sunset, 2024"; []] in
  snd (csvReader_Read
         (newCSVReader
            (accepted (writer (fst (csvWriter_Write (newCSVWriter Toy.noFault) record)))
             ++ lit "next"))) = Ok record.
Proof.
  intros record.
  apply (@X1_record_roundtrip Toy.noFault record
           (fst (csvWriter_Write (newCSVWriter Toy.noFault) record)) (lit "next")).
  - reflexivity.
  - split; [discriminate | split].
    + intros f [<- | [<- | [<- | []]]]; vm_compute; intuition discriminate.
    + vm_compute. reflexivity.
Defined.

(** X2: after the records of a table were written one by one, as many reads
    as there are records return the records in order, and every read after
    them returns [io.EOF]. *)
Theorem X2_table_roundtrip (io : io_Writer) (records : list (list str))
    (w' : csvWriter) (n : nat) :
  writeRecords (newCSVWriter io) records = (w', None) ->
  (forall record, In record records -> readableRecord record) ->
  readMany (length records + n) (newCSVReader (accepted (writer w'))) =
  map Ok records ++ repeat (Err io_EOF) n.
Proof.
  intros Hw H. apply writeRecords_ok in Hw.
  change (accepted (writer (newCSVWriter io))) with (@nil ascii) in Hw.
  rewrite Hw, app_nil_l, newCSVReader_readerOver.
  apply readMany_encoded. assumption.
Qed.

Lemma X2_witness :
  let records := [[lit "filename"; lit "title"]; [lit "a.jpg"; lit "x,y"]] in
  readMany 4
    (newCSVReader
       (accepted (writer (fst (writeRecords (newCSVWriter Toy.noFault) records))))) =
  [Ok [lit "filename"; lit "title"]; Ok [lit "a.jpg"; lit "x,y"];
   Err io_EOF; Err io_EOF].
Proof.
  intros records.
  apply (@X2_table_roundtrip Toy.noFault records
           (fst (writeRecords (newCSVWriter Toy.noFault) records)) 2).
  - reflexivity.
  - intros record [<- | [<- | []]];
      (split; [discriminate | split;
        [intros f [<- | [<- | []]]; vm_compute; intuition discriminate
        | vm_compute; reflexivity]]).
Defined.

(** X3: two records that both have a field and are written as the same
    bytes are the same record, line feeds or not; the record without fields
    and the record of one empty field are written alike, as one line feed. *)
Theorem X3_write_injective (io1 io2 : io_Writer) (r1 r2 : list str)
    (w1 w2 : csvWriter) :
  csvWriter_Write (newCSVWriter io1) r1 = (w1, None) ->
  csvWriter_Write (newCSVWriter io2) r2 = (w2, None) ->
  accepted (writer w1) = accepted (writer w2) ->
  (r1 <> [] -> r2 <> [] -> r1 = r2)
  /\ (r1 = [] -> r2 = [] \/ r2 = [[]]).
Proof.
  intros H1 H2 E. apply csvWriter_Write_ok in H1, H2.
  change (accepted (writer (newCSVWriter io1))) with (@nil ascii) in H1.
  change (accepted (writer (newCSVWriter io2))) with (@nil ascii) in H2.
  rewrite H1, H2 in E. simpl in E. unfold encodedLine in E.
  apply app_inv_tail in E. split.
  - intros N1 N2.
    pose proof (parseCSVLine_joined N1) as P1.
    pose proof (parseCSVLine_joined N2) as P2.
    rewrite E in P1. rewrite P1 in P2. inversion P2. reflexivity.
  - intros ->. destruct r2 as [|f r2]; [left; reflexivity | right].
    assert (N2 : f :: r2 <> []) by discriminate.
    pose proof (parseCSVLine_joined N2) as P2.
    rewrite <- E in P2. simpl in P2. inversion P2. reflexivity.
Qed.

Lemma X3_witness :
  [lit "a"; lit "b,c"] = [lit "a"; lit "b,c"]
  /\ ([@nil ascii] = [] \/ [@nil ascii] = [[]]).
Proof.
  split.
  - apply (proj1 (@X3_write_injective Toy.noFault Toy.noFault
                    [lit "a"; lit "b,c"] [lit "a"; lit "b,c"]
                    _ _ eq_refl eq_refl eq_refl)); discriminate.
  - apply (proj2 (@X3_write_injective Toy.noFault Toy.noFault
                    [] [[]] _ _ eq_refl eq_refl eq_refl)). reflexivity.
Defined.

(** ** Quotes, commas and line ends *)

Lemma countQuotes_dquote (l : str) :
  countQuotes (dquote :: l) = S (countQuotes l).
Proof. unfold countQuotes. apply count_occ_cons_eq. reflexivity. Qed.

Lemma countQuotes_other (c : ascii) (l : str) :
  c <> dquote -> countQuotes (c :: l) = countQuotes l.
Proof. intros H. unfold countQuotes. apply count_occ_cons_neq. assumption. Qed.

Lemma odd_S (n : nat) : Nat.odd (S n) = negb (Nat.odd n).
Proof. rewrite Nat.odd_succ, <- Nat.negb_odd. reflexivity. Qed.

(** The flag at the end of the scan is the flag at its start, flipped once
    for every double quote of the line. *)
Lemma scanLine_flag (line : str) :
  forall fs f q,
    snd (scanLine line fs f q) = xorb q (Nat.odd (countQuotes line)).
Proof.
  assert (G : forall n line, (length line <= n)%nat -> forall fs f q,
             snd (scanLine line fs f q) = xorb q (Nat.odd (countQuotes line))).
  { induction n as [|n IH]; intros [|ch rest] Hlen fs f q;
      try (simpl; rewrite xorb_false_r; reflexivity); simpl in Hlen; [lia|].
    assert (IHrest : forall fs f q,
               snd (scanLine rest fs f q) = xorb q (Nat.odd (countQuotes rest)))
      by (apply IH; lia).
    destruct (ascii_cases ch) as [-> | [-> | [Hd Hc]]].
    - rewrite countQuotes_dquote, odd_S. destruct q.
      + destruct rest as [|ch' rest'].
        * reflexivity.
        * destruct (Ascii.eqb_spec ch' dquote) as [-> | N].
          -- rewrite scanLine_escaped, countQuotes_dquote, odd_S, negb_involutive.
             apply IH. simpl in Hlen. lia.
          -- rewrite scanLine_close
               by (simpl; intros E; inversion E; contradiction).
             rewrite IHrest. destruct (Nat.odd (countQuotes (ch' :: rest')));
               reflexivity.
      + rewrite scanLine_open, IHrest.
        destruct (Nat.odd (countQuotes rest)); reflexivity.
    - rewrite countQuotes_other by discriminate. destruct q.
      + rewrite scanLine_comma_inside. apply IHrest.
      + rewrite scanLine_comma_outside. apply IHrest.
    - rewrite countQuotes_other, scanLine_plain by assumption. apply IHrest. }
  intros fs f q. apply (G (length line)). lia.
Qed.

(** X4: [parseCSVLine] fails exactly on the lines that hold an odd number
    of double quotes, wherever they stand, and its only error is the
    unterminated-quote error. *)
Theorem X4_parse_fails_iff_odd_quotes (line : str) :
  (parseCSVLine line = Err (errors_New "unterminated quoted field") <->
   Nat.odd (countQuotes line) = true)
  /\ ((exists record, parseCSVLine line = Ok record) <->
      Nat.odd (countQuotes line) = false)
  /\ (forall e, parseCSVLine line = Err e ->
        e = errors_New "unterminated quoted field").
Proof.
  pose proof (scanLine_flag line [] [] false) as F.
  unfold parseCSVLine.
  destruct (scanLine line [] [] false) as [[fs f] q]. simpl in F.
  rewrite <- F. destruct q; simpl.
  - split; [tauto | split].
    + split; [intros [r H]; inversion H | discriminate].
    + intros e H. inversion H. reflexivity.
  - split; [split; discriminate | split].
    + split; [reflexivity | intros _; eexists; reflexivity].
    + intros e H. inversion H.
Qed.

Lemma X4_witness :
  parseCSVLine (lit "a" ++ [dquote] ++ lit "b,c" ++ [dquote; dquote] ++ lit "d") =
  Err (errors_New "unterminated quoted field").
Proof.
  apply (proj1 (@X4_parse_fails_iff_odd_quotes _)). reflexivity.
Defined.

Lemma joinFields_cons (a : str) (l : list str) :
  l <> [] -> joinFields (a :: l) = a ++ comma :: joinFields l.
Proof. destruct l; [congruence | reflexivity]. Qed.

Lemma scanLine_no_quotes (line : str) :
  ~ In dquote line ->
  forall fs f,
  exists fs' f',
    scanLine line fs f false = (fs ++ fs', f', false)
    /\ joinFields (fs' ++ [f']) = f ++ line
    /\ length (fs' ++ [f']) = S (countCommas line).
Proof.
  induction line as [|c line IH]; intros H fs f.
  - exists [], f. simpl. rewrite !app_nil_r. auto.
  - assert (Hc : c <> dquote) by (intros ->; apply H; left; reflexivity).
    assert (Hl : ~ In dquote line) by (intros I; apply H; right; assumption).
    destruct (Ascii.eqb_spec c comma) as [-> | N].
    + rewrite scanLine_comma_outside.
      destruct (IH Hl (fs ++ [f]) []) as [fs' [f' [S1 [J L]]]].
      exists (f :: fs'), f'. rewrite S1, <- app_assoc. split; [reflexivity|].
      split.
      * change ((f :: fs') ++ [f']) with (f :: (fs' ++ [f'])).
        rewrite joinFields_cons by (destruct fs'; discriminate).
        rewrite J. reflexivity.
      * unfold countCommas in *. rewrite count_occ_cons_eq by reflexivity.
        simpl. simpl in L. rewrite L. reflexivity.
    + rewrite scanLine_plain by assumption.
      destruct (IH Hl fs (f ++ [c])) as [fs' [f' [S1 [J L]]]].
      exists fs', f'. rewrite S1, J, <- app_assoc. split; [reflexivity|].
      split; [reflexivity|].
      unfold countCommas in *. rewrite count_occ_cons_neq by assumption.
      exact L.
Qed.

(** X5: a line without double quotes always decodes; its fields are the
    pieces between its commas: joined with commas they give the line back,
    and there is one more field than there are commas. *)
Theorem X5_plain_line_splits_at_commas (line : str) :
  ~ In dquote line ->
  exists record,
    parseCSVLine line = Ok record
    /\ joinFields record = line
    /\ length record = S (countCommas line).
Proof.
  intros H. destruct (scanLine_no_quotes _ H [] []) as [fs' [f' [S1 [J L]]]].
  exists (fs' ++ [f']). unfold parseCSVLine. rewrite S1. auto.
Qed.

Lemma X5_witness :
  exists record,
    parseCSVLine (lit "a.jpg,,Sunset ") = Ok record
    /\ joinFields record = lit "a.jpg,,Sunset "
    /\ length record = 3%nat.
Proof.
  apply (@X5_plain_line_splits_at_commas (lit "a.jpg,,Sunset ")).
  vm_compute. intuition discriminate.
Defined.

Lemma no_LF_snoc_CR (l : str) : ~ In LF l -> ~ In LF (l ++ [CR]).
Proof.
  intros H I. apply in_app_or in I. destruct I as [I | [E | []]];
    [contradiction | discriminate].
Qed.

(** X6: a line ended by carriage return and line feed, or by two carriage
    returns and a line feed, decodes as the same line ended by a line feed
    alone; both the scanner and [csvReader.Read] drop one carriage
    return. *)
Theorem X6_trailing_CR_dropped (l rest : str) :
  ~ In LF l ->
  strings_HasSuffix l [CR] = false ->
  (Z.of_nat (length l) + 2 < maxScanTokenSize)%Z ->
  snd (csvReader_Read (newCSVReader (l ++ LF :: rest))) = parseCSVLine l
  /\ snd (csvReader_Read (newCSVReader (l ++ CR :: LF :: rest))) = parseCSVLine l
  /\ snd (csvReader_Read (newCSVReader (l ++ CR :: CR :: LF :: rest))) =
     parseCSVLine l.
Proof.
  intros Hlf Hcr Hlen. rewrite !newCSVReader_readerOver. split; [|split].
  - rewrite physicalLines_line, Read_next by (assumption || lia).
    rewrite !(dropCR_keep _ Hcr). reflexivity.
  - change (l ++ CR :: LF :: rest) with (l ++ [CR] ++ LF :: rest).
    rewrite app_assoc, physicalLines_line by (apply no_LF_snoc_CR; assumption).
    rewrite Read_next by (rewrite length_app; simpl; lia).
    rewrite dropCR_snoc, (dropCR_keep _ Hcr). reflexivity.
  - change (l ++ CR :: CR :: LF :: rest) with (l ++ [CR] ++ [CR] ++ LF :: rest).
    rewrite !app_assoc, physicalLines_line
      by (apply no_LF_snoc_CR, no_LF_snoc_CR; assumption).
    rewrite Read_next by (rewrite !length_app; simpl; lia).
    rewrite !dropCR_snoc. reflexivity.
Qed.

Lemma X6_witness :
  snd (csvReader_Read (newCSVReader (lit "a,b" ++ CR :: LF :: lit "c"))) =
  Ok [lit "a"; lit "b"].
Proof.
  destruct (@X6_trailing_CR_dropped (lit "a,b") (lit "c")) as [_ [A _]].
  - vm_compute. intuition discriminate.
  - reflexivity.
  - vm_compute. reflexivity.
  - exact A.
Defined.

Lemma doubleQuotes_length_exact (t : str) :
  length (doubleQuotes t) = (length t + countQuotes t)%nat.
Proof.
  induction t as [|c t IH]; [reflexivity|].
  change (doubleQuotes (c :: t))
    with ((if Ascii.eqb c dquote then [dquote; dquote] else [c]) ++ doubleQuotes t).
  rewrite length_app, IH.
  destruct (Ascii.eqb_spec c dquote) as [-> | N].
  - rewrite countQuotes_dquote. simpl. lia.
  - rewrite countQuotes_other by assumption. simpl. lia.
Qed.

(** X8: an encoded field is never shorter than the field.  When it needs
    quoting it takes two bytes for the enclosing quotes and one more for
    every double quote in it, so at most twice its length plus two; when it
    does not, it takes the same number of bytes. *)
Theorem X8_encoded_length (field : str) :
  length (encodeCSVField field) =
    (if strings_ContainsAny field [dquote; comma; LF; CR]
     then length field + countQuotes field + 2
     else length field)%nat
  /\ (length field <= length (encodeCSVField field) <= 2 * length field + 2)%nat.
Proof.
  assert (B : (countQuotes field <= length field)%nat)
    by (unfold countQuotes; apply count_occ_bound).
  assert (E : length (encodeCSVField field) =
              (if strings_ContainsAny field [dquote; comma; LF; CR]
               then length field + countQuotes field + 2
               else length field)%nat).
  { unfold encodeCSVField.
    destruct (strings_ContainsAny field [dquote; comma; LF; CR]); [|reflexivity].
    cbn [negb]. cbv zeta. rewrite ReplaceAll_doubleQuotes.
    rewrite !length_app, doubleQuotes_length_exact. simpl. lia. }
  split; [exact E|]. rewrite E.
  destruct (strings_ContainsAny field [dquote; comma; LF; CR]); lia.
Qed.

(** ** What a write leaves behind *)

Lemma writeFields_any (record : list str) :
  forall (w w' : csvWriter) (i : nat) (r : option error),
    writeFields w i record = (w', r) ->
    exists p q,
      accepted (writer w') = accepted (writer w) ++ p
      /\ p ++ q =
         (match record, i with
          | _ :: _, S _ => [comma]
          | _, _ => []
          end) ++ joinFields (map encodeCSVField record)
      /\ (r = None -> q = []).
Proof.
  induction record as [|field rest IH]; intros w w' i r H; simpl in H.
  - inversion H. exists [], []. simpl. rewrite app_nil_r. auto.
  - set (sep := match i with S _ => [comma] | O => [] end).
    change (match field :: rest, i with
            | _ :: _, S _ => [comma]
            | _, _ => []
            end) with sep.
    destruct (if (0 <? i)%nat then csvWriter_writeString w [comma] else (w, None))
      as [w1 r1] eqn:E1.
    assert (A1 : exists p1 q1,
               accepted (writer w1) = accepted (writer w) ++ p1
               /\ sep = p1 ++ q1 /\ (r1 = None -> q1 = [])).
    { subst sep. destruct i; simpl in E1.
      - inversion E1. exists [], []. rewrite app_nil_r. auto.
      - destruct (@writeString_any w w1 [comma] r1 E1) as [_ [_ A]]. exact A. }
    destruct A1 as [p1 [q1 [A1 [B1 C1]]]].
    destruct r1 as [e1|].
    { inversion H. subst w' r.
      exists p1, (q1 ++ joinFields (map encodeCSVField (field :: rest))).
      split; [exact A1|]. split; [|discriminate].
      rewrite app_assoc, <- B1. reflexivity. }
    rewrite (C1 eq_refl), app_nil_r in B1. subst p1.
    destruct (csvWriter_writeString w1 (encodeCSVField field)) as [w2 r2] eqn:E2.
    destruct (@writeString_any w1 w2 (encodeCSVField field) r2 E2)
      as [_ [_ [p2 [q2 [A2 [B2 C2]]]]]].
    assert (J : joinFields (map encodeCSVField (field :: rest)) =
                encodeCSVField field ++
                (match rest with _ :: _ => [comma] | [] => [] end) ++
                joinFields (map encodeCSVField rest)).
    { destruct rest; simpl; rewrite ?app_nil_r; reflexivity. }
    destruct r2 as [e2|].
    { inversion H. subst w' r.
      exists (sep ++ p2),
             (q2 ++ (match rest with _ :: _ => [comma] | [] => [] end) ++
              joinFields (map encodeCSVField rest)).
      split; [|split; [|discriminate]].
      - rewrite A2, A1, <- app_assoc. reflexivity.
      - rewrite J, B2, <- !app_assoc. reflexivity. }
    rewrite (C2 eq_refl), app_nil_r in B2. subst p2.
    destruct (IH _ _ _ _ H) as [p [q [A [B C]]]].
    exists (sep ++ encodeCSVField field ++ p), q. split; [|split].
    + rewrite A, A2, A1, <- !app_assoc. reflexivity.
    + rewrite J, <- !app_assoc. rewrite B.
      destruct rest; reflexivity.
    + exact C.
Qed.

Lemma csvWriter_Write_any (w w' : csvWriter) (record : list str)
    (r : option error) :
  csvWriter_Write w record = (w', r) ->
  exists p q,
    accepted (writer w') = accepted (writer w) ++ p
    /\ p ++ q = joinFields (map encodeCSVField record) ++ [LF]
    /\ (r = None -> q = []).
Proof.
  unfold csvWriter_Write.
  destruct (writeFields w 0 record) as [w1 r1] eqn:E.
  destruct (writeFields_any _ _ _ E) as [p [q [A [B C]]]].
  assert (B' : p ++ q = joinFields (map encodeCSVField record))
    by (rewrite B; destruct record; reflexivity).
  destruct r1 as [e|].
  - intros H. inversion H. subst. exists p, (q ++ [LF]).
    split; [exact A | split; [|discriminate]].
    rewrite app_assoc, B'. reflexivity.
  - intros H.
    destruct (@writeString_any w1 w' [LF] r H) as [_ [_ [p2 [q2 [A2 [B2 C2]]]]]].
    rewrite (C eq_refl), app_nil_r in B'. subst p.
    exists (joinFields (map encodeCSVField record) ++ p2), q2.
    split; [|split; [|exact C2]].
    + rewrite A2, A, <- app_assoc. reflexivity.
    + rewrite B2, <- app_assoc. reflexivity.
Qed.

(** *** Lines that fit the buffer *)

Lemma writeString_buffered (w : csvWriter) (value : str) :
  werr (writer w) = None ->
  (length (buf (writer w)) + length value <= bufSize)%nat ->
  exists w',
    csvWriter_writeString w value = (w', None)
    /\ wr (writer w') = wr (writer w)
    /\ sent (writer w') = sent (writer w)
    /\ buf (writer w') = buf (writer w) ++ value
    /\ werr (writer w') = None.
Proof.
  intros E L. unfold csvWriter_writeString.
  rewrite (@bufio_WriteString_buffered (writer w) value E L).
  eexists. split; [reflexivity|]. cbn [writer wr sent buf werr]. auto.
Qed.

Lemma writeFields_buffered (record : list str) :
  forall (w : csvWriter) (i : nat),
    werr (writer w) = None ->
    (length (buf (writer w)) +
     length ((match record, i with
              | _ :: _, S _ => [comma]
              | _, _ => []
              end) ++ joinFields (map encodeCSVField record)) <= bufSize)%nat ->
    exists w',
      writeFields w i record = (w', None)
      /\ wr (writer w') = wr (writer w)
      /\ sent (writer w') = sent (writer w)
      /\ buf (writer w') =
         buf (writer w) ++
         (match record, i with
          | _ :: _, S _ => [comma]
          | _, _ => []
          end) ++ joinFields (map encodeCSVField record)
      /\ werr (writer w') = None.
Proof.
  induction record as [|field rest IH]; intros w i E L; cbn [writeFields].
  - exists w. simpl. rewrite app_nil_r. auto.
  - set (sep := match i with S _ => [comma] | O => [] end) in *.
    change (match field :: rest, i with
            | _ :: _, S _ => [comma]
            | _, _ => []
            end) with sep in *.
    assert (J : joinFields (map encodeCSVField (field :: rest)) =
                encodeCSVField field ++
                (match rest, S i with _ :: _, S _ => [comma] | _, _ => [] end) ++
                joinFields (map encodeCSVField rest)).
    { destruct rest; simpl; rewrite ?app_nil_r; reflexivity. }
    rewrite J in *. rewrite !length_app in L.
    assert (S1 : exists w1,
               (if (0 <? i)%nat then csvWriter_writeString w [comma]
                else (w, None)) = (w1, None)
               /\ wr (writer w1) = wr (writer w)
               /\ sent (writer w1) = sent (writer w)
               /\ buf (writer w1) = buf (writer w) ++ sep
               /\ werr (writer w1) = None).
    { subst sep. destruct i; cbn [Nat.ltb Nat.leb].
      - exists w. rewrite app_nil_r. auto.
      - apply writeString_buffered; [exact E|]. simpl in *. lia. }
    destruct S1 as [w1 [E1 [W1 [T1 [B1 N1]]]]]. rewrite E1.
    destruct (@writeString_buffered w1 (encodeCSVField field) N1)
      as [w2 [E2 [W2 [T2 [B2 N2]]]]].
    { rewrite B1, length_app. lia. }
    rewrite E2.
    destruct (IH w2 (S i) N2) as [w' [E' [W' [T' [B' N']]]]].
    { rewrite B2, B1, !length_app. lia. }
    exists w'. split; [exact E'|].
    split; [congruence|]. split; [congruence|]. split; [|exact N'].
    rewrite B', B2, B1, <- !app_assoc. reflexivity.
Qed.

Lemma csvWriter_Write_buffered (w : csvWriter) (record : list str) :
  werr (writer w) = None ->
  (length (buf (writer w)) + length (encodedLine record) <= bufSize)%nat ->
  exists w',
    csvWriter_Write w record = (w', None)
    /\ wr (writer w') = wr (writer w)
    /\ sent (writer w') = sent (writer w)
    /\ buf (writer w') = buf (writer w) ++ encodedLine record
    /\ werr (writer w') = None.
Proof.
  intros E L. unfold csvWriter_Write, encodedLine in *.
  rewrite length_app in L.
  destruct (@writeFields_buffered record w 0 E) as [w1 [E1 [W1 [T1 [B1 N1]]]]].
  { destruct record; simpl in *; lia. }
  rewrite E1.
  destruct (@writeString_buffered w1 [LF] N1) as [w2 [E2 [W2 [T2 [B2 N2]]]]].
  { rewrite B1, !length_app. destruct record; simpl in *; lia. }
  exists w2. split; [exact E2|].
  split; [congruence|]. split; [congruence|]. split; [|exact N2].
  rewrite B2, B1. destruct record; simpl; rewrite <- ?app_assoc; reflexivity.
Qed.

(** X7: [csvWriter.Write] hands its writer the start of the record's line:
    the whole line when it returns no error, and some prefix of it when it
    returns one; the bytes handed over are in the file or still in the
    buffer.  A line that fits the free room of the buffer is only buffered:
    [Write] returns no error and the file gets nothing. *)
Theorem X7_write_appends_line_prefix (w w' : csvWriter) (record : list str)
    (r : option error) :
  csvWriter_Write w record = (w', r) ->
  (exists p q,
     accepted (writer w') = accepted (writer w) ++ p
     /\ p ++ q = joinFields (map encodeCSVField record) ++ [LF]
     /\ (r = None -> q = []))
  /\ (werr (writer w) = None ->
      (length (buf (writer w)) + length (encodedLine record) <= bufSize)%nat ->
      r = None /\ sent (writer w') = sent (writer w)).
Proof.
  intros H. split; [apply (csvWriter_Write_any _ _ H)|].
  intros E L.
  destruct (@csvWriter_Write_buffered w record E L) as [w2 [E2 [_ [T _]]]].
  rewrite E2 in H. inversion H; subst. auto.
Qed.

Lemma X7_witness :
  (let out := csvWriter_Write (newCSVWriter (fullAfter 3)) [lit "a.jpg"; lit "x"] in
   snd out = None
   /\ sent (writer (fst out)) = []
   /\ buf (writer (fst out)) = lit "a.jpg,x" ++ [LF])
  /\ (let out := csvWriter_Write (newCSVWriter (fullAfter 3))
                   [repeat "a"%char 4097] in
      snd out = Some (os_error 28)
      /\ exists p q,
           accepted (writer (fst out)) = [] ++ p
           /\ p ++ q = repeat "a"%char 4097 ++ [LF]
           /\ p = lit "aaa").
Proof.
  split.
  - intros out.
    destruct (@X7_write_appends_line_prefix (newCSVWriter (fullAfter 3)) (fst out)
                [lit "a.jpg"; lit "x"] (snd out) eq_refl) as [_ B].
    destruct B as [B1 B2]; [reflexivity | vm_compute; lia |].
    split; [exact B1|]. split; [exact B2|]. reflexivity.
  - intros out.
    destruct (@X7_write_appends_line_prefix (newCSVWriter (fullAfter 3)) (fst out)
                [repeat "a"%char 4097] (snd out) eq_refl)
      as [[p [q [A [B _]]]] _].
    split; [vm_compute; reflexivity|].
    exists p, q. split; [exact A|]. split; [exact B|].
    vm_compute in A. symmetry. exact A.
Defined.

(** ** More on apply *)

Lemma parseCSVLine_error (line : str) (e : error) :
  parseCSVLine line = Err e -> e = unterminated.
Proof.
  unfold parseCSVLine.
  destruct (scanLine line [] [] false) as [[fs f] [|]]; intros H; inversion H.
  reflexivity.
Qed.

Lemma andThen_finished {W : Type} (w : W) (next : W -> Outcome W) :
  andThen (finished w) next = next w.
Proof. unfold andThen, finished. simpl. destruct (next w). reflexivity. Qed.

Lemma andThen_logCall {W : Type} (c : str * str) (o : Outcome W)
    (next : W -> Outcome W) :
  andThen (logCall c o) next = logCall c (andThen o next).
Proof.
  destruct o as [cs a [e|]]; reflexivity.
Qed.

Lemma andThen_ext {W : Type} (o : Outcome W) (k1 k2 : W -> Outcome W) :
  (forall w, k1 w = k2 w) -> andThen o k1 = andThen o k2.
Proof. intros H. unfold andThen. rewrite H. reflexivity. Qed.

Section ApplyMore.
Context {rt : GoRuntime} {env : JpegEnv}.

(** X9: [headerIndex] returns -1 or a valid position in the header, so the
    two column positions that the apply loop works with are never negative
    and the header has a cell at each of them. *)
Theorem X9_headerIndex_in_range (header : list str) (name : str) :
  headerIndex header name = (-1)%Z
  \/ (0 <= headerIndex header name < Z.of_nat (length header))%Z.
Proof.
  unfold headerIndex.
  destruct (headerIndexFrom_cases name header 0) as [[A _] | [i [A [B _]]]].
  - left. exact A.
  - right. rewrite B. lia.
Qed.

Lemma applyRows_tok (dir : str) (fi ti : Z) (lines : list str) (tok tok' : str)
    (w : World) :
  applyRows dir fi ti (readerOver lines tok) w =
  applyRows dir fi ti (readerOver lines tok') w.
Proof.
  rewrite (applyRows_unfold dir fi ti (readerOver lines tok)).
  rewrite (applyRows_unfold dir fi ti (readerOver lines tok')).
  destruct lines as [|raw rest].
  - rewrite !Read_eof. reflexivity.
  - destruct (Z_lt_le_dec (Z.of_nat (length raw)) maxScanTokenSize) as [L | G].
    + rewrite !Read_next by assumption. reflexivity.
    + rewrite !Read_too_long by assumption. reflexivity.
Qed.

Lemma applyRows_facts (dir : str) (fi ti : Z) (n : nat) :
  forall (reader : csvReader) (w : World),
    (length (pending (scanner reader)) <= n)%nat ->
    after (applyRows dir fi ti reader w) =
      replay w (calls (applyRows dir fi ti reader w))
    /\ (length (calls (applyRows dir fi ti reader w))
        <= length (pending (scanner reader)))%nat
    /\ (failure (applyRows dir fi ti reader w) = None ->
        allSucceed w (calls (applyRows dir fi ti reader w))).
Proof.
  induction n as [|n IH]; intros reader w Hlen;
    rewrite applyRows_unfold;
    destruct (csvReader_Read reader) as [r' [record|e]] eqn:E;
    try (destruct e; simpl; repeat split; (reflexivity || lia || auto));
    pose proof (Read_shrinks _ E) as Hs; try lia.
  assert (R : forall w',
             after (applyRows dir fi ti r' w') =
               replay w' (calls (applyRows dir fi ti r' w'))
             /\ (length (calls (applyRows dir fi ti r' w'))
                 <= length (pending (scanner r')))%nat
             /\ (failure (applyRows dir fi ti r' w') = None ->
                 allSucceed w' (calls (applyRows dir fi ti r' w'))))
    by (intros w'; apply IH; lia).
  assert (Skip : after (applyRows dir fi ti r' w) =
                   replay w (calls (applyRows dir fi ti r' w))
                 /\ (length (calls (applyRows dir fi ti r' w))
                     <= length (pending (scanner reader)))%nat
                 /\ (failure (applyRows dir fi ti r' w) = None ->
                     allSucceed w (calls (applyRows dir fi ti r' w)))).
  { destruct (R w) as [A [B C]]. repeat split; [exact A | lia | exact C]. }
  destruct (fi >=? Z.of_nat (length record))%Z; [exact Skip|].
  cbv zeta.
  destruct (str_eqb (strings_TrimSpace (nth (Z.to_nat fi) record [])) []);
    [exact Skip|].
  match goal with |- context [upsertTitle ?a ?b ?c] =>
    destruct (upsertTitle a b c) as [w' [err|]] eqn:U end.
  - cbn [calls after failure]. unfold replay. cbn [fold_left fst snd length].
    rewrite U. repeat split; [lia | discriminate].
  - destruct (R w') as [A [B C]].
    unfold logCall. cbn [calls after failure]. unfold replay in *.
    cbn [fold_left fst snd length allSucceed]. rewrite U. cbn [fst snd].
    repeat split; [exact A | lia | exact (C H)].
Qed.

(** X10: whatever the sidecar holds, the files after [applyTitlesFromCSV]
    are those obtained by making its [upsertTitle] calls in order, so
    nothing else changes a file; when it returns no error every one of
    these calls succeeded; and it makes at most one call for each line
    after the header line. *)
Theorem X10_apply_changes_files_by_its_calls (w : World) (dir : str) :
  after (applyTitlesFromCSV w dir) = replay w (calls (applyTitlesFromCSV w dir))
  /\ (failure (applyTitlesFromCSV w dir) = None ->
      allSucceed w (calls (applyTitlesFromCSV w dir)))
  /\ (forall file,
        os_Open w (filepath_Join (filepath_Clean dir) csvFilename) = Ok file ->
        (length (calls (applyTitlesFromCSV w dir))
         <= length (physicalLines file) - 1)%nat).
Proof.
  unfold applyTitlesFromCSV.
  destruct (os_Open w (filepath_Join (filepath_Clean dir) csvFilename))
    as [file|e] eqn:O.
  2: { simpl. split; [reflexivity | split; [discriminate | intros file H; inversion H]]. }
  unfold applyTable.
  destruct (csvReader_Read (newCSVReader file)) as [r' [header|e]] eqn:E.
  2: { simpl. split; [reflexivity | split; [discriminate | intros; lia]]. }
  pose proof (Read_shrinks _ E) as Hs.
  change (pending (scanner (newCSVReader file))) with (physicalLines file) in Hs.
  destruct ((headerIndex header (lit "filename") =? -1)%Z
            || (headerIndex header (lit "title") =? -1)%Z).
  { simpl. split; [reflexivity | split; [discriminate | intros; lia]]. }
  destruct (@applyRows_facts (filepath_Clean dir)
              (headerIndex header (lit "filename"))
              (headerIndex header (lit "title"))
              (length (pending (scanner r'))) r' w (le_n _)) as [A [B C]].
  split; [exact A | split; [exact C|]].
  intros file' H. inversion H. subst file'. lia.
Qed.

End ApplyMore.

Lemma X10_witness :
  failure (applyTitlesFromCSV Sample.shortRowFiles (lit "/d")) = None
  /\ allSucceed Sample.shortRowFiles
       (calls (applyTitlesFromCSV Sample.shortRowFiles (lit "/d")))
  /\ (length (calls (applyTitlesFromCSV Sample.shortRowFiles (lit "/d"))) <= 1)%nat.
Proof.
  destruct (@X10_apply_changes_files_by_its_calls asciiRuntime toyEnv
              Sample.shortRowFiles (lit "/d")) as [_ [A B]].
  split; [reflexivity | split; [exact (A eq_refl)|]].
  exact (B _ eq_refl).
Defined.

(** ** Lines applied in order *)

Section ApplyLines.
Context {rt : GoRuntime} {env : JpegEnv}.
Variables (dir : str) (fi ti : Z).

Lemma applyRows_lines_app (l1 l2 : list str) :
  forall (tok : str) (w : World),
    applyRows dir fi ti (readerOver (l1 ++ l2) tok) w =
    andThen (applyRows dir fi ti (readerOver l1 tok) w)
            (applyRows dir fi ti (readerOver l2 tok)).
Proof.
  induction l1 as [|raw rest IH]; intros tok w.
  - rewrite (applyRows_unfold dir fi ti (readerOver [] tok)), Read_eof.
    rewrite andThen_finished. reflexivity.
  - cbn [app].
    rewrite (applyRows_unfold dir fi ti (readerOver (raw :: rest ++ l2) tok)).
    rewrite (applyRows_unfold dir fi ti (readerOver (raw :: rest) tok)).
    destruct (Z_lt_le_dec (Z.of_nat (length raw)) maxScanTokenSize) as [L | G].
    2: { rewrite !Read_too_long by assumption. reflexivity. }
    rewrite !Read_next by assumption.
    assert (Go : forall w',
               applyRows dir fi ti (readerOver (rest ++ l2) (dropCR raw)) w' =
               andThen (applyRows dir fi ti (readerOver rest (dropCR raw)) w')
                       (applyRows dir fi ti (readerOver l2 tok))).
    { intros w'. rewrite IH. apply andThen_ext. intros w''. apply applyRows_tok. }
    destruct (parseCSVLine (dropCR (dropCR raw))) as [record|e] eqn:P.
    2: { rewrite (parseCSVLine_error _ P). reflexivity. }
    destruct (fi >=? Z.of_nat (length record))%Z; [apply Go|].
    cbv zeta.
    destruct (str_eqb (strings_TrimSpace (nth (Z.to_nat fi) record [])) []);
      [apply Go|].
    match goal with |- context [upsertTitle ?a ?b ?c] =>
      destruct (upsertTitle a b c) as [w' [err|]] end; [reflexivity|].
    rewrite andThen_logCall, Go. reflexivity.
Qed.

Lemma applyRows_encoded (records : list (list str)) :
  (forall record, In record records -> readableRecord record) ->
  forall (tok : str) (w : World),
    applyRows dir fi ti
      (readerOver (physicalLines (concat (map encodedLine records))) tok) w =
    applyRecords dir fi ti records w.
Proof.
  induction records as [|record records IH]; intros H tok w.
  - cbn [map concat physicalLines applyRecords].
    rewrite applyRows_unfold, Read_eof. reflexivity.
  - destruct (H record (or_introl eq_refl)) as [Hne [Hlf Hlen]].
    assert (IH' : forall tok w,
               applyRows dir fi ti
                 (readerOver (physicalLines (concat (map encodedLine records))) tok) w =
               applyRecords dir fi ti records w)
      by (apply IH; intros r Hr; apply H; right; assumption).
    cbn [map concat applyRecords].
    rewrite applyRows_unfold, Read_encodedLine by assumption.
    destruct (fi >=? Z.of_nat (length record))%Z; [apply IH'|].
    cbv zeta.
    destruct (str_eqb (strings_TrimSpace (nth (Z.to_nat fi) record [])) []);
      [apply IH'|].
    match goal with |- context [upsertTitle ?a ?b ?c] =>
      destruct (upsertTitle a b c) as [w' [err|]] end; [reflexivity|].
    rewrite IH'. reflexivity.
Qed.

Lemma applyRows_continues (reader reader' : csvReader) (record : list str)
    (w : World) :
  csvReader_Read reader = (reader', Ok record) ->
  (forall w', failure (applyRows dir fi ti reader' w') <> None) ->
  failure (applyRows dir fi ti reader w) <> None.
Proof.
  intros E H. rewrite applyRows_unfold, E.
  destruct (fi >=? Z.of_nat (length record))%Z; [apply H|].
  cbv zeta.
  destruct (str_eqb (strings_TrimSpace (nth (Z.to_nat fi) record [])) []);
    [apply H|].
  match goal with |- context [upsertTitle ?a ?b ?c] =>
    destruct (upsertTitle a b c) as [w' [err|]] end; [discriminate|].
  apply H.
Qed.

Lemma applyRows_broken (records : list (list str)) :
  (exists record, In record records /\ exists f, In f record /\ In LF f) ->
  forall (tok : str) (w : World),
    failure (applyRows dir fi ti
               (readerOver (physicalLines (concat (map encodedLine records))) tok) w)
    <> None.
Proof.
  induction records as [|record records IH]; intros [bad [Hbad Hf]] tok w;
    [destruct Hbad|].
  cbn [map concat].
  destruct (Exists_dec (fun f => In LF f) record
              (fun f => in_dec ascii_dec LF f)) as [Y | N].
  - apply Exists_exists in Y.
    destruct (@Read_broken_line record (concat (map encodedLine records)) tok Y)
      as [r' [e [R Ne]]].
    rewrite (@applyRows_read_error rt env dir fi ti _ _ _ w R Ne). discriminate.
  - assert (Hlf : forall f, In f record -> ~ In LF f).
    { intros f I L. apply N, Exists_exists. exists f. split; assumption. }
    assert (Tail : forall tok' w',
               failure (applyRows dir fi ti
                          (readerOver
                             (physicalLines (concat (map encodedLine records))) tok') w')
               <> None).
    { apply IH. destruct Hbad as [<- | I].
      - exfalso. destruct Hf as [f [I L]]. exact (Hlf f I L).
      - exists bad. split; assumption. }
    destruct record as [|f0 record].
    + change (encodedLine [] ++ concat (map encodedLine records))
        with ([] ++ LF :: concat (map encodedLine records)).
      rewrite physicalLines_line by (intros []).
      eapply applyRows_continues with (record := [[]]).
      * rewrite Read_next by (unfold maxScanTokenSize; simpl; lia). reflexivity.
      * intros w'. apply Tail.
    + destruct (Z_lt_le_dec
                  (Z.of_nat (length (joinFields (map encodeCSVField (f0 :: record)))))
                  maxScanTokenSize) as [L | G].
      * eapply applyRows_continues.
        -- apply Read_encodedLine; [discriminate | assumption | assumption].
        -- intros w'. apply Tail.
      * rewrite applyRows_unfold, Read_long_encodedLine by assumption.
        discriminate.
Qed.

End ApplyLines.

Lemma physicalLines_nil (input : str) : physicalLines input = [] -> input = [].
Proof.
  destruct input as [|c input]; [reflexivity|]. cbn [physicalLines].
  destruct (Ascii.eqb c LF); [discriminate|].
  destruct (physicalLines input); discriminate.
Qed.

Lemma physicalLines_app (l second : str) :
  physicalLines ((l ++ [LF]) ++ second) =
  physicalLines (l ++ [LF]) ++ physicalLines second.
Proof.
  induction l as [|c l IH].
  - reflexivity.
  - cbn [app physicalLines]. destruct (Ascii.eqb c LF).
    + rewrite IH. reflexivity.
    + rewrite IH.
      destruct (physicalLines (l ++ [LF])) as [|h t] eqn:E; [|reflexivity].
      apply physicalLines_nil in E. destruct l; discriminate.
Qed.

Section ApplyTables.
Context {rt : GoRuntime} {env : JpegEnv}.

(** X11: the loop applies the lines of its input in order.  When the input
    is cut after a line feed, the run on the whole is the run on the first
    part followed, if that did not fail, by the run on the second part from
    the files it left; a failure in the first part is final, and nothing of
    the second part is looked at. *)
Theorem X11_apply_in_order (dir : str) (fi ti : Z) (first second : str)
    (w : World) :
  first = [] \/ (exists l, first = l ++ [LF]) ->
  applyRows dir fi ti (newCSVReader (first ++ second)) w =
  andThen (applyRows dir fi ti (newCSVReader first) w)
          (applyRows dir fi ti (newCSVReader second)).
Proof.
  intros H. rewrite !newCSVReader_readerOver.
  assert (E : physicalLines (first ++ second) =
              physicalLines first ++ physicalLines second).
  { destruct H as [-> | [l ->]]; [reflexivity | apply physicalLines_app]. }
  rewrite E, applyRows_lines_app. reflexivity.
Qed.

Lemma applyTable_encoded (w : World) (dir : str) (header : list str)
    (records : list (list str)) :
  readableRecord header ->
  headerIndex header (lit "filename") <> (-1)%Z ->
  headerIndex header (lit "title") <> (-1)%Z ->
  (forall record, In record records -> readableRecord record) ->
  applyTable w dir (tableFile header records) =
  applyRecords dir (headerIndex header (lit "filename"))
    (headerIndex header (lit "title")) records w.
Proof.
  intros [Hne [Hlf Hlen]] Hf Ht H. unfold applyTable, tableFile.
  rewrite newCSVReader_readerOver, Read_encodedLine by assumption.
  apply Z.eqb_neq in Hf, Ht. rewrite Hf, Ht. cbn [orb].
  apply applyRows_encoded. assumption.
Qed.

(** X12: on a sidecar whose header and rows can be read back, apply does to
    the files what the loop body does on the records themselves, taken in
    order with the header's two column positions: encoding and decoding
    leave no trace. *)
Theorem X12_apply_table_as_records (w : World) (dir : str) (header : list str)
    (records : list (list str)) :
  readableRecord header ->
  headerIndex header (lit "filename") <> (-1)%Z ->
  headerIndex header (lit "title") <> (-1)%Z ->
  (forall record, In record records -> readableRecord record) ->
  applyTable w dir (tableFile header records) =
  applyRecords dir (headerIndex header (lit "filename"))
    (headerIndex header (lit "title")) records w.
Proof. apply applyTable_encoded. Qed.

(** X14: when some field of some row holds a line feed, apply on the table
    as written never succeeds: it fails at that row at the latest, since
    the row's first physical line cannot be decoded. *)
Theorem X14_line_feed_makes_apply_fail (w : World) (dir : str)
    (header : list str) (records : list (list str)) :
  readableRecord header ->
  headerIndex header (lit "filename") <> (-1)%Z ->
  headerIndex header (lit "title") <> (-1)%Z ->
  (exists record, In record records /\ exists f, In f record /\ In LF f) ->
  failure (applyTable w dir (tableFile header records)) <> None.
Proof.
  intros [Hne [Hlf Hlen]] Hf Ht H. unfold applyTable, tableFile.
  rewrite newCSVReader_readerOver, Read_encodedLine by assumption.
  apply Z.eqb_neq in Hf, Ht. rewrite Hf, Ht. cbn [orb].
  apply applyRows_broken. assumption.
Qed.

End ApplyTables.

Lemma sample_header_readable : readableRecord [lit "filename"; lit "title"].
Proof.
  split; [discriminate | split].
  - intros f [<- | [<- | []]]; vm_compute; intuition discriminate.
  - vm_compute. reflexivity.
Qed.

Lemma X11_witness :
  applyRows (lit "/d") 0 1
    (newCSVReader ((lit "a.jpg,New" ++ [LF]) ++ lit "B.JPEG,Other")) Sample.files =
  andThen
    (applyRows (lit "/d") 0 1 (newCSVReader (lit "a.jpg,New" ++ [LF])) Sample.files)
    (applyRows (lit "/d") 0 1 (newCSVReader (lit "B.JPEG,Other"))).
Proof.
  apply (@X11_apply_in_order asciiRuntime toyEnv).
  right. exists (lit "a.jpg,New"). reflexivity.
Defined.

Lemma X12_witness :
  let header := [lit "filename"; lit "title"] in
  let records := [[lit "a.jpg"; lit "Sunset, 2024"]] in
  applyTable Sample.files (lit "/d") (tableFile header records) =
  applyRecords (lit "/d") 0 1 records Sample.files.
Proof.
  intros header records.
  apply (@X12_apply_table_as_records asciiRuntime toyEnv Sample.files (lit "/d")
           header records).
  - exact sample_header_readable.
  - vm_compute. discriminate.
  - vm_compute. discriminate.
  - intros record [<- | []]. split; [discriminate | split].
    + intros f [<- | [<- | []]]; vm_compute; intuition discriminate.
    + vm_compute. reflexivity.
Defined.

Lemma X14_witness :
  let header := [lit "filename"; lit "title"] in
  let records := [[lit "a.jpg"; lit "line one" ++ [LF] ++ lit "line two"]] in
  failure (applyTable Sample.files (lit "/d") (tableFile header records)) <> None.
Proof.
  intros header records.
  apply (@X14_line_feed_makes_apply_fail asciiRuntime toyEnv Sample.files (lit "/d")
           header records).
  - exact sample_header_readable.
  - vm_compute. discriminate.
  - vm_compute. discriminate.
  - exists [lit "a.jpg"; lit "line one" ++ [LF] ++ lit "line two"].
    split; [left; reflexivity|].
    exists (lit "line one" ++ [LF] ++ lit "line two").
    split; [right; left; reflexivity|].
    vm_compute. auto 20.
Defined.

(** ** More on scan *)

Lemma Forall2_combine {A B : Type} (P : A -> B -> Prop) (l1 : list A)
    (l2 : list B) :
  Forall2 P l1 l2 ->
  forall a b, In (a, b) (combine l1 l2) -> P a b /\ In a l1.
Proof.
  induction 1 as [|x y l1 l2 Hxy HF IH]; intros a b I; [destruct I|].
  destruct I as [E | I].
  - inversion E. subst. split; [assumption | left; reflexivity].
  - destruct (IH a b I). split; [assumption | right; assumption].
Qed.

Section ScanMore.
Context {rt : GoRuntime} {env : JpegEnv}.

Lemma scanDirectory_sidecar (w : World) (dir : str) :
  scanFailure (scanDirectory w dir) = None ->
  exists (entries : list DirEntry) (absDir : str) (out : csvWriter)
         (titles : list str),
    os_ReadDir w (filepath_Clean dir) = Ok entries
    /\ filepath_Abs (filepath_Clean dir) = Ok absDir
    /\ sidecar (scanDirectory w dir) = Some out
    /\ Forall2 (fun entry title =>
                  readTitle
                    (fst (os_Create w
                            (filepath_Join (filepath_Clean dir) csvFilename)))
                    (filepath_Join absDir (Name entry)) = Ok title)
               (filter qualifies entries) titles
    /\ accepted (writer out) =
       tableFile [lit "filename"; lit "title"]
         (scanRows (filter qualifies entries) titles)
    /\ scanned (scanDirectory w dir) =
       file_Close
         (fst (os_Create w (filepath_Join (filepath_Clean dir) csvFilename)))
         (filepath_Join (filepath_Clean dir) csvFilename)
         (accepted (writer out)).
Proof.
  unfold scanDirectory.
  destruct (os_ReadDir w (filepath_Clean dir)) as [entries|e] eqn:RD;
    [|intros H; inversion H].
  destruct (os_Create w (filepath_Join (filepath_Clean dir) csvFilename))
    as [w1 [file|e]] eqn:CR; [|intros H; inversion H].
  destruct (csvWriter_Write (newCSVWriter file) [lit "filename"; lit "title"])
    as [wh [e|]] eqn:WH; [intros H; inversion H|].
  destruct (filepath_Abs (filepath_Clean dir)) as [absDir|e] eqn:AB;
    [|intros H; inversion H].
  destruct (scanEntries w1 absDir wh entries) as [ws [e|]] eqn:SE;
    [intros H; inversion H|].
  destruct (csvWriter_Flush ws) as [wf [e|]] eqn:FL; [intros H; inversion H|].
  intros _. cbn [sidecar scanned fst].
  apply csvWriter_Write_ok in WH.
  destruct (scanEntries_ok _ _ _ _ SE) as [titles [F A]].
  destruct (csvWriter_Flush_ok _ FL) as [FS [FB _]].
  assert (FA : accepted (writer wf) = accepted (writer ws))
    by (unfold accepted at 1; rewrite FS, FB, app_nil_r; reflexivity).
  exists entries, absDir, wf, titles.
  split; [reflexivity|]. split; [reflexivity|]. split; [reflexivity|].
  split; [exact F|]. split.
  - rewrite FA, A, WH. reflexivity.
  - unfold closeFile. rewrite FA, FS. reflexivity.
Qed.

(** X13: apply reads back what scan wrote.  After a scan without error,
    and when each name and caption can be read back, apply on the sidecar's
    bytes (from any files and directory) does what the loop body does on
    the records (name, caption) of the qualifying entries, in listing
    order, with the filename in column 0 and the title in column 1; and when
    the file that scan closed reads back as the bytes it took, so does
    [applyTitlesFromCSV] on the files that scan left, for the same
    directory. *)
Theorem X13_apply_reads_what_scan_wrote (w : World) (dir : str)
    (entries : list DirEntry) (absDir : str) (w2 : World) (dir2 : str) :
  strings_EqualFold (strings_TrimSpace (lit "filename")) (lit "filename") = true ->
  strings_EqualFold (strings_TrimSpace (lit "title")) (lit "title") = true ->
  strings_EqualFold (strings_TrimSpace (lit "filename")) (lit "title") = false ->
  os_ReadDir w (filepath_Clean dir) = Ok entries ->
  filepath_Abs (filepath_Clean dir) = Ok absDir ->
  scanFailure (scanDirectory w dir) = None ->
  (forall entry title,
     In entry entries ->
     readTitle
       (fst (os_Create w (filepath_Join (filepath_Clean dir) csvFilename)))
       (filepath_Join absDir (Name entry)) = Ok title ->
     readableRecord [Name entry; title]) ->
  exists (out : csvWriter) (titles : list str),
    sidecar (scanDirectory w dir) = Some out
    /\ Forall2 (fun entry title =>
                  readTitle
                    (fst (os_Create w
                            (filepath_Join (filepath_Clean dir) csvFilename)))
                    (filepath_Join absDir (Name entry)) = Ok title)
               (filter qualifies entries) titles
    /\ applyTable w2 dir2 (accepted (writer out)) =
       applyRecords dir2 0 1 (scanRows (filter qualifies entries) titles) w2
    /\ ((forall bytes : str,
           os_Open
             (file_Close
                (fst (os_Create w
                        (filepath_Join (filepath_Clean dir) csvFilename)))
                (filepath_Join (filepath_Clean dir) csvFilename) bytes)
             (filepath_Join (filepath_Clean dir) csvFilename) = Ok bytes) ->
        applyTitlesFromCSV (scanned (scanDirectory w dir)) dir =
        applyRecords (filepath_Clean dir) 0 1
          (scanRows (filter qualifies entries) titles)
          (scanned (scanDirectory w dir))).
Proof.
  intros H1 H2 H4 RD AB OK Hread.
  destruct (scanDirectory_sidecar w dir OK)
    as [entries' [absDir' [out [titles [RD' [AB' [S [F [A C]]]]]]]]].
  rewrite RD in RD'. inversion RD'. subst entries'.
  rewrite AB in AB'. inversion AB'. subst absDir'.
  exists out, titles. split; [exact S | split; [exact F|]].
  destruct (headerIndex_filename_title H1 H2 H4) as [I0 I1].
  assert (T : forall (w3 : World) (dir3 : str),
             applyTable w3 dir3 (accepted (writer out)) =
             applyRecords dir3 0 1
               (scanRows (filter qualifies entries) titles) w3).
  { intros w3 dir3. rewrite A, applyTable_encoded.
    - rewrite I0, I1. reflexivity.
    - split; [discriminate | split].
      + intros f [<- | [<- | []]]; vm_compute; intuition discriminate.
      + vm_compute. reflexivity.
    - rewrite I0. discriminate.
    - rewrite I1. discriminate.
    - intros record I. unfold scanRows in I. apply in_map_iff in I.
      destruct I as [[entry title] [<- I]].
      destruct (Forall2_combine F _ _ I) as [R Q].
      apply Hread; [|exact R]. apply filter_In in Q. tauto. }
  split; [apply T|].
  intros Law. unfold applyTitlesFromCSV.
  rewrite C at 1. rewrite Law. apply T.
Qed.

Lemma scanEntries_app (w : World) (absDir : str) (pre post : list DirEntry) :
  forall cw : csvWriter,
    scanEntries w absDir cw (pre ++ post) =
    match scanEntries w absDir cw pre with
    | (cw1, None) => scanEntries w absDir cw1 post
    | (cw1, Some err) => (cw1, Some err)
    end.
Proof.
  induction pre as [|entry pre IH]; intros cw.
  - simpl. destruct (scanEntries w absDir cw post) as [cw1 [e|]]; reflexivity.
  - cbn [app]. destruct (qualifies entry) eqn:Q.
    + rewrite !scanEntries_row by assumption.
      destruct (readTitle w (filepath_Join absDir (Name entry)));
        [|reflexivity].
      destruct (csvWriter_Write cw [Name entry; a]) as [cw1 [e|]];
        [reflexivity | apply IH].
    + rewrite !scanEntries_skip by assumption. apply IH.
Qed.

(** X15: the scan loop takes the entries in listing order and stops at the
    first failure: on a listing cut in two, it is the loop on the first
    part followed, when that did not fail, by the loop on the second part
    with the writer it left; after a failure in the first part no entry of
    the second is read and nothing more is written. *)
Theorem X15_scan_in_order (w : World) (absDir : str) (cw : csvWriter)
    (pre post : list DirEntry) :
  scanEntries w absDir cw (pre ++ post) =
  match scanEntries w absDir cw pre with
  | (cw1, None) => scanEntries w absDir cw1 post
  | (cw1, Some err) => (cw1, Some err)
  end.
Proof. apply scanEntries_app. Qed.

(** X16: when the scan loop fails, it fails at a qualifying entry: either
    its caption could not be read, and the error is [readTitle]'s own, or
    its row could not be written, and the error names the entry.  The
    captions of all qualifying entries before it were read, and their rows
    were handed to the sidecar's writer, complete and in order, followed in
    the second case by the start of the failing row's line and in the first
    case by nothing.  What was handed to the writer is in the file or still
    in the buffer; [scanDirectory] does not flush on this return. *)
Theorem X16_scan_failure_point (w : World) (absDir : str)
    (entries : list DirEntry) :
  forall (cw cw' : csvWriter) (err : error),
    scanEntries w absDir cw entries = (cw', Some err) ->
    exists (pre : list DirEntry) (entry : DirEntry) (post : list DirEntry)
           (titles : list str) (partial : str),
      entries = pre ++ entry :: post
      /\ qualifies entry = true
      /\ Forall2 (fun e title =>
                    readTitle w (filepath_Join absDir (Name e)) = Ok title)
                 (filter qualifies pre) titles
      /\ accepted (writer cw') =
         accepted (writer cw) ++
         concat (map encodedLine (scanRows (filter qualifies pre) titles)) ++
         partial
      /\ ((readTitle w (filepath_Join absDir (Name entry)) = Err err
           /\ partial = [])
          \/ (exists title e rest,
                readTitle w (filepath_Join absDir (Name entry)) = Ok title
                /\ err = Errorf_s_w "write row for" (Name entry) e
                /\ partial ++ rest = encodedLine [Name entry; title])).
Proof.
  induction entries as [|entry entries IH]; intros cw cw' err H;
    [inversion H|].
  destruct (qualifies entry) eqn:Q.
  - rewrite scanEntries_row in H by assumption.
    destruct (readTitle w (filepath_Join absDir (Name entry))) as [title|e] eqn:R.
    + destruct (csvWriter_Write cw [Name entry; title]) as [cw1 [e|]] eqn:W.
      * inversion H. subst.
        pose proof W as W2. apply csvWriter_Write_any in W2.
        destruct W2 as [p [q [A [B _]]]].
        exists [], entry, entries, [], p.
        split; [reflexivity|]. split; [assumption|].
        split; [constructor|]. split; [exact A|].
        right. exists title, e, q.
        split; [exact R | split; [reflexivity | exact B]].
      * destruct (IH _ _ _ H)
          as [pre [e' [post [titles [partial [E [Q' [F [A D]]]]]]]]].
        apply csvWriter_Write_ok in W.
        exists (entry :: pre), e', post, (title :: titles), partial.
        cbn [filter]. rewrite Q. subst entries.
        split; [reflexivity|]. split; [assumption|].
        split; [constructor; assumption|]. split; [|exact D].
        rewrite A, W. unfold scanRows. cbn [combine map concat fst snd].
        rewrite <- !app_assoc. reflexivity.
    + inversion H. subst.
      exists [], entry, entries, [], [].
      split; [reflexivity|]. split; [assumption|].
      split; [constructor|]. split; [simpl; rewrite app_nil_r; reflexivity|].
      left. split; [exact R | reflexivity].
  - rewrite scanEntries_skip in H by assumption.
    destruct (IH _ _ _ H)
      as [pre [e' [post [titles [partial [E [Q' [F [A D]]]]]]]]].
    exists (entry :: pre), e', post, titles, partial.
    cbn [filter]. rewrite Q. subst entries.
    split; [reflexivity|]. split; [assumption|].
    split; [assumption|]. split; assumption.
Qed.

(** X17: [upsertTitle] leaves the files as they were unless the container
    parsed, the EXIF builder was made, the caption was set in it and the
    builder was attached to the structure: the image is opened for writing
    only after all of that went well. *)
Theorem X17_upsert_touches_file_last (w : World) (path title : str) :
  fst (upsertTitle w path title) = w
  \/ exists sl rootIb rootIb' sl',
       mp_ParseFile w path = Ok sl
       /\ sl_ConstructExifBuilder sl = Ok rootIb
       /\ ib_SetStandardWithName rootIb (lit "ImageDescription") title =
          (rootIb', None)
       /\ sl_SetExif sl rootIb' = (sl', None).
Proof.
  unfold upsertTitle.
  destruct (mp_ParseFile w path) as [sl|e] eqn:P; [|left; reflexivity].
  destruct (sl_ConstructExifBuilder sl) as [rootIb|e] eqn:C; [|left; reflexivity].
  destruct (ib_SetStandardWithName rootIb (lit "ImageDescription") title)
    as [rootIb' [e|]] eqn:S; [left; reflexivity|].
  destruct (sl_SetExif sl rootIb') as [sl' [e|]] eqn:X; [left; reflexivity|].
  right. exists sl, rootIb, rootIb', sl'.
  split; [reflexivity | split; [exact C | split; [exact S | exact X]]].
Qed.

(** X18: [main] ends with the usage text and status 2 exactly when the
    scan flags and the apply flags are both given or both absent, or no
    directory is given; otherwise it runs the one operation chosen, on that
    directory, and ends with status 1 when the operation returned an error
    and with status 0 when it did not. *)
Theorem X18_main_exit_status (scanLong scanShort applyLong applyShort : bool)
    (arg0 : str) (w : World) :
  let doScan := scanLong || scanShort in
  let doApply := applyLong || applyShort in
  let exit := main scanLong scanShort applyLong applyShort arg0 w in
  (exitStatus exit = 2%Z <-> doScan = doApply \/ arg0 = [])
  /\ (doScan = true -> doApply = false -> arg0 <> [] ->
      exit = match scanFailure (scanDirectory w arg0) with
             | Some err => ExitFatal (scanned (scanDirectory w arg0)) err
             | None => ExitOk (scanned (scanDirectory w arg0))
             end)
  /\ (doScan = false -> doApply = true -> arg0 <> [] ->
      exit = match failure (applyTitlesFromCSV w arg0) with
             | Some err => ExitFatal (after (applyTitlesFromCSV w arg0)) err
             | None => ExitOk (after (applyTitlesFromCSV w arg0))
             end).
Proof.
  intros doScan doApply exit. subst exit. unfold main.
  fold doScan. fold doApply.
  assert (N : arg0 <> [] -> str_eqb arg0 [] = false).
  { intros H. destruct (str_eqb arg0 []) eqn:E; [|reflexivity].
    apply str_eqb_eq in E. contradiction. }
  split; [|split].
  - destruct (Bool.eqb doScan doApply) eqn:E.
    + apply eqb_prop in E. simpl. tauto.
    + apply eqb_false_iff in E.
      destruct (str_eqb arg0 []) eqn:S.
      * apply str_eqb_eq in S. simpl. tauto.
      * assert (arg0 <> []) by (intros ->; discriminate S).
        destruct doScan.
        -- destruct (scanFailure (scanDirectory w arg0)); simpl;
             (split; [discriminate | intros [? | ?]; contradiction]).
        -- destruct (failure (applyTitlesFromCSV w arg0)); simpl;
             (split; [discriminate | intros [? | ?]; contradiction]).
  - intros -> -> H. rewrite (N H). reflexivity.
  - intros -> -> H. rewrite (N H). reflexivity.
Qed.

(** *** What a failed scan leaves in the file *)

Lemma bufio_WriteString_unflushed (b b' : bufio_Writer) (s : str)
    (r : option error) :
  unflushed b -> bufio_WriteString b s = (b', r) -> unflushed b'.
Proof.
  intros U H E' L'.
  destruct (@bufio_WriteString_spec b b' s r H) as [_ [R [p [q [A [B C]]]]]].
  assert (Hr : r = None) by congruence.
  rewrite (C Hr), app_nil_r in B. subst p.
  destruct (werr b) as [e|] eqn:E.
  - rewrite (@bufio_WriteString_sticky b s e E) in H. inversion H; subst.
    congruence.
  - rewrite A, length_app in L'.
    assert (S0 : sent b = []) by (apply U; [exact E | lia]).
    unfold accepted in L'. rewrite S0 in L'. cbn [app] in L'.
    rewrite (@bufio_WriteString_buffered b s E) in H by lia.
    inversion H; subst. exact S0.
Qed.

Lemma writeString_unflushed (w w' : csvWriter) (value : str) (r : option error) :
  unflushed (writer w) -> csvWriter_writeString w value = (w', r) ->
  unflushed (writer w').
Proof.
  unfold csvWriter_writeString.
  destruct (bufio_WriteString (writer w) value) as [b r'] eqn:E.
  intros U H; inversion H; subst. cbn [writer].
  eapply bufio_WriteString_unflushed; eassumption.
Qed.

Lemma writeFields_unflushed (record : list str) :
  forall (w w' : csvWriter) (i : nat) (r : option error),
    unflushed (writer w) -> writeFields w i record = (w', r) ->
    unflushed (writer w').
Proof.
  induction record as [|field rest IH]; intros w w' i r U H;
    cbn [writeFields] in H.
  - inversion H; subst. exact U.
  - destruct (if (0 <? i)%nat then csvWriter_writeString w [comma] else (w, None))
      as [w1 r1] eqn:E1.
    assert (U1 : unflushed (writer w1)).
    { destruct (0 <? i)%nat.
      - eapply writeString_unflushed; eassumption.
      - inversion E1; subst. exact U. }
    destruct r1 as [e1|]; [inversion H; subst; exact U1|].
    destruct (csvWriter_writeString w1 (encodeCSVField field)) as [w2 r2] eqn:E2.
    assert (U2 : unflushed (writer w2))
      by (eapply writeString_unflushed; eassumption).
    destruct r2 as [e2|]; [inversion H; subst; exact U2|].
    eapply IH; eassumption.
Qed.

Lemma csvWriter_Write_unflushed (w w' : csvWriter) (record : list str)
    (r : option error) :
  unflushed (writer w) -> csvWriter_Write w record = (w', r) ->
  unflushed (writer w').
Proof.
  unfold csvWriter_Write. intros U.
  destruct (writeFields w 0 record) as [w1 r1] eqn:E1.
  assert (U1 : unflushed (writer w1))
    by (eapply writeFields_unflushed; eassumption).
  destruct r1 as [e1|]; intros H; [inversion H; subst; exact U1|].
  eapply writeString_unflushed; eassumption.
Qed.

Lemma scanEntries_unflushed (w : World) (absDir : str) (entries : list DirEntry) :
  forall (cw cw' : csvWriter) (r : option error),
    unflushed (writer cw) -> scanEntries w absDir cw entries = (cw', r) ->
    unflushed (writer cw').
Proof.
  induction entries as [|entry entries IH]; intros cw cw' r U H.
  - inversion H; subst. exact U.
  - destruct (qualifies entry) eqn:Q.
    + rewrite scanEntries_row in H by assumption.
      destruct (readTitle w (filepath_Join absDir (Name entry))) as [title|e];
        [|inversion H; subst; exact U].
      destruct (csvWriter_Write cw [Name entry; title]) as [cw1 r1] eqn:W.
      assert (U1 : unflushed (writer cw1))
        by (eapply csvWriter_Write_unflushed; eassumption).
      destruct r1 as [e1|]; [inversion H; subst; exact U1|].
      eapply IH; eassumption.
    + rewrite scanEntries_skip in H by assumption. eapply IH; eassumption.
Qed.

(** X21: when [scanDirectory] returns with the sidecar created, the file
    holds what the device took from the writer, not what is still in the
    buffer.  So after a scan that returns an error other than a device
    error, having handed its writer no more than the buffer's 4096 bytes,
    the file [bilder.csv] is empty: the rows written before the failure are
    lost with the buffer. *)
Theorem X21_failed_scan_leaves_unflushed_rows_out (w : World) (dir : str)
    (out : csvWriter) :
  sidecar (scanDirectory w dir) = Some out ->
  scanned (scanDirectory w dir) =
    file_Close
      (fst (os_Create w (filepath_Join (filepath_Clean dir) csvFilename)))
      (filepath_Join (filepath_Clean dir) csvFilename)
      (sent (writer out))
  /\ (scanFailure (scanDirectory w dir) <> None ->
      werr (writer out) = None ->
      (length (accepted (writer out)) <= bufSize)%nat ->
      sent (writer out) = []).
Proof.
  unfold scanDirectory.
  destruct (os_ReadDir w (filepath_Clean dir)) as [entries|e];
    [|intros H; inversion H].
  destruct (os_Create w (filepath_Join (filepath_Clean dir) csvFilename))
    as [w1 [file|e]]; [|intros H; inversion H].
  assert (U0 : unflushed (writer (newCSVWriter file)))
    by (intros _ _; reflexivity).
  destruct (csvWriter_Write (newCSVWriter file) [lit "filename"; lit "title"])
    as [wh rh] eqn:WH.
  assert (Uh : unflushed (writer wh))
    by (eapply csvWriter_Write_unflushed; eassumption).
  destruct rh as [e|].
  { intros H; inversion H; subst. cbn [scanned fst scanFailure].
    split; [reflexivity|]. intros _. exact Uh. }
  destruct (filepath_Abs (filepath_Clean dir)) as [absDir|e].
  2:{ intros H; inversion H; subst. cbn [scanned fst scanFailure].
      split; [reflexivity|]. intros _. exact Uh. }
  destruct (scanEntries w1 absDir wh entries) as [ws rs] eqn:SE.
  assert (Us : unflushed (writer ws))
    by (eapply scanEntries_unflushed; eassumption).
  destruct rs as [e|].
  { intros H; inversion H; subst. cbn [scanned fst scanFailure].
    split; [reflexivity|]. intros _. exact Us. }
  destruct (csvWriter_Flush ws) as [wf [e|]] eqn:FL;
    intros H; inversion H; subst; cbn [scanned fst scanFailure];
    (split; [reflexivity|]).
  - intros _ E. unfold csvWriter_Flush in FL.
    destruct (bufio_Flush (writer ws)) as [b r] eqn:F.
    inversion FL; subst. cbn [writer] in *.
    destruct (@bufio_Flush_spec (writer ws) b (Some e) F) as [_ [_ [F3 _]]].
    congruence.
  - intros N. exfalso. apply N. reflexivity.
Qed.

End ScanMore.

Lemma X13_witness :
  exists (out : csvWriter) (titles : list str),
    sidecar (scanDirectory Sample.files (lit "/d")) = Some out
    /\ Forall2 (fun entry title =>
                  readTitle Sample.files
                    (filepath_Join (lit "/d") (Name entry)) = Ok title)
               (filter qualifies
                  [Sample.file "a.jpg"; Sample.file "notes.txt";
                   Sample.file "B.JPEG"; Sample.folder "sub.jpg";
                   Sample.file "bilder.csv"]) titles
    /\ applyTable Sample.files (lit "/d") (accepted (writer out)) =
       applyRecords (lit "/d") 0 1
         (scanRows
            (filter qualifies
               [Sample.file "a.jpg"; Sample.file "notes.txt";
                Sample.file "B.JPEG"; Sample.folder "sub.jpg";
                Sample.file "bilder.csv"]) titles)
         Sample.files
    /\ applyTitlesFromCSV (scanned (scanDirectory Sample.files (lit "/d")))
         (lit "/d") =
       applyRecords (lit "/d") 0 1
         (scanRows
            (filter qualifies
               [Sample.file "a.jpg"; Sample.file "notes.txt";
                Sample.file "B.JPEG"; Sample.folder "sub.jpg";
                Sample.file "bilder.csv"]) titles)
         (scanned (scanDirectory Sample.files (lit "/d"))).
Proof.
  destruct (@X13_apply_reads_what_scan_wrote asciiRuntime toyEnv Sample.files
              (lit "/d") _ (lit "/d") Sample.files (lit "/d")
              eq_refl eq_refl eq_refl eq_refl eq_refl eq_refl)
    as [out [titles [S [F [T A]]]]].
  { intros entry title [<- | [<- | [<- | [<- | [<- | []]]]]] R;
      vm_compute in R; inversion R; subst;
      (split; [discriminate | split;
        [intros f [<- | [<- | []]]; vm_compute; intuition discriminate
        | vm_compute; reflexivity]]). }
  exists out, titles.
  split; [exact S|]. split; [exact F|]. split; [exact T|].
  apply A. intros bytes. vm_compute. reflexivity.
Defined.

Lemma X16_witness :
  (let out := scanEntries Sample.files (lit "/d") (newCSVWriter Toy.noFault)
                [Sample.file "a.jpg"; Sample.file "c.jpg"] in
   snd out = Some (Errorf_w "parse EXIF" (lib_error 2))
   /\ sent (writer (fst out)) = []
   /\ buf (writer (fst out)) = lit "a.jpg,Sunset" ++ [LF]
   /\ exists (pre : list DirEntry) (entry : DirEntry) (post : list DirEntry)
             (titles : list str) (partial : str),
        [Sample.file "a.jpg"; Sample.file "c.jpg"] = pre ++ entry :: post
        /\ qualifies entry = true
        /\ Forall2 (fun e title =>
                      readTitle Sample.files (filepath_Join (lit "/d") (Name e)) =
                      Ok title)
                   (filter qualifies pre) titles
        /\ accepted (writer (fst out)) =
           accepted (writer (newCSVWriter Toy.noFault)) ++
           concat (map encodedLine (scanRows (filter qualifies pre) titles)) ++
           partial
        /\ ((readTitle Sample.files (filepath_Join (lit "/d") (Name entry)) =
             Err (Errorf_w "parse EXIF" (lib_error 2))
             /\ partial = [])
            \/ (exists title e rest,
                  readTitle Sample.files (filepath_Join (lit "/d") (Name entry)) =
                  Ok title
                  /\ Errorf_w "parse EXIF" (lib_error 2) =
                     Errorf_s_w "write row for" (Name entry) e
                  /\ partial ++ rest = encodedLine [Name entry; title])))
  /\ (let cw := {| writer := {| wr := fullAfter 0; sent := [];
                                buf := repeat "x"%char 4090;
                                werr := None |} |} in
      let out := scanEntries Sample.files (lit "/d") cw [Sample.file "a.jpg"] in
      snd out = Some (Errorf_s_w "write row for" (lit "a.jpg") (os_error 28))
      /\ sent (writer (fst out)) = []
      /\ buf (writer (fst out)) = repeat "x"%char 4090 ++ lit "a.jpg,"
      /\ exists (pre : list DirEntry) (entry : DirEntry) (post : list DirEntry)
                (titles : list str) (partial : str),
           [Sample.file "a.jpg"] = pre ++ entry :: post
           /\ qualifies entry = true
           /\ Forall2 (fun e title =>
                         readTitle Sample.files
                           (filepath_Join (lit "/d") (Name e)) = Ok title)
                      (filter qualifies pre) titles
           /\ accepted (writer (fst out)) =
              accepted (writer cw) ++
              concat (map encodedLine (scanRows (filter qualifies pre) titles)) ++
              partial
           /\ ((readTitle Sample.files (filepath_Join (lit "/d") (Name entry)) =
                Err (Errorf_s_w "write row for" (lit "a.jpg") (os_error 28))
                /\ partial = [])
               \/ (exists title e rest,
                     readTitle Sample.files
                       (filepath_Join (lit "/d") (Name entry)) = Ok title
                     /\ Errorf_s_w "write row for" (lit "a.jpg") (os_error 28) =
                        Errorf_s_w "write row for" (Name entry) e
                     /\ partial ++ rest = encodedLine [Name entry; title]))).
Proof.
  split.
  - intros out.
    split; [reflexivity|]. split; [reflexivity|]. split; [reflexivity|].
    exact (@X16_scan_failure_point asciiRuntime toyEnv Sample.files (lit "/d")
             [Sample.file "a.jpg"; Sample.file "c.jpg"] (newCSVWriter Toy.noFault)
             (fst out) (Errorf_w "parse EXIF" (lib_error 2)) eq_refl).
  - intros cw out.
    split; [vm_compute; reflexivity|]. split; [vm_compute; reflexivity|].
    split; [vm_compute; reflexivity|].
    apply (@X16_scan_failure_point asciiRuntime toyEnv Sample.files (lit "/d")
             [Sample.file "a.jpg"] cw
             (fst out) (Errorf_s_w "write row for" (lit "a.jpg") (os_error 28))).
    vm_compute. reflexivity.
Defined.

Lemma X18_witness :
  main true false false false (lit "/e") Sample.bareFiles =
    ExitFatal (@file_Close toyEnv Sample.bareFiles (lit "/e/bilder.csv") [])
      (Errorf_w "parse EXIF" (lib_error 2))
  /\ exitStatus (main true false true false (lit "/e") Sample.bareFiles) = 2%Z.
Proof.
  destruct (@X18_main_exit_status asciiRuntime toyEnv true false false false
              (lit "/e") Sample.bareFiles) as [_ [A _]].
  split.
  - rewrite A; [reflexivity | reflexivity | reflexivity | discriminate].
  - apply (proj2 (proj1 (@X18_main_exit_status asciiRuntime toyEnv true false true
                           false (lit "/e") Sample.bareFiles))).
    left. reflexivity.
Defined.

Lemma X21_witness :
  scanFailure (scanDirectory Sample.bareFiles (lit "/e")) =
    Some (Errorf_w "parse EXIF" (lib_error 2))
  /\ (exists out : csvWriter,
        sidecar (scanDirectory Sample.bareFiles (lit "/e")) = Some out
        /\ buf (writer out) = lit "filename,title" ++ [LF]
        /\ sent (writer out) = [])
  /\ os_Open (scanned (scanDirectory Sample.bareFiles (lit "/e")))
       (lit "/e/bilder.csv") = Ok [].
Proof.
  split; [reflexivity|].
  pose (out := {| writer := {| wr := Toy.noFault; sent := [];
                              buf := lit "filename,title" ++ [LF];
                              werr := None |} |}).
  destruct (@X21_failed_scan_leaves_unflushed_rows_out asciiRuntime toyEnv
              Sample.bareFiles (lit "/e") out eq_refl) as [A B].
  assert (Z : sent (writer out) = []).
  { apply B.
    - vm_compute. discriminate.
    - reflexivity.
    - vm_compute. lia. }
  split.
  - exists out. split; [reflexivity|]. split; [reflexivity | exact Z].
  - rewrite A, Z. vm_compute. reflexivity.
Defined.

(** ** What apply can never pass on *)

Lemma physicalLines_no_LF (input : str) :
  forall l, In l (physicalLines input) -> ~ In LF l.
Proof.
  induction input as [|c input IH]; intros l I; [destruct I|].
  cbn [physicalLines] in I. destruct (Ascii.eqb_spec c LF) as [-> | N].
  - destruct I as [<- | I]; [intros [] | apply IH; assumption].
  - destruct (physicalLines input) as [|h t].
    + destruct I as [<- | []]. intros [E | []]. congruence.
    + destruct I as [<- | I].
      * intros [E | I']; [congruence|].
        revert I'. apply IH. left; reflexivity.
      * apply IH. right; assumption.
Qed.

Lemma no_LF_snoc (f : str) (c : ascii) :
  ~ In LF f -> c <> LF -> ~ In LF (f ++ [c]).
Proof.
  intros H N I. apply in_app_or in I. destruct I as [I | [E | []]];
    [contradiction | congruence].
Qed.

Lemma scanLine_no_LF (line : str) :
  ~ In LF line ->
  forall fs f q,
    (forall g, In g fs -> ~ In LF g) /\ ~ In LF f ->
    match scanLine line fs f q with
    | (fs', f', _) => (forall g, In g fs' -> ~ In LF g) /\ ~ In LF f'
    end.
Proof.
  assert (G : forall n l, (length l <= n)%nat -> ~ In LF l ->
             forall fs f q,
               (forall g, In g fs -> ~ In LF g) /\ ~ In LF f ->
               match scanLine l fs f q with
               | (fs', f', _) => (forall g, In g fs' -> ~ In LF g) /\ ~ In LF f'
               end).
  { induction n as [|n IH]; intros l Hlen Hline fs f q Hs.
    - destruct l; [exact Hs | simpl in Hlen; lia].
    - destruct l as [|ch rest]; [exact Hs|]. simpl in Hlen.
      destruct Hs as [Hfs Hf].
      assert (Hch : ch <> LF) by (intros ->; apply Hline; left; reflexivity).
      assert (Hrest : ~ In LF rest) by (intros I; apply Hline; right; assumption).
      assert (Hfs' : forall g, In g (fs ++ [f]) -> ~ In LF g).
      { intros x I. apply in_app_or in I. destruct I as [I | [<- | []]]; auto. }
      destruct (ascii_cases ch) as [-> | [-> | [Hd Hc]]].
      + destruct q.
        * destruct rest as [|ch' rest']; [split; assumption|].
          destruct (Ascii.eqb_spec ch' dquote) as [-> | N].
          -- rewrite scanLine_escaped. apply IH.
             ++ simpl in Hlen. lia.
             ++ intros I. apply Hrest. right; assumption.
             ++ split; [assumption|].
                apply no_LF_snoc; [assumption | discriminate].
          -- rewrite scanLine_close
               by (simpl; intros E; inversion E; contradiction).
             apply IH; [lia | assumption | split; assumption].
        * rewrite scanLine_open.
          apply IH; [lia | assumption | split; assumption].
      + destruct q.
        * rewrite scanLine_comma_inside.
          apply IH; [lia | assumption | split; [assumption|]].
          apply no_LF_snoc; [assumption | discriminate].
        * rewrite scanLine_comma_outside.
          apply IH; [lia | assumption | split; [assumption | intros []]].
      + rewrite scanLine_plain by assumption.
        apply IH; [lia | assumption | split; [assumption|]].
        apply no_LF_snoc; assumption. }
  intros H. apply (G (length line)); [lia | assumption].
Qed.

Lemma dropCR_no_LF (l : str) : ~ In LF l -> ~ In LF (dropCR l).
Proof.
  intros H. destruct (dropCR_cases l) as [[_ E] | E].
  - rewrite E. assumption.
  - intros I. apply H. rewrite E. apply in_or_app. left; assumption.
Qed.

Lemma parseCSVLine_no_LF (line : str) (record : list str) :
  ~ In LF line -> parseCSVLine line = Ok record ->
  forall f, In f record -> ~ In LF f.
Proof.
  intros H P.
  assert (S : match scanLine line [] [] false with
              | (fs', f', _) => (forall g, In g fs' -> ~ In LF g) /\ ~ In LF f'
              end)
    by (apply scanLine_no_LF; [assumption | split; [intros ? [] | intros []]]).
  unfold parseCSVLine in P.
  destruct (scanLine line [] [] false) as [[fs f0] [|]]; inversion P. subst.
  destruct S as [Sfs Sf]. intros f I. apply in_app_or in I.
  destruct I as [I | [<- | []]]; auto.
Qed.

Lemma Read_no_LF (r r' : csvReader) (record : list str) :
  (forall l, In l (pending (scanner r)) -> ~ In LF l) ->
  csvReader_Read r = (r', Ok record) ->
  (forall f, In f record -> ~ In LF f)
  /\ (forall l, In l (pending (scanner r')) -> ~ In LF l).
Proof.
  intros Hp. unfold csvReader_Read, Scanner_Scan.
  destruct (scanErr (scanner r)) as [e|]; [simpl; intros H; inversion H|].
  destruct (pending (scanner r)) as [|raw rest]; [simpl; intros H; inversion H|].
  destruct (maxTokenSize (scanner r) <=? Z.of_nat (length raw))%Z;
    [simpl; intros H; inversion H|].
  cbn [negb Scanner_Text token].
  match goal with |- context [parseCSVLine ?l] =>
    destruct (parseCSVLine l) as [rec|e] eqn:P end;
    intros H; inversion H; subst. split.
  - refine (@parseCSVLine_no_LF _ _ _ P).
    assert (Hraw : ~ In LF raw) by (apply Hp; left; reflexivity).
    replace (if strings_HasSuffix (dropCR raw) [CR]
             then strings_TrimSuffix (dropCR raw) [CR] else dropCR raw)
      with (dropCR (dropCR raw)).
    + apply dropCR_no_LF, dropCR_no_LF. assumption.
    + unfold dropCR at 1. unfold strings_TrimSuffix.
      destruct (strings_HasSuffix (dropCR raw) [CR]); reflexivity.
  - simpl. intros l I. apply Hp. right; assumption.
Qed.

Section ApplyNever.
Context {rt : GoRuntime} {env : JpegEnv}.

Lemma applyRows_titles_no_LF (dir : str) (fi ti : Z) (n : nat) :
  forall (reader : csvReader) (w : World),
    (length (pending (scanner reader)) <= n)%nat ->
    (forall l, In l (pending (scanner reader)) -> ~ In LF l) ->
    forall c, In c (calls (applyRows dir fi ti reader w)) -> ~ In LF (snd c).
Proof.
  induction n as [|n IH]; intros reader w Hlen Hp c;
    rewrite applyRows_unfold;
    destruct (csvReader_Read reader) as [r' [record|e]] eqn:E;
    try (destruct e; simpl; intros []);
    pose proof (Read_shrinks _ E) as Hs; try lia.
  destruct (Read_no_LF _ Hp E) as [Hrec Hp'].
  assert (R : forall w' c', In c' (calls (applyRows dir fi ti r' w')) ->
                            ~ In LF (snd c'))
    by (intros w' c'; apply IH; [lia | assumption]).
  destruct (fi >=? Z.of_nat (length record))%Z; [apply R|].
  cbv zeta.
  destruct (str_eqb (strings_TrimSpace (nth (Z.to_nat fi) record [])) []);
    [apply R|].
  assert (T : ~ In LF (if (ti <? Z.of_nat (length record))%Z
                       then nth (Z.to_nat ti) record [] else [])).
  { destruct (ti <? Z.of_nat (length record))%Z; [|intros []].
    destruct (nth_in_or_default (Z.to_nat ti) record []) as [I | ->];
      [apply Hrec; assumption | intros []]. }
  match goal with |- context [upsertTitle ?a ?b ?c] =>
    destruct (upsertTitle a b c) as [w' [err|]] end.
  - cbn [calls]. intros [<- | []]. exact T.
  - unfold logCall. cbn [calls]. intros [<- | I]; [exact T | exact (R _ _ I)].
Qed.

(** X19: no title that [applyTitlesFromCSV] passes to [upsertTitle] holds a
    line feed, whatever the sidecar's bytes: a caption can never be set to
    a text of several lines through the sidecar. *)
Theorem X19_titles_hold_no_line_feed (w : World) (dir : str) (c : str * str) :
  In c (calls (applyTitlesFromCSV w dir)) -> ~ In LF (snd c).
Proof.
  unfold applyTitlesFromCSV.
  destruct (os_Open w (filepath_Join (filepath_Clean dir) csvFilename))
    as [file|e]; [|intros []].
  unfold applyTable.
  destruct (csvReader_Read (newCSVReader file)) as [r' [header|e]] eqn:E;
    [|intros []].
  destruct ((headerIndex header (lit "filename") =? -1)%Z
            || (headerIndex header (lit "title") =? -1)%Z); [intros []|].
  assert (Hp : forall l, In l (pending (scanner (newCSVReader file))) ->
                         ~ In LF l) by (apply physicalLines_no_LF).
  destruct (Read_no_LF _ Hp E) as [_ Hp'].
  apply (@applyRows_titles_no_LF _ _ _ (length (pending (scanner r'))));
    [apply le_n | assumption].
Qed.

Lemma nth_single_empty (k : nat) : nth k [@nil ascii] [] = [].
Proof. destruct k as [|[|k]]; reflexivity. Qed.

Lemma applyRows_blank_raw (dir : str) (fi ti : Z) (raw : str)
    (rest : list str) (w : World) :
  strings_TrimSpace [] = [] ->
  dropCR (dropCR raw) = [] ->
  (Z.of_nat (length raw) < maxScanTokenSize)%Z ->
  applyRows dir fi ti (readerOver (raw :: rest) []) w =
  applyRows dir fi ti (readerOver rest []) w.
Proof.
  intros Ht Hraw Hlen.
  rewrite applyRows_unfold, Read_next by assumption.
  rewrite Hraw. change (parseCSVLine []) with (@Ok (list str) [[]]).
  cbv beta iota.
  match goal with |- context [(fi >=? ?x)%Z] =>
    destruct (fi >=? x)%Z end; [apply applyRows_tok|].
  cbv zeta. rewrite nth_single_empty, Ht. apply applyRows_tok.
Qed.

(** X20: an empty line of the sidecar, ended by a line feed or by carriage
    return and line feed, is passed over by the apply loop whatever the
    column positions: the run is that on the rest of the input.  (Go's
    [strings.TrimSpace] maps the empty string to itself.) *)
Theorem X20_empty_line_skipped (dir : str) (fi ti : Z) (rest : str) (w : World) :
  strings_TrimSpace [] = [] ->
  applyRows dir fi ti (newCSVReader (LF :: rest)) w =
    applyRows dir fi ti (newCSVReader rest) w
  /\ applyRows dir fi ti (newCSVReader (CR :: LF :: rest)) w =
     applyRows dir fi ti (newCSVReader rest) w.
Proof.
  intros Ht. rewrite !newCSVReader_readerOver. split.
  - change (LF :: rest) with ([] ++ LF :: rest).
    rewrite physicalLines_line by (intros []).
    apply applyRows_blank_raw; [assumption | reflexivity|].
    unfold maxScanTokenSize. simpl. lia.
  - change (CR :: LF :: rest) with ([CR] ++ LF :: rest).
    rewrite physicalLines_line by (intros [E | []]; discriminate).
    apply applyRows_blank_raw; [assumption | reflexivity|].
    unfold maxScanTokenSize. simpl. lia.
Qed.

End ApplyNever.

Lemma X19_witness :
  ~ In LF (snd (lit "/d/a.jpg", @nil ascii)).
Proof.
  apply (@X19_titles_hold_no_line_feed asciiRuntime toyEnv Sample.shortRowFiles
           (lit "/d") (lit "/d/a.jpg", [])).
  left. reflexivity.
Defined.

Lemma X20_witness :
  applyRows (lit "/d") 0 1 (newCSVReader (CR :: LF :: lit "a.jpg,New")) Sample.files =
  applyRows (lit "/d") 0 1 (newCSVReader (lit "a.jpg,New")) Sample.files.
Proof.
  apply (proj2 (@X20_empty_line_skipped asciiRuntime toyEnv (lit "/d") 0%Z 1%Z
                  (lit "a.jpg,New") Sample.files eq_refl)).
Defined.
